(** * Advanced Audio Suite: the batch synthesis pipeline of [AAS.py]

    A shallow embedding of the parts of [AAS.py] that decide what gets
    synthesised: [escape_xml_text], [speed_multiplier_to_rate], [build_ssml],
    the snapshot reader and writer of [SynthesisWorker], and
    [SynthesisWorker._run_impl] with its change detection, target selection,
    retry loop and final commit; then [language_name_from_code],
    [PreviewWorker] and the computations of [MainWindow] that involve no
    widget: the languages, regions, voices and styles it offers, the default
    CSV file and the removal of logs.

    Conventions.
    - A Python [str] is a list of Unicode code points ([list N]).
    - A Python [float] is a binary64 value ([PrimFloat.float]).
    - [pathlib.Path] is modelled in its POSIX flavour; the path operations
      of the synthesis loop are given in the Windows flavour as well.
    - The file system has directories and files, no symbolic links and no
      permissions.
    - Effects (file system, log signal, the speech service) are threaded
      through an explicit world; Python exceptions are the [Raise] outcome. *)

From Stdlib Require Import ZArith NArith Floats Ascii String DecimalString
  DecimalFacts DecimalPos DecimalN.
From stdpp Require Import gmap list.
From Equations Require Import Equations.

Local Open Scope N_scope.

(** ** Python strings *)

Abbreviation char := N (only parsing).
Abbreviation str := (list N) (only parsing).

(** A string literal of the source, as code points. *)
Definition lit (s : String.string) : str :=
  map N_of_ascii (String.list_ascii_of_string s).
Arguments lit s%_string.

Definition c_tab : char := 9.
Definition c_lf : char := 10.
Definition c_cr : char := 13.
Definition c_space : char := 32.
Definition c_quot : char := 34.
Definition c_amp : char := 38.
Definition c_apos : char := 39.
Definition c_comma : char := 44.
Definition c_minus : char := 45.
Definition c_dot : char := 46.
Definition c_slash : char := 47.
Definition c_colon : char := 58.
Definition c_lt : char := 60.
Definition c_gt : char := 62.
Definition c_underscore : char := 95.

Definition str_eqb (a b : str) : bool := bool_decide (a = b).

Fixpoint starts_with (pre s : str) : bool :=
  match pre, s with
  | [], _ => true
  | p :: pre', c :: s' => (p =? c) && starts_with pre' s'
  | _ :: _, [] => false
  end.

(** [str.replace(old, new)]: every non-overlapping occurrence of [old],
    scanning from the left.  [skip] counts the characters of a match that are
    still to be dropped. *)
Fixpoint replace_from (old new : str) (skip : nat) (s : str) : str :=
  match s with
  | [] => []
  | c :: s' =>
      match skip with
      | S k => replace_from old new k s'
      | O =>
          if starts_with old s
          then new ++ replace_from old new (length old - 1) s'
          else c :: replace_from old new 0 s'
      end
  end.

Definition replace (old new s : str) : str :=
  match old with
  | [] => new ++ flat_map (fun c => c :: new) s
  | _ :: _ => replace_from old new 0 s
  end.

(** [str.isspace] on one code point: the characters [str.strip()] removes. *)
Definition is_space (c : char) : bool :=
  ((9 <=? c) && (c <=? 13)) || ((28 <=? c) && (c <=? 32))
  || (c =? 133) || (c =? 160) || (c =? 5760)
  || ((8192 <=? c) && (c <=? 8202))
  || (c =? 8232) || (c =? 8233) || (c =? 8239) || (c =? 8287) || (c =? 12288).

Fixpoint lstrip (s : str) : str :=
  match s with
  | [] => []
  | c :: s' => if is_space c then lstrip s' else s
  end.

Definition rstrip (s : str) : str := rev (lstrip (rev s)).

Definition strip (s : str) : str := lstrip (rstrip s).

(** [sep.join(items)] *)
Fixpoint join (sep : str) (items : list str) : str :=
  match items with
  | [] => []
  | [x] => x
  | x :: rest => x ++ sep ++ join sep rest
  end.

(** [str(n)] for a Python [int]. *)
Definition str_of_Z (z : Z) : str := lit (NilZero.string_of_int (Z.to_int z)).
Definition str_of_nat (n : nat) : str := str_of_Z (Z.of_nat n).

(** ** [escape_xml_text] *)

Definition escape_xml_text (value : str) : str :=
  replace (lit "'") (lit "&apos;")
    (replace [c_quot] (lit "&quot;")
       (replace (lit ">") (lit "&gt;")
          (replace (lit "<") (lit "&lt;")
             (replace (lit "&") (lit "&amp;") value)))).

(** ** [speed_multiplier_to_rate]

    The format specification [+.2f] of Python: sign always shown, two digits
    after the point, the decimal expansion of the binary64 value correctly
    rounded (ties to even); infinities and NaN print as [inf] and [nan]. *)

Definition round_half_even (n d : N) : N :=
  let q := n / d in
  let r := n mod d in
  if 2 * r <? d then q
  else if d <? 2 * r then q + 1
  else if N.even q then q else q + 1.

(** The value [m * 2^e], in hundredths, rounded to an integer. *)
Definition hundredths (m : positive) (e : Z) : N :=
  match e with
  | Zneg p => round_half_even (Npos m * 100) (2 ^ Npos p)
  | _ => Npos m * 100 * 2 ^ Z.to_N e
  end.

Definition str_of_N (n : N) : str := str_of_Z (Z.of_N n).

Definition two_digits (n : N) : str :=
  if n <? 10 then lit "0" ++ str_of_N n else str_of_N n.

Definition sign_str (negative : bool) : str :=
  if negative then lit "-" else lit "+".

Definition format_plus_2f (x : float) : str :=
  match Prim2SF x with
  | S754_nan => lit "+nan"
  | S754_infinity s => sign_str s ++ lit "inf"
  | S754_zero s => sign_str s ++ lit "0.00"
  | S754_finite s m e =>
      let h := hundredths m e in
      sign_str s ++ str_of_N (h / 100) ++ lit "." ++ two_digits (h mod 100)
  end.

Definition speed_multiplier_to_rate (speed : float) : str :=
  let percentage := ((speed - 1.0) * 100.0)%float in
  format_plus_2f percentage ++ lit "%".

(** ** [build_ssml] *)

Section Ssml.
(** [str.lower], whose Unicode case tables are not part of the program. *)
Variable lower : str -> str.

Definition build_ssml (language_code region short_name text style : str)
    (speed : float) (pre_silence post_silence : Z) : str :=
  let xml_lang := language_code ++ lit "-" ++ region in
  let rate := speed_multiplier_to_rate speed in
  let '(style_wrapper_start, style_wrapper_end) :=
    if str_eqb (lower style) (lit "default")
    then ([], [])
    else (lit "<mstts:express-as style='" ++ lower style
            ++ lit "' styledegree='2'>",
          lit "</mstts:express-as>") in
  lit "<speak version='1.0' xmlns='http://www.w3.org/2001/10/synthesis' "
  ++ lit "xmlns:mstts='https://www.w3.org/2001/mstts' "
  ++ lit "xml:lang='" ++ xml_lang ++ lit "'>"
  ++ lit "<voice name='" ++ short_name ++ lit "'>"
  ++ style_wrapper_start
  ++ lit "<lang xml:lang='" ++ xml_lang ++ lit "'>"
  ++ lit "<prosody rate='" ++ rate ++ lit "'>"
  ++ lit "<mstts:silence type='Leading-exact' value='"
       ++ str_of_Z pre_silence ++ lit "ms'/>"
  ++ escape_xml_text text
  ++ lit "<mstts:silence type='Trailing-exact' value='"
       ++ str_of_Z post_silence ++ lit "ms'/>"
  ++ lit "</prosody>"
  ++ lit "</lang>"
  ++ style_wrapper_end
  ++ lit "</voice>"
  ++ lit "</speak>".
End Ssml.

(** ** [pathlib.Path] (POSIX flavour) *)

Record Path := mkPath { root : str; comps : list str }.

#[global] Instance Path_eq_dec : EqDecision Path.
Proof. solve_decision. Defined.

(** [s.split(sep)] for a one-character separator. *)
Fixpoint split_on (sep : char) (s : str) : list str :=
  match s with
  | [] => [[]]
  | c :: s' =>
      if c =? sep then [] :: split_on sep s'
      else match split_on sep s' with
           | [] => [[c]]
           | w :: ws => (c :: w) :: ws
           end
  end.

Fixpoint count_leading (c : char) (s : str) : nat :=
  match s with
  | x :: s' => if x =? c then S (count_leading c s') else O
  | [] => O
  end.

(** [Path(s)]: exactly two leading slashes are kept as the root [//], empty
    and [.] components are dropped, [..] components are kept. *)
Definition parse_path (s : str) : Path :=
  let n := count_leading c_slash s in
  {| root := if (n =? 2)%nat then lit "//"
             else if (1 <=? n)%nat then lit "/" else [];
     comps := filter (fun x => x ≠ [] ∧ x ≠ lit ".") (split_on c_slash s) |}.

Definition is_absolute (p : Path) : bool := negb (str_eqb (root p) []).

(** [p.parts] *)
Definition parts (p : Path) : list str :=
  if is_absolute p then root p :: comps p else comps p.

(** [p / q] *)
Definition path_join (p q : Path) : Path :=
  if is_absolute q then q
  else {| root := root p; comps := comps p ++ comps q |}.

(** [str(p)] *)
Definition path_str (p : Path) : str :=
  match root p, comps p with
  | [], [] => lit "."
  | r, cs => r ++ join (lit "/") cs
  end.

(** [p.parent] *)
Definition path_parent (p : Path) : Path :=
  {| root := root p; comps := removelast (comps p) |}.

(** [p.name] *)
Definition path_name (p : Path) : str := List.last (comps p) [].

Fixpoint rfind (c : char) (s : str) : option nat :=
  match s with
  | [] => None
  | x :: s' =>
      match rfind c s' with
      | Some i => Some (S i)
      | None => if x =? c then Some O else None
      end
  end.

(** [p.suffix] *)
Definition path_suffix (p : Path) : str :=
  let name := path_name p in
  match rfind c_dot name with
  | Some i =>
      if ((0 <? i)%nat && (i <? length name - 1)%nat)%bool
      then drop i name else []
  | None => []
  end.

(** ** The file system

    A tree of directories, text files and audio files, keyed by the
    component list of the resolved absolute path.  The root directory is
    the empty key and always exists; there are no symbolic links. *)

Inductive node := Dir | Text (content : str) | Audio (size : N).

#[global] Instance node_eq_dec : EqDecision node.
Proof. solve_decision. Defined.

Definition node_at (fs : gmap (list str) node) (k : list str) : option node :=
  match k with
  | [] => Some Dir
  | _ :: _ => fs !! k
  end.

Definition step (cur : list str) (c : str) : list str :=
  if decide (c = lit "..") then removelast cur else cur ++ [c].

(** Path resolution as the operating system does it: every component but
    the last must be an existing directory. *)
Inductive resolved :=
  | Found (k : list str) (n : node)
  | Missing (k : list str)
  | NoEnt
  | NotDir.

Fixpoint walk (fs : gmap (list str) node) (cur : list str) (cs : list str)
    : resolved :=
  match cs with
  | [] =>
      match node_at fs cur with
      | Some n => Found cur n
      | None => Missing cur
      end
  | c :: rest =>
      match node_at fs cur with
      | Some Dir => walk fs (step cur c) rest
      | Some _ => NotDir
      | None => NoEnt
      end
  end.

(** [mkdir(parents=True, exist_ok=True)]: every missing directory on the
    way is created; a component that is a file makes it fail. *)
Fixpoint mkdirs (fs : gmap (list str) node) (cur : list str) (cs : list str)
    : option (gmap (list str) node) :=
  match node_at fs cur with
  | Some Dir =>
      match cs with
      | [] => Some fs
      | c :: rest => mkdirs fs (step cur c) rest
      end
  | Some _ => None
  | None =>
      match cs with
      | [] => Some (<[cur := Dir]> fs)
      | c :: rest => mkdirs (<[cur := Dir]> fs) (step cur c) rest
      end
  end.

Definition utf8_width (c : char) : N :=
  if c <? 128 then 1 else if c <? 2048 then 2 else if c <? 65536 then 3 else 4.

Definition utf8_len (s : str) : N := foldr (fun c n => utf8_width c + n) 0 s.

(** ** The speech service

    [SpeechSynthesizer.speak_ssml_async(ssml).get()] with an
    [AudioOutputConfig(filename=...)]: it answers with no result or with a
    result carrying a reason, and it may leave, replace or remove the file
    it was pointed at. *)

Inductive ResultReason :=
  | NoMatch
  | Canceled
  | SynthesizingAudio
  | SynthesizingAudioCompleted
  | SynthesizingAudioStarted.

#[global] Instance ResultReason_eq_dec : EqDecision ResultReason.
Proof. solve_decision. Defined.

Inductive file_effect := LeaveFile | WriteFile (size : N) | NoFile.

Record settings := mkSettings {
  s_style : str; s_multiplier : float;
  s_trailingSilence : Z; s_leadingSilence : Z }.

(** What the worker needs from outside the program. *)
Class Env := {
  tts_state : Type;
  speak_ssml :
    tts_state -> str -> str -> tts_state * option ResultReason * file_effect;
  (** [str.lower] *)
  lower : str -> str;
  (** [json.dumps(payload, indent=2)] on the settings payload *)
  json_dumps : settings -> str;
  (** [st_size] of a directory *)
  dir_st_size : N;
  (** the path strings the operating system turns down with an error of its
      own, such as a name that is too long *)
  os_refuses : str -> bool;
  (** those among them whose error is on the list that [Path.exists()] takes
      as [False], such as an invalid name on Windows *)
  exists_ignores : str -> bool }.

Record CsvRow := mkCsvRow { path : str; text_to_play : str }.

#[global] Instance CsvRow_eq_dec : EqDecision CsvRow.
Proof. solve_decision. Defined.

Inductive exn :=
  | RuntimeError (msg : str)
  | FileNotFoundError (msg : str)
  | OSError (p : Path)
  | UnicodeDecodeError (p : Path)
  | CsvError (msg : str)
  | ValueError (msg : str).

(** ** The [csv] module, excel dialect

    Delimiter comma, quote character the double quote, doubled quotes, no escape character,
    line terminator CR LF, minimal quoting, not strict. *)

(** Iterating a text file opened with [newline=""]: lines end at LF, CR or
    CR LF and keep their terminator. *)
Fixpoint lines_from (cur : str) (s : str) : list str :=
  match s with
  | [] => match cur with [] => [] | _ :: _ => [rev cur] end
  | c :: s' =>
      if c =? c_lf then rev (c :: cur) :: lines_from [] s'
      else if c =? c_cr then
        match s' with
        | c' :: s'' =>
            if c' =? c_lf then rev (c' :: c :: cur) :: lines_from [] s''
            else rev (c :: cur) :: lines_from [] s'
        | [] => [rev (c :: cur)]
        end
      else lines_from (c :: cur) s'
  end.

Definition file_lines (s : str) : list str := lines_from [] s.

(** [csv.field_size_limit()] *)
Definition field_size_limit : N := 131072.

(** The states of the reader that the excel dialect can reach (it has no
    escape character). *)
Inductive ParserState :=
  | START_RECORD
  | START_FIELD
  | IN_FIELD
  | IN_QUOTED_FIELD
  | QUOTE_IN_QUOTED_FIELD
  | EAT_CRNL.

#[global] Instance ParserState_eq_dec : EqDecision ParserState.
Proof. solve_decision. Defined.

Record Reader := mkReader {
  state : ParserState;
  field : str;
  fields : list str }.

(** A character of the line, or the end-of-line mark fed after it. *)
Inductive token := Ch (c : char) | EOL.

Definition parse_reset : Reader :=
  {| state := START_RECORD; field := []; fields := [] |}.

Definition parse_add_char (r : Reader) (c : char) : option Reader :=
  if field_size_limit <=? N.of_nat (length (field r)) then None
  else Some {| state := state r; field := field r ++ [c]; fields := fields r |}.

Definition parse_save_field (r : Reader) : Reader :=
  {| state := state r; field := []; fields := fields r ++ [field r] |}.

Definition set_state (s : ParserState) (r : Reader) : Reader :=
  {| state := s; field := field r; fields := fields r |}.

Definition is_newline (c : char) : bool := (c =? c_lf) || (c =? c_cr).

(** [None] is [csv.Error]. *)
Definition parse_process_char (r : Reader) (t : token) : option Reader :=
  let start_field (r : Reader) :=
    match t with
    | EOL => Some (set_state START_RECORD (parse_save_field r))
    | Ch c =>
        if is_newline c then Some (set_state EAT_CRNL (parse_save_field r))
        else if c =? c_quot then Some (set_state IN_QUOTED_FIELD r)
        else if c =? c_comma then Some (parse_save_field r)
        else set_state IN_FIELD <$> parse_add_char r c
    end in
  match state r with
  | START_RECORD =>
      match t with
      | EOL => Some r
      | Ch c =>
          if is_newline c then Some (set_state EAT_CRNL r)
          else start_field (set_state START_FIELD r)
      end
  | START_FIELD => start_field r
  | IN_FIELD =>
      match t with
      | EOL => Some (set_state START_RECORD (parse_save_field r))
      | Ch c =>
          if is_newline c then Some (set_state EAT_CRNL (parse_save_field r))
          else if c =? c_comma
          then Some (set_state START_FIELD (parse_save_field r))
          else parse_add_char r c
      end
  | IN_QUOTED_FIELD =>
      match t with
      | EOL => Some r
      | Ch c =>
          if c =? c_quot then Some (set_state QUOTE_IN_QUOTED_FIELD r)
          else parse_add_char r c
      end
  | QUOTE_IN_QUOTED_FIELD =>
      match t with
      | EOL => Some (set_state START_RECORD (parse_save_field r))
      | Ch c =>
          if c =? c_quot then set_state IN_QUOTED_FIELD <$> parse_add_char r c
          else if c =? c_comma
          then Some (set_state START_FIELD (parse_save_field r))
          else if is_newline c
          then Some (set_state EAT_CRNL (parse_save_field r))
          else set_state IN_FIELD <$> parse_add_char r c
      end
  | EAT_CRNL =>
      match t with
      | EOL => Some (set_state START_RECORD r)
      | Ch c => if is_newline c then Some r else None
      end
  end.

Fixpoint feed (r : Reader) (ts : list token) : option Reader :=
  match ts with
  | [] => Some r
  | t :: ts' =>
      match parse_process_char r t with
      | Some r' => feed r' ts'
      | None => None
      end
  end.

Definition feed_line (r : Reader) (line : str) : option Reader :=
  feed r (map Ch line ++ [EOL]).

(** All the records of [csv.reader(lines)]: a record is complete when the
    state is back to [START_RECORD] after a line; at the end of the input an
    unfinished record is returned as it stands. *)
Fixpoint reader_records (r : Reader) (ls : list str)
    : option (list (list str)) :=
  match ls with
  | [] =>
      if ((0 <? length (field r))%nat
          || bool_decide (state r = IN_QUOTED_FIELD))%bool
      then Some [fields (parse_save_field r)]
      else Some []
  | line :: rest =>
      match feed_line r line with
      | None => None
      | Some r' =>
          if decide (state r' = START_RECORD)
          then cons (fields r') <$> reader_records parse_reset rest
          else reader_records r' rest
      end
  end.

Definition csv_reader (text : str) : option (list (list str)) :=
  reader_records parse_reset (file_lines text).

(** The dictionary [csv.DictReader] builds for one record: values by field
    name (a later column of the same name wins), [None] for the names the
    record is too short for. *)
Definition dict_row (fieldnames row : list str) : gmap (list N) (option str) :=
  let d := foldl (fun d kv => <[kv.1 := Some kv.2]> d) ∅ (zip fieldnames row) in
  let lf := length fieldnames in
  let lr := length row in
  if (lr <? lf)%nat
  then foldl (fun d k => <[k := None]> d) d (drop lr fieldnames)
  else d.

(** [row.get(key) or ""] *)
Definition get_or_empty (d : gmap (list N) (option str)) (key : str) : str :=
  match d !! key with
  | Some (Some v) => v
  | _ => []
  end.

(** The rows [csv.DictReader] yields: the first record is the header, empty
    records are skipped. *)
Definition dict_reader (records : list (list str))
    : list (gmap (list N) (option str)) :=
  match records with
  | [] => []
  | fieldnames :: rest =>
      map (dict_row fieldnames) (filter (fun row => row ≠ []) rest)
  end.

Definition needs_quotes (f : str) : bool :=
  existsb (fun c => (c =? c_comma) || (c =? c_quot) || (c =? c_cr) || (c =? c_lf)) f.

Definition write_field (f : str) : str :=
  if needs_quotes f
  then c_quot :: flat_map (fun c => if c =? c_quot then [c_quot; c_quot] else [c]) f
       ++ [c_quot]
  else f.

(** [csv.writer.writerow]: a record made of one empty field is written as
    two quote characters. *)
Definition writerow (fs : list str) : str :=
  match fs with
  | [[]] => [c_quot; c_quot]
  | _ => join [c_comma] (map write_field fs)
  end ++ [c_cr; c_lf].

(** Decoding with [utf-8-sig] drops one leading byte order mark. *)
Definition decode_utf8_sig (s : str) : str :=
  match s with
  | c :: s' => if c =? 65279 then s' else s
  | [] => []
  end.

(** ** [SynthesisWorker._read_csv_rows] and [_write_rows], on file contents *)

Definition row_of_dict (d : gmap (list N) (option str)) : option CsvRow :=
  let path_value := strip (get_or_empty d (lit "path")) in
  let text_value := strip (get_or_empty d (lit "text to play")) in
  if str_eqb path_value [] then None
  else Some {| path := path_value; text_to_play := text_value |}.

(** [None] is an exception of the csv reader. *)
Definition read_rows_text (content : str) : option (list CsvRow) :=
  records ← csv_reader (decode_utf8_sig content);
  Some (omap row_of_dict (dict_reader records)).

Definition write_rows_text (rows : list CsvRow) : str :=
  writerow [lit "path"; lit "text to play"]
  ++ flat_map (fun row => writerow [path row; text_to_play row]) rows.

(** ** The world the worker runs in *)

Section Worker.
Context `{Env}.

Record World := mkWorld {
  (** the file system *)
  fs : gmap (list str) node;
  (** the current directory, as a resolved key *)
  cwd : list str;
  (** the state of the speech service *)
  tts : tts_state;
  (** the calls made to the speech service: markup and file name *)
  spoken : list (str * str);
  (** the lines sent on the [log] signal *)
  emitted : list str }.

Inductive outcome (A : Type) :=
  | Ok (a : A) (w : World)
  | Raise (e : exn) (w : World).
Arguments Ok {A} a w.
Arguments Raise {A} e w.

Definition M (A : Type) : Type := World -> outcome A.

#[global] Instance M_ret : MRet M := fun A a w => Ok a w.
#[global] Instance M_bind : MBind M := fun A B f m w =>
  match m w with
  | Ok a w' => f a w'
  | Raise e w' => Raise e w'
  end.

Definition raise {A} (e : exn) : M A := fun w => Raise e w.

Definition set_fs (t : gmap (list str) node) (w : World) : World :=
  {| fs := t; cwd := cwd w; tts := tts w; spoken := spoken w;
     emitted := emitted w |}.

Definition emit (msg : str) (w : World) : World :=
  {| fs := fs w; cwd := cwd w; tts := tts w; spoken := spoken w;
     emitted := emitted w ++ [msg] |}.

(** [self.log.emit(msg)] *)
Definition log_emit (msg : str) : M unit := fun w => Ok () (emit msg w).

Definition resolve (w : World) (p : Path) : resolved :=
  walk (fs w) (if is_absolute p then [] else cwd w) (comps p).

(** [p.exists()] *)
Definition path_exists (w : World) (p : Path) : bool :=
  match resolve w p with Found _ _ => true | _ => false end.

(** ** Paths that name nothing

    The functions of [os] raise [ValueError] for a path string with a NUL
    character before the operating system is asked, and the operating system
    raises an error of its own for a path string it turns down, which it is
    taken to do whatever the file system holds.  No entry of a file system
    has such a path, so these are answers for paths that do not resolve. *)
Definition has_nul (p : Path) : bool := bool_decide (0 ∈ path_str p).

Definition refusal (p : Path) : option exn :=
  if has_nul p then Some (ValueError (lit "embedded null byte"))
  else if os_refuses (path_str p) then Some (OSError p)
  else None.

(** [p.exists()] where the program goes by its answer: the [ValueError] of
    [os.stat] is taken as [False], and so is an error of the operating
    system that is on the list of [pathlib]; any other one is raised. *)
Definition exists_ (p : Path) : M bool := fun w =>
  if path_exists w p then Ok true w
  else if has_nul p then Ok false w
  else if (os_refuses (path_str p) && negb (exists_ignores (path_str p)))%bool
  then Raise (OSError p) w
  else Ok false w.

(** [p.is_file()] *)
Definition path_is_file (w : World) (p : Path) : bool :=
  match resolve w p with
  | Found _ (Text _) | Found _ (Audio _) => true
  | _ => false
  end.

(** [p.stat().st_size] of an existing path *)
Definition st_size (w : World) (p : Path) : N :=
  match resolve w p with
  | Found _ (Text s) => utf8_len s
  | Found _ (Audio n) => n
  | _ => dir_st_size
  end.

(** [p.mkdir(parents=True, exist_ok=True)]; a path that is turned down
    fails before any directory is made. *)
Definition mkdir_parents (p : Path) : M unit := fun w =>
  match (if path_exists w p then None else refusal p) with
  | Some e => Raise e w
  | None =>
      match mkdirs (fs w) (if is_absolute p then [] else cwd w) (comps p) with
      | Some t => Ok () (set_fs t w)
      | None => Raise (OSError p) w
      end
  end.

(** [p.unlink(missing_ok=True)] *)
Definition unlink_missing_ok (p : Path) : M unit := fun w =>
  match resolve w p with
  | Found k Dir => Raise (OSError p) w
  | Found k _ => Ok () (set_fs (delete k (fs w)) w)
  | Missing _ | NoEnt =>
      match refusal p with
      | Some e => Raise e w
      | None => Ok () w
      end
  | NotDir =>
      match refusal p with
      | Some e => Raise e w
      | None => Raise (OSError p) w
      end
  end.

(** Opening [p] for writing, writing [content] and closing. *)
Definition write_text (p : Path) (content : str) : M unit := fun w =>
  match resolve w p with
  | Found k Dir => Raise (OSError p) w
  | Found k _ => Ok () (set_fs (<[k := Text content]> (fs w)) w)
  | Missing k =>
      match refusal p with
      | Some e => Raise e w
      | None => Ok () (set_fs (<[k := Text content]> (fs w)) w)
      end
  | NoEnt =>
      match refusal p with
      | Some e => Raise e w
      | None => Raise (FileNotFoundError (path_str p)) w
      end
  | NotDir =>
      match refusal p with
      | Some e => Raise e w
      | None => Raise (OSError p) w
      end
  end.

(** Opening [p] for reading as text and reading it all. *)
Definition read_text (p : Path) : M str := fun w =>
  match resolve w p with
  | Found _ (Text s) => Ok s w
  | Found _ (Audio _) => Raise (UnicodeDecodeError p) w
  | Found _ Dir => Raise (OSError p) w
  | Missing _ | NoEnt =>
      match refusal p with
      | Some e => Raise e w
      | None => Raise (FileNotFoundError (path_str p)) w
      end
  | NotDir =>
      match refusal p with
      | Some e => Raise e w
      | None => Raise (OSError p) w
      end
  end.

(** What one call of the speech service does to the file it writes to; a
    file whose name the file system cannot hold is not made. *)
Definition apply_effect (eff : file_effect) (p : Path) (w : World)
    : gmap (list str) node :=
  match eff, resolve w p with
  | WriteFile n, Found k (Text _ | Audio _) => <[k := Audio n]> (fs w)
  | WriteFile n, Missing k =>
      match refusal p with
      | Some _ => fs w
      | None => <[k := Audio n]> (fs w)
      end
  | NoFile, Found k (Text _ | Audio _) => delete k (fs w)
  | _, _ => fs w
  end.

(** One [SpeechSynthesizer(...).speak_ssml_async(ssml).get()] with the
    audio output directed to [output_file]. *)
Definition speak (output_file : Path) (ssml : str) (w : World)
    : option ResultReason * World :=
  let '(t, result, eff) := speak_ssml (tts w) ssml (path_str output_file) in
  (result,
   {| fs := apply_effect eff output_file w; cwd := cwd w; tts := t;
      spoken := spoken w ++ [(ssml, path_str output_file)];
      emitted := emitted w |}).

(** ** [SynthesisWorker] *)

Record SynthesisWorker := mkWorker {
  app_root : Path;
  csv_file_path : Path;
  output_dir : Path;
  key : str;
  region_value : str;
  language_code : str;
  language_name : str;
  selected_region : str;
  short_name : str;
  style : str;
  speed : float;
  post_silence : Z;
  pre_silence : Z }.

Variable self : SynthesisWorker.

(** The window has put the same test to the path before it starts the
    worker, so here [exists()] and [is_file()] answer. *)
Definition _resolve_csv_path : M Path := fun w =>
  let csv_path := csv_file_path self in
  if (negb (path_exists w csv_path) || negb (path_is_file w csv_path)
      || negb (str_eqb (lower (path_suffix csv_path)) (lit ".csv")))%bool
  then Raise (FileNotFoundError
                (lit "CSV file not found or invalid: " ++ path_str csv_path)) w
  else Ok csv_path (emit (lit "Using CSV: " ++ path_str csv_path) w).

Definition _read_csv_rows (csv_path : Path) : M (list CsvRow) :=
  content ← read_text csv_path;
  match read_rows_text content with
  | Some rows => mret rows
  | None => raise (CsvError (path_str csv_path))
  end.

Definition _write_rows (csv_path : Path) (rows : list CsvRow) : M unit :=
  write_text csv_path (write_rows_text rows).

(** [{row.path: row.text_to_play for row in last_rows}] *)
Definition build_last_map (last_rows : list CsvRow) : gmap (list N) str :=
  foldl (fun m row => <[path row := text_to_play row]> m) ∅ last_rows.

(** [base_output / row.path.replace(":", "_")] *)
Definition old_file_of (base_output : Path) (row : CsvRow) : Path :=
  path_join base_output (parse_path (replace (lit ":") (lit "_") (path row))).

(** The first loop of [_run_impl]: rows whose path the last run did not
    have are new; rows whose text differs from the last run's are changed,
    and their old audio file is removed on the spot. *)
Definition diff_row (base_output : Path) (last_map : gmap (list N) str)
    (acc : list CsvRow * list CsvRow) (row : CsvRow)
    : M (list CsvRow * list CsvRow) :=
  let '(changed_rows, new_rows) := acc in
  match last_map !! path row with
  | None =>
      _ ← log_emit (path row ++ lit " is a new row.");
      mret (changed_rows, new_rows ++ [row])
  | Some last_text =>
      if decide (last_text ≠ text_to_play row) then
        _ ← log_emit (path row
               ++ lit " text to play has changed. Removing old audio file.");
        let old_file := old_file_of base_output row in
        old_exists ← exists_ old_file;
        _ ← (if old_exists : bool
             then unlink_missing_ok old_file else mret ());
        mret (changed_rows ++ [row], new_rows)
      else mret (changed_rows, new_rows)
  end.

Fixpoint foldM {A B : Type} (f : B -> A -> M B) (b : B) (xs : list A) : M B :=
  match xs with
  | [] => mret b
  | x :: xs' => b' ← f b x; foldM f b' xs'
  end.

Definition diff_rows (base_output : Path) (last_map : gmap (list N) str)
    (current_rows : list CsvRow) : M (list CsvRow * list CsvRow) :=
  foldM (diff_row base_output last_map) ([], []) current_rows.

(** Truth value of a list. *)
Definition truthy {A} (l : list A) : bool :=
  match l with [] => false | _ :: _ => true end.

Definition select_targets (changed_rows new_rows current_rows : list CsvRow)
    : M (list CsvRow) :=
  if (truthy changed_rows && truthy new_rows)%bool then
    _ ← log_emit (lit "Changes detected in .csv file. Synthesizing new and changed rows.");
    mret (changed_rows ++ new_rows)
  else if truthy changed_rows then
    _ ← log_emit (lit "Changes detected in .csv file. Synthesizing changed rows.");
    mret changed_rows
  else if truthy new_rows then
    _ ← log_emit (lit "Changes detected in .csv file. Synthesizing new rows.");
    mret new_rows
  else
    _ ← log_emit (lit "No changes detected in .csv file. Only missing files will be synthesized.");
    mret current_rows.

(** The end of a file's retries: the partial file goes, the path joins
    the failures. *)
Definition retry_limit_reached (output_file : Path) (failed_outputs : list str)
    : M (list str) :=
  _ ← unlink_missing_ok output_file;
  _ ← log_emit (lit "Audio synthesis failed. Retry limit reached for this file.");
  mret (failed_outputs ++ [path_str output_file]).

(** The [while True] loop around one file.  Every round either leaves the
    loop or raises [retry_count], and leaves once it reaches 3.  The loop is
    entered once [exists()] has answered for the output file, so it answers
    in the loop as well. *)
Equations retry_loop (output_file : Path) (ssml : str)
    (failed_outputs : list str) (retry_count : nat) (w : World)
    : outcome (list str) by wf (3 - retry_count)%nat lt :=
retry_loop output_file ssml failed_outputs retry_count w :=
  let r := speak output_file ssml w in
  match r.1 with
  | None =>
      let retry_count' := S retry_count in
      let w1 := emit (lit "Synthesis returned no result for "
                        ++ path_str output_file ++ lit ". Retry count: "
                        ++ str_of_nat retry_count') r.2 in
      match le_lt_dec 3 retry_count' with
      | left _ => retry_limit_reached output_file failed_outputs w1
      | right _ => retry_loop output_file ssml failed_outputs retry_count' w1
      end
  | Some reason =>
      let failure :=
        if decide (reason ≠ SynthesizingAudioCompleted) then
          Some (emit (lit "Synthesis failed for " ++ path_str output_file
                        ++ lit ". Retry count: "
                        ++ str_of_nat (S retry_count)) r.2)
        else if (negb (path_exists r.2 output_file)
                 || (st_size r.2 output_file <? 1024))%bool then
          Some (emit (lit "File generated is invalid. Retrying...") r.2)
        else None in
      match failure with
      | None => Ok failed_outputs (emit (lit "Done") r.2)
      | Some w1 =>
          let retry_count' := S retry_count in
          match le_lt_dec 3 retry_count' with
          | left _ => retry_limit_reached output_file failed_outputs w1
          | right _ => retry_loop output_file ssml failed_outputs retry_count' w1
          end
      end
  end.
Next Obligation. lia. Qed.
Next Obligation. lia. Qed.

(** The body of the second loop of [_run_impl]. *)
Definition synthesize_row (base_output : Path) (failed_outputs : list str)
    (row : CsvRow) : M (list str) :=
  let safe_relative_path :=
    parse_path (replace (lit ":") (lit "_") (path row)) in
  if (is_absolute safe_relative_path
      || bool_decide (lit ".." ∈ parts safe_relative_path))%bool then
    _ ← log_emit (lit "Skipping unsafe CSV path: " ++ path row);
    mret failed_outputs
  else
    let output_file := path_join base_output safe_relative_path in
    _ ← mkdir_parents (path_parent output_file);
    output_exists ← exists_ output_file;
    if output_exists : bool then
      _ ← log_emit (lit "File " ++ path_str output_file
                      ++ lit " already exists. Skipping synthesis.");
      mret failed_outputs
    else
      _ ← log_emit (lit "Synthesizing " ++ path_str output_file ++ lit "...");
      let ssml :=
        build_ssml lower (language_code self) (selected_region self)
          (short_name self) (text_to_play row) (style self) (speed self)
          (pre_silence self) (post_silence self) in
      retry_loop output_file ssml failed_outputs 0.

Definition synthesize_rows (base_output : Path) (target_rows : list CsvRow)
    : M (list str) :=
  foldM (synthesize_row base_output) [] target_rows.

(** The message of the [RuntimeError] that ends a run with failures. *)
Definition failure_message (failed_outputs : list str) : str :=
  let preview := join (lit ", ") (take 5 failed_outputs) in
  let preview :=
    if (5 <? length failed_outputs)%nat then preview ++ lit ", ..."
    else preview in
  lit "Synthesis failed for " ++ str_of_nat (length failed_outputs)
    ++ lit " file(s) after 3 retries. " ++ lit "Examples: " ++ preview.

Definition base_output_of : Path :=
  path_join
    (path_join
       (path_join (output_dir self) (parse_path (language_code self)))
       (parse_path (selected_region self)))
    (parse_path (List.last (split_on c_minus (short_name self)) [])).

Definition last_csv_path_of : Path :=
  path_join (path_join (app_root self) (parse_path (lit "data")))
    (parse_path (lit "lastCsvData.csv")).

Definition settings_path_of : Path :=
  path_join base_output_of (parse_path (lit "settings.json")).

(** The end of [_run_impl]: with failures the run raises; otherwise the
    snapshot and the settings record are written. *)
Definition commit (failed_outputs : list str) (current_rows : list CsvRow)
    : M unit :=
  if truthy failed_outputs then
    raise (RuntimeError (failure_message failed_outputs))
  else
    _ ← _write_rows last_csv_path_of current_rows;
    let settings_payload :=
      {| s_style := style self; s_multiplier := speed self;
         s_trailingSilence := post_silence self;
         s_leadingSilence := pre_silence self |} in
    _ ← write_text settings_path_of (json_dumps settings_payload);
    log_emit (lit "Settings saved to " ++ path_str settings_path_of).

(** [_run_impl] up to the end of the synthesis loop: the rows of the CSV
    file and the failures of the loop. *)
Definition synthesize_all : M (list CsvRow * list str) :=
  let base_output := base_output_of in
  _ ← mkdir_parents base_output;
  csv_path ← _resolve_csv_path;
  current_rows ← _read_csv_rows csv_path;
  let data_dir := path_join (app_root self) (parse_path (lit "data")) in
  _ ← mkdir_parents data_dir;
  let last_csv_path := last_csv_path_of in
  snapshot_exists ← exists_ last_csv_path;
  _ ← (if snapshot_exists : bool then mret ()
       else _write_rows last_csv_path current_rows);
  _ ← log_emit (lit "Checking for changes in .csv file from last run...");
  last_rows ← _read_csv_rows last_csv_path;
  let last_map := build_last_map last_rows in
  '(changed_rows, new_rows) ← diff_rows base_output last_map current_rows;
  target_rows ← select_targets changed_rows new_rows current_rows;
  failed_outputs ← synthesize_rows base_output target_rows;
  mret (current_rows, failed_outputs).

Definition _run_impl : M unit :=
  '(current_rows, failed_outputs) ← synthesize_all;
  commit failed_outputs current_rows.

(** The signal a run ends with. *)
Inductive signal := done | failed (e : exn).

(** [SynthesisWorker.run] *)
Definition run (w : World) : signal * World :=
  match _run_impl w with
  | Ok _ w' => (done, w')
  | Raise e w' => (failed e, w')
  end.
End Worker.

Arguments Ok {_ _} a w.
Arguments Raise {_ _} e w.

(** The world a run ends in. *)
Definition world_of `{Env} {A} (o : outcome A) : World :=
  match o with
  | Ok _ w => w
  | Raise _ w => w
  end.

(** ** Sample environments and a sample worker *)

Definition ascii_lower (s : str) : str :=
  map (fun c => if (65 <=? c) && (c <=? 90) then c + 32 else c) s.

(** A system that turns down a name of more than 255 characters and a path
    string of 4096 characters or more. *)
Definition too_long (s : str) : bool :=
  (negb (length s <? 4096)
   || existsb (fun c => negb (length c <=? 255)) (split_on c_slash s))%nat.

(** A speech service that never answers and leaves a stub behind. *)
Definition env_no_result : Env := {|
  tts_state := unit;
  speak_ssml := fun t _ _ => (t, None, WriteFile 10);
  lower := ascii_lower;
  json_dumps := fun _ => lit "{}";
  dir_st_size := 4096;
  os_refuses := too_long;
  exists_ignores := fun _ => false |}.

(** A speech service that always completes with two kilobytes of audio. *)
Definition env_completes : Env := {|
  tts_state := unit;
  speak_ssml := fun t _ _ =>
    (t, Some SynthesizingAudioCompleted, WriteFile 2048);
  lower := ascii_lower;
  json_dumps := fun _ => lit "{}";
  dir_st_size := 4096;
  os_refuses := too_long;
  exists_ignores := fun _ => false |}.

Definition sample_worker : SynthesisWorker := {|
  app_root := parse_path (lit "/app");
  csv_file_path := parse_path (lit "/in/rows.csv");
  output_dir := parse_path (lit "/out");
  key := lit "key";
  region_value := lit "westeurope";
  language_code := lit "en";
  language_name := lit "English";
  selected_region := lit "US";
  short_name := lit "en-US-JennyNeural";
  style := lit "Default";
  speed := 1.0%float;
  post_silence := 0;
  pre_silence := 0 |}.

Definition sample_base : Path := parse_path (lit "/out/en/US/JennyNeural").

(** A file system with the directories a run needs. *)
Definition sample_dirs : gmap (list str) node :=
  <[ [lit "out"; lit "en"; lit "US"; lit "JennyNeural"] := Dir ]>
    (<[ [lit "out"; lit "en"; lit "US"] := Dir ]>
       (<[ [lit "out"; lit "en"] := Dir ]>
          (<[ [lit "out"] := Dir ]>
             (<[ [lit "app"; lit "data"] := Dir ]>
                (<[ [lit "app"] := Dir ]>
                   (<[ [lit "in"] := Dir ]> ∅)))))).

Definition world_with `{Env} (t : tts_state) (files : gmap (list str) node)
    : World :=
  {| fs := files; cwd := []; tts := t; spoken := []; emitted := [] |}.

(** * The paths of the synthesis loop on Windows

    [Path] is a [WindowsPath] where the program is run on Windows (it
    imports [winsound] for the preview).  This is [pathlib] in its Windows
    flavour, as far as the first lines of the synthesis loop use it: the
    separators are the backslash and the slash, a drive may come before the
    root, and a path is absolute only when it has both. *)

Module Windows.

Definition c_backslash : char := 92.

Record Path := mkPath { drive : str; root : str; comps : list str }.

(** [s.find(c, start)] *)
Fixpoint find_from (c : char) (start : nat) (s : str) : option nat :=
  match s with
  | [] => None
  | x :: s' =>
      match start with
      | S k => S <$> find_from c k s'
      | O => if x =? c then Some O else S <$> find_from c O s'
      end
  end.

(** [s.lstrip(c)] *)
Fixpoint lstrip_char (c : char) (s : str) : str :=
  match s with
  | x :: s' => if x =? c then lstrip_char c s' else s
  | [] => []
  end.

Definition is_drive_letter (s : str) : bool :=
  match s with
  | [c] => ((65 <=? c) && (c <=? 90)) || ((97 <=? c) && (c <=? 122))
  | _ => false
  end.

(** [_WindowsFlavour._split_extended_path] *)
Definition split_extended_path (s : str) : str * str :=
  if starts_with (lit "\\?" ++ [c_backslash]) s then
    let prefix := take 4 s in
    let s := drop 4 s in
    if starts_with (lit "UNC" ++ [c_backslash]) s
    then (prefix ++ take 3 s, c_backslash :: drop 3 s)
    else (prefix, s)
  else ([], s).

(** [_WindowsFlavour.splitroot]: the drive, the root and the rest. *)
Definition splitroot (part : str) : str * str * str :=
  let sep := [c_backslash] in
  let '(prefix, part) :=
    if (str_eqb (take 1 (drop 1 part)) sep && str_eqb (take 1 part) sep)%bool
    then split_extended_path part
    else ([], part) in
  let first := take 1 part in
  let second := take 1 (drop 1 part) in
  let third := take 1 (drop 2 part) in
  let with_drive_letter :=
    let '(drv, part, first) :=
      if (str_eqb second (lit ":") && is_drive_letter first)%bool
      then (take 2 part, drop 2 part, third)
      else ([], part, first) in
    if str_eqb first sep
    then (prefix ++ drv, first, lstrip_char c_backslash part)
    else (prefix ++ drv, [], part) in
  if (str_eqb second sep && str_eqb first sep && negb (str_eqb third sep))%bool
  then
    (* a UNC path: two separators, the machine, the mount point *)
    match find_from c_backslash 2 part with
    | Some index =>
        match find_from c_backslash (index + 1) part with
        | Some index2 =>
            if (index2 =? index + 1)%nat then with_drive_letter
            else if truthy prefix
            then (prefix ++ drop 1 (take index2 part), sep,
                  drop (index2 + 1) part)
            else (take index2 part, sep, drop (index2 + 1) part)
        | None =>
            if truthy prefix then (prefix ++ drop 1 part, sep, [])
            else (part, sep, [])
        end
    | None => with_drive_letter
    end
  else with_drive_letter.

Definition to_sep (part : str) : str :=
  map (fun c => if c =? c_slash then c_backslash else c) part.

Definition rel_comps (rel : str) : list str :=
  filter (fun x => x ≠ [] ∧ x ≠ lit ".") (split_on c_backslash rel).

(** [_Flavour.parse_parts], on the parts from the last to the first: the
    parts count up to the last one with a drive or a root, and a root
    without a drive takes the drive of the nearest part before it that has
    one. *)
Fixpoint find_drive (rparts : list str) : str :=
  match rparts with
  | [] => []
  | part :: rest =>
      let drv := (splitroot (to_sep part)).1.1 in
      if truthy drv then drv else find_drive rest
  end.

Fixpoint parse_rparts (rparts : list str) : Path :=
  match rparts with
  | [] => {| drive := []; root := []; comps := [] |}
  | part :: rest =>
      let '(drv, rt, rel) := splitroot (to_sep part) in
      if (truthy drv || truthy rt)%bool then
        {| drive := if truthy drv then drv else find_drive rest;
           root := rt; comps := rel_comps rel |}
      else
        let p := parse_rparts rest in
        {| drive := drive p; root := root p; comps := comps p ++ rel_comps rel |}
  end.

Definition parse_parts (parts : list str) : Path := parse_rparts (rev parts).

(** [Path(s)] *)
Definition parse_path (s : str) : Path := parse_parts [s].

(** [p.is_absolute()] *)
Definition is_absolute (p : Path) : bool :=
  if truthy (root p) then truthy (drive p) else false.

(** [p.parts] *)
Definition parts (p : Path) : list str :=
  if (truthy (drive p) || truthy (root p))%bool
  then (drive p ++ root p) :: comps p
  else comps p.

Section Join.
(** [str.lower] *)
Variable lower : str -> str.

(** [_Flavour.join_parsed_parts] *)
Definition join_parsed_parts (p q : Path) : Path :=
  if truthy (root q) then
    if (negb (truthy (drive q)) && truthy (drive p))%bool
    then {| drive := drive p; root := root q; comps := comps q |}
    else q
  else if truthy (drive q) then
    if (str_eqb (drive q) (drive p)
        || str_eqb (lower (drive q)) (lower (drive p)))%bool
    then {| drive := drive p; root := root p; comps := comps p ++ comps q |}
    else q
  else {| drive := drive p; root := root p; comps := comps p ++ comps q |}.

(** [p / q] for a path [q]: the parts of [q] are parsed again. *)
Definition path_join (p q : Path) : Path :=
  join_parsed_parts p (parse_parts (parts q)).

(** [base_output / Path(row.path.replace(":", "_"))] *)
Definition output_file_of (base_output : Path) (row : CsvRow) : Path :=
  path_join base_output (parse_path (replace (lit ":") (lit "_") (path row))).
End Join.

(** [str(p)] *)
Definition path_str (p : Path) : str :=
  match drive p ++ root p ++ join [c_backslash] (comps p) with
  | [] => lit "."
  | s => s
  end.

(** The test of the synthesis loop:
    [is_absolute() or ".." in safe_relative_path.parts] *)
Definition unsafe_path (p : Path) : bool :=
  (is_absolute p || bool_decide (lit ".." ∈ parts p))%bool.


End Windows.

(** * The rest of the module: languages, the preview and the main window *)

(** ** Built-ins: comparison and [sorted] *)

(** [a < b] on sequences, as Python compares lists and strings: by the first
    place where they differ, a proper prefix first. *)
Fixpoint lex_ltb {A} (ltb : A -> A -> bool) (a b : list A) : bool :=
  match a, b with
  | _, [] => false
  | [], _ :: _ => true
  | x :: a', y :: b' =>
      if ltb x y then true
      else if ltb y x then false
      else lex_ltb ltb a' b'
  end.

(** Strings compare by code points. *)
Definition str_ltb (a b : str) : bool := lex_ltb N.ltb a b.

(** Paths compare by their parts. *)
Definition path_ltb (p q : Path) : bool := lex_ltb str_ltb (parts p) (parts q).

(** [x] goes before the first item that is not below it. *)
Fixpoint insort {A} (ltb : A -> A -> bool) (x : A) (l : list A) : list A :=
  match l with
  | [] => [x]
  | y :: l' => if ltb y x then y :: insort ltb x l' else x :: l
  end.

(** [sorted(items)]; the sort is stable. *)
Definition sorted_by {A} (ltb : A -> A -> bool) (items : list A) : list A :=
  foldr (insort ltb) [] items.

(** [sorted(items)] on strings, and [sorted(set(items))]. *)
Definition sorted (items : list str) : list str := sorted_by str_ltb items.

Definition sorted_set (items : list str) : list str :=
  sorted (remove_dups items).

(** ** The constants of the module and [language_name_from_code] *)

Definition DEFAULT_STYLES : list str :=
  [lit "Default"; lit "Chat"; lit "Narration"].

(** The items of [LANGUAGE_NAMES]; the name of [nb] has the two code points
    195 and 165 where the source text has them. *)
Definition LANGUAGE_NAMES_items : list (str * str) :=
  [ (lit "af", lit "Afrikaans"); (lit "am", lit "Amharic");
    (lit "ar", lit "Arabic"); (lit "az", lit "Azerbaijani");
    (lit "bg", lit "Bulgarian"); (lit "bn", lit "Bengali");
    (lit "bs", lit "Bosnian"); (lit "ca", lit "Catalan");
    (lit "cs", lit "Czech"); (lit "cy", lit "Welsh"); (lit "da", lit "Danish");
    (lit "de", lit "German"); (lit "el", lit "Greek");
    (lit "en", lit "English"); (lit "es", lit "Spanish");
    (lit "et", lit "Estonian"); (lit "fa", lit "Persian");
    (lit "fi", lit "Finnish"); (lit "fil", lit "Filipino");
    (lit "fr", lit "French"); (lit "ga", lit "Irish");
    (lit "gl", lit "Galician"); (lit "gu", lit "Gujarati");
    (lit "he", lit "Hebrew"); (lit "hi", lit "Hindi");
    (lit "hr", lit "Croatian"); (lit "hu", lit "Hungarian");
    (lit "id", lit "Indonesian"); (lit "is", lit "Icelandic");
    (lit "it", lit "Italian"); (lit "ja", lit "Japanese");
    (lit "jv", lit "Javanese"); (lit "ka", lit "Georgian");
    (lit "kk", lit "Kazakh"); (lit "km", lit "Khmer");
    (lit "kn", lit "Kannada"); (lit "ko", lit "Korean"); (lit "lo", lit "Lao");
    (lit "lt", lit "Lithuanian"); (lit "lv", lit "Latvian");
    (lit "mk", lit "Macedonian"); (lit "ml", lit "Malayalam");
    (lit "mn", lit "Mongolian"); (lit "mr", lit "Marathi");
    (lit "ms", lit "Malay"); (lit "my", lit "Burmese");
    (lit "nb", lit "Norwegian Bokm" ++ [195; 165] ++ lit "l");
    (lit "ne", lit "Nepali"); (lit "nl", lit "Dutch");
    (lit "pl", lit "Polish"); (lit "ps", lit "Pashto");
    (lit "pt", lit "Portuguese"); (lit "ro", lit "Romanian");
    (lit "ru", lit "Russian"); (lit "si", lit "Sinhala");
    (lit "sk", lit "Slovak"); (lit "sl", lit "Slovenian");
    (lit "so", lit "Somali"); (lit "sq", lit "Albanian");
    (lit "sr", lit "Serbian"); (lit "su", lit "Sundanese");
    (lit "sv", lit "Swedish"); (lit "sw", lit "Swahili");
    (lit "ta", lit "Tamil"); (lit "te", lit "Telugu"); (lit "th", lit "Thai");
    (lit "tr", lit "Turkish"); (lit "uk", lit "Ukrainian");
    (lit "ur", lit "Urdu"); (lit "uz", lit "Uzbek");
    (lit "vi", lit "Vietnamese"); (lit "zh", lit "Chinese");
    (lit "zu", lit "Zulu") ].

Definition LANGUAGE_NAMES : gmap (list N) str := list_to_map LANGUAGE_NAMES_items.

Section Languages.
Context `{Env}.

Definition language_name_from_code (language_code : str) : str :=
  let code := lower (strip language_code) in
  if negb (truthy code) then lit "Unknown"
  else default code (LANGUAGE_NAMES !! code).
End Languages.

(** ** [PreviewWorker] *)

Module PreviewWorker.

Record state := mkState {
  key : str;
  region_value : str;
  short_name : str;
  ssml : str;
  sample_wav_path : Path }.

(** The signals of the preview worker. *)
Inductive signal := done (message : str) | failed (e : exn).

Section Methods.
Context `{Env}.
(** The [winsound] module when it could be imported: what [PlaySound] does
    with a file name, return or raise. *)
Variable winsound : option (str -> option exn).
Variable self : state.

(** The message [done] is emitted with, and the file handed to
    [winsound.PlaySound] when there is one to play. *)
Definition _run_impl : M (str * option str) := fun w =>
  let r := speak (sample_wav_path self) (ssml self) w in
  match r.1 with
  | None =>
      Raise (RuntimeError
               (lit "Voice preview failed: no result returned from Azure Speech."))
        r.2
  | Some reason =>
      if decide (reason ≠ SynthesizingAudioCompleted) then
        Raise (RuntimeError (lit "Voice preview failed.")) r.2
      else if (negb (path_exists r.2 (sample_wav_path self))
               || (st_size r.2 (sample_wav_path self) =? 0))%bool then
        Raise (RuntimeError (lit "Voice preview failed: no audio was written."))
          r.2
      else
        match winsound with
        | Some PlaySound =>
            match PlaySound (path_str (sample_wav_path self)) with
            | None =>
                Ok (lit "Voice preview played.",
                    Some (path_str (sample_wav_path self))) r.2
            | Some e => Raise e r.2
            end
        | None =>
            Ok (lit "Voice preview generated at "
                  ++ path_str (sample_wav_path self), None) r.2
        end
  end.

(** [PreviewWorker.run]: the signal emitted and the file played. *)
Definition run (w : World) : signal * option str * World :=
  match _run_impl w with
  | Ok (message, played) w' => (done message, played, w')
  | Raise e w' => (failed e, None, w')
  end.
End Methods.
End PreviewWorker.

(** ** [MainWindow] *)

Module MainWindow.

(** An entry of [voices.json] as [_load_or_fetch_voices] writes it: the four
    keys are there, with strings and a list of strings. *)
Record Voice := mkVoice {
  Locale : str;
  LocaleName : str;
  ShortName : str;
  StyleList : list str }.

(** What the methods below read of the window: attributes, and the current
    text of the combo boxes. *)
Record state := mkState {
  app_root : Path;
  voices : list Voice;
  (** a [dict], in insertion order *)
  language_map : list (str * str);
  cmb_language : str;
  cmb_region : str;
  cmb_voice : str }.

Section Methods.
Context `{Env}.
(** [str.title], whose Unicode case tables are not part of the program. *)
Variable title : str -> str.
Variable self : state.

(** One round of the loop of [_populate_languages]. *)
Definition populate_voice (language_map : list (str * str)) (voice : Voice)
    : list (str * str) :=
  let locale := Locale voice in
  if negb (bool_decide (c_minus ∈ locale)) then language_map
  else
    let language_code := hd [] (split_on c_minus locale) in
    if bool_decide (language_code ∈ language_map.*1) then language_map
    else language_map ++ [(language_code, language_name_from_code language_code)].

(** [_populate_languages]: the new [language_map] and the items of the
    language box. *)
Definition _populate_languages : list (str * str) * list str :=
  let language_map := foldl populate_voice [] (voices self) in
  let languages := sorted_set language_map.*2 in
  (language_map, languages).

Definition _selected_language_code : str :=
  let selected_language := strip (cmb_language self) in
  match List.find (fun item => str_eqb item.2 selected_language)
          (language_map self) with
  | Some (code, _) => code
  | None => lit "en"
  end.

(** The items [_refresh_regions] puts in the region box. *)
Definition regions : list str :=
  let language_code := _selected_language_code in
  sorted_set
    (map (fun voice => nth 1 (split_on c_minus (Locale voice)) [])
       (List.filter
          (fun voice =>
             starts_with (language_code ++ lit "-") (Locale voice)
             && bool_decide (c_minus ∈ Locale voice))
          (voices self))).

(** The items [_refresh_voices] puts in the voice box. *)
Definition short_names : list str :=
  let language_code := _selected_language_code in
  let region := strip (cmb_region self) in
  let matches :=
    List.filter
      (fun voice =>
         starts_with (language_code ++ lit "-" ++ region) (Locale voice))
      (voices self) in
  map (fun voice => List.last (split_on c_minus (ShortName voice)) [])
    (List.filter (fun voice => truthy (ShortName voice)) matches).

Definition _current_short_name : str :=
  let language_code := _selected_language_code in
  let region := strip (cmb_region self) in
  let voice_tail := strip (cmb_voice self) in
  if (negb (truthy language_code) || negb (truthy region)
      || negb (truthy voice_tail))%bool then []
  else language_code ++ lit "-" ++ region ++ lit "-" ++ voice_tail.

(** The items [_refresh_styles] puts in the style box. *)
Definition style_options : list str :=
  let selected_short_name := _current_short_name in
  let style_list :=
    if truthy selected_short_name then
      match List.find (fun voice => str_eqb (ShortName voice) selected_short_name)
              (voices self) with
      | Some voice => StyleList voice
      | None => []
      end
    else [] in
  if negb (truthy style_list) then DEFAULT_STYLES
  else
    let normalized_styles :=
      remove_dups
        (map (fun style => title (strip style))
           (List.filter (fun style => truthy (strip style)) style_list)) in
    let normalized_styles :=
      List.filter (fun style => negb (str_eqb style (lit "Default")))
        normalized_styles in
    lit "Default" :: sorted normalized_styles.

(** [p.is_dir()] *)
Definition path_is_dir (w : World) (p : Path) : bool :=
  match resolve w p with
  | Found _ Dir => true
  | _ => false
  end.

(** The names of the entries of the directory at [k]. *)
Definition listdir (t : gmap (list str) node) (k : list str) : list str :=
  omap (fun entry : list str * node =>
          if decide (entry.1 ≠ [] ∧ removelast entry.1 = k)
          then Some (List.last entry.1 []) else None)
    (map_to_list t).

(** [p.iterdir()] of a directory. *)
Definition iterdir (w : World) (p : Path) : list Path :=
  match resolve w p with
  | Found k Dir =>
      map (fun name => path_join p {| root := []; comps := [name] |})
        (listdir (fs w) k)
  | _ => []
  end.

Definition _default_csv_file_path (w : World) : option Path :=
  let in_dir := path_join (app_root self) (parse_path (lit "in")) in
  if (negb (path_exists w in_dir) || negb (path_is_dir w in_dir))%bool then None
  else
    let csv_files :=
      sorted_by path_ltb
        (List.filter
           (fun path =>
              path_is_file w path
              && str_eqb (lower (path_suffix path)) (lit ".csv"))
           (iterdir w in_dir)) in
    match csv_files with
    | [] => None
    | first :: _ => Some first
    end.

(** [fnmatch] of a name against the pattern [log-*]. *)
Definition matches_log (name : str) : bool := starts_with (lit "log-") name.

(** [self.app_root.glob(pattern)] for a pattern of one component without
    wildcards in the directory part: the entries of the directory whose
    name matches; nothing when [app_root] is no directory. *)
Definition glob_logs (w : World) : list Path :=
  match resolve w (app_root self) with
  | Found k Dir =>
      map (fun name => path_join (app_root self) {| root := []; comps := [name] |})
        (List.filter matches_log (listdir (fs w) k))
  | _ => []
  end.

(** [_cleanup_logs]; the line goes to the output box, which is where the
    log signal of the worker goes as well. *)
Definition _cleanup_logs : M unit := fun w =>
  (_ ← foldM (fun (_ : unit) (path : Path) (v : World) =>
                if path_is_file v path then unlink_missing_ok path v
                else Ok () v)
         () (glob_logs w);
   log_emit (lit "Cleaning up...")) w.
End Methods.
End MainWindow.

(** * Notions used in the statements *)

Definition escape_char (c : N) : list N :=
  if c =? c_amp then lit "&amp;"
  else if c =? c_lt then lit "&lt;"
  else if c =? c_gt then lit "&gt;"
  else if c =? c_quot then lit "&quot;"
  else if c =? c_apos then lit "&apos;"
  else [c].

Definition is_reserved (c : N) : bool :=
  (c =? c_amp) || (c =? c_lt) || (c =? c_gt) || (c =? c_quot) || (c =? c_apos).

(** The four characters that may not stand raw in the text of the markup. *)
Definition is_raw_markup (c : N) : bool :=
  (c =? c_lt) || (c =? c_gt) || (c =? c_quot) || (c =? c_apos).

Definition entities : list (list N) :=
  [lit "&amp;"; lit "&lt;"; lit "&gt;"; lit "&quot;"; lit "&apos;"].

(** Text made of unreserved characters and whole entities. *)
Inductive Escaped : list N -> Prop :=
  | Escaped_nil : Escaped []
  | Escaped_plain c s : is_reserved c = false -> Escaped s -> Escaped (c :: s)
  | Escaped_entity e s : In e entities -> Escaped s -> Escaped (e ++ s).

(** What [build_ssml] puts before and after the text. *)
Definition ssml_before (lower : list N -> list N)
    (language_code region short_name style : list N) (speed : float)
    (pre_silence : Z) : list N :=
  let xml_lang := language_code ++ lit "-" ++ region in
  lit "<speak version='1.0' xmlns='http://www.w3.org/2001/10/synthesis' "
  ++ lit "xmlns:mstts='https://www.w3.org/2001/mstts' "
  ++ lit "xml:lang='" ++ xml_lang ++ lit "'>"
  ++ lit "<voice name='" ++ short_name ++ lit "'>"
  ++ (if str_eqb (lower style) (lit "default") then []
      else lit "<mstts:express-as style='" ++ lower style
             ++ lit "' styledegree='2'>")
  ++ lit "<lang xml:lang='" ++ xml_lang ++ lit "'>"
  ++ lit "<prosody rate='" ++ speed_multiplier_to_rate speed ++ lit "'>"
  ++ lit "<mstts:silence type='Leading-exact' value='"
  ++ str_of_Z pre_silence ++ lit "ms'/>".

Definition ssml_after (lower : list N -> list N) (style : list N)
    (post_silence : Z) : list N :=
  lit "<mstts:silence type='Trailing-exact' value='"
  ++ str_of_Z post_silence ++ lit "ms'/>"
  ++ lit "</prosody>"
  ++ lit "</lang>"
  ++ (if str_eqb (lower style) (lit "default") then []
      else lit "</mstts:express-as>")
  ++ lit "</voice>"
  ++ lit "</speak>".

Definition is_digit (c : N) : bool := (48 <=? c) && (c <=? 57).

(** The number a string of decimal digits denotes. *)
Definition digits_value (s : list N) : N :=
  foldl (fun acc c => acc * 10 + (c - 48)) 0 s.

Definition is_finite (x : float) : bool :=
  match Prim2SF x with
  | S754_zero _ | S754_finite _ _ _ => true
  | _ => false
  end.

Definition sign_bit (x : float) : bool :=
  match Prim2SF x with
  | S754_zero s | S754_infinity s | S754_finite s _ _ => s
  | S754_nan => false
  end.

(** The magnitude of a finite float in hundredths, rounded to nearest, ties to even. *)
Definition magnitude_hundredths (x : float) : N :=
  match Prim2SF x with
  | S754_finite _ m e => hundredths m e
  | _ => 0
  end.

(** The records an unfinished reader gives up at the end of the input. *)
Definition eof_records (r : Reader) : list (list (list N)) :=
  if ((0 <? length (field r))%nat || bool_decide (state r = IN_QUOTED_FIELD))%bool
  then [fields (parse_save_field r)] else [].

(** The same reading, one token at a time: the characters of the text with
    the end-of-line mark after every line. *)
Fixpoint tokenize_from (nonempty : bool) (s : list N) : list token :=
  match s with
  | [] => if nonempty then [EOL] else []
  | c :: s' =>
      if c =? c_lf then Ch c :: EOL :: tokenize_from false s'
      else if c =? c_cr then
        match s' with
        | c' :: s'' =>
            if c' =? c_lf then Ch c :: Ch c' :: EOL :: tokenize_from false s''
            else Ch c :: EOL :: tokenize_from false s'
        | [] => [Ch c; EOL]
        end
      else Ch c :: tokenize_from true s'
  end.

Fixpoint run_tokens (r : Reader) (ts : list token)
    : option (list (list (list N))) :=
  match ts with
  | [] => Some (eof_records r)
  | t :: ts' =>
      match parse_process_char r t with
      | None => None
      | Some r' =>
          match t with
          | EOL =>
              if decide (state r' = START_RECORD)
              then cons (fields r') <$> run_tokens parse_reset ts'
              else run_tokens r' ts'
          | Ch _ => run_tokens r' ts'
          end
      end
  end.

(** *** One field at a time *)
Definition plain (c : N) : bool :=
  negb ((c =? c_comma) || (c =? c_quot) || (c =? c_cr) || (c =? c_lf)).

Definition double_quotes (f : list N) : list N :=
  flat_map (fun c => if c =? c_quot then [c_quot; c_quot] else [c]) f.

(** The reader once the text of a written field has gone by. *)
Definition after_field (st0 : ParserState) (f : list N) (fs : list (list N))
    : Reader :=
  if needs_quotes f then mkReader QUOTE_IN_QUOTED_FIELD f fs
  else match f with
       | [] => mkReader st0 [] fs
       | _ :: _ => mkReader IN_FIELD f fs
       end.

(** *** Stripping *)
(** Neither the first nor the last character is white space. *)
Definition no_outer_space (s : list N) : bool :=
  match s with
  | [] => true
  | c :: _ => negb (is_space c) && negb (is_space (List.last s c))
  end.

(** A row as the reader produces it. *)
Definition clean_row (row : CsvRow) : Prop :=
  path row <> []
  /\ no_outer_space (path row) = true
  /\ no_outer_space (text_to_play row) = true
  /\ N.of_nat (length (path row)) <= field_size_limit
  /\ N.of_nat (length (text_to_play row)) <= field_size_limit.

(** *** What the reader can return *)
Definition bounded (f : list N) : Prop :=
  N.of_nat (length f) <= field_size_limit.

Definition reader_inv (r : Reader) : Prop :=
  bounded (field r) /\ Forall bounded (fields r).

(** *** White space around fields *)
(** Two fields that differ only in the white space around them. *)
Definition same_modulo_space (a b : list N) : Prop := strip a = strip b.

Definition dict_rel (d1 d2 : gmap (list N) (option (list N))) : Prop :=
  forall k,
    match d1 !! k, d2 !! k with
    | None, None => True
    | Some None, Some None => True
    | Some (Some a), Some (Some b) => same_modulo_space a b
    | _, _ => False
    end.

(** A place where a file is or can be put: the directories on the way
    exist and the last component is absent or a file. *)
Definition file_slot (fs : gmap (list (list N)) node) (cur cs k : list (list N)) : Prop :=
  walk fs cur cs = Missing k
  \/ exists n, n <> Dir /\ walk fs cur cs = Found k n.

Definition dirs_kept (fs fs' : gmap (list (list N)) node) : Prop :=
  forall k, fs !! k = Some Dir -> fs' !! k = Some Dir.


(** ** The change detector *)
Definition new_row (last_map : gmap (list N) (list N)) (row : CsvRow) : bool :=
  bool_decide (last_map !! path row = None).

Definition changed_row (last_map : gmap (list N) (list N)) (row : CsvRow) : bool :=
  match last_map !! path row with
  | Some last_text => bool_decide (last_text <> text_to_play row)
  | None => false
  end.

Definition unchanged_row (last_map : gmap (list N) (list N)) (row : CsvRow) : bool :=
  match last_map !! path row with
  | Some last_text => bool_decide (last_text = text_to_play row)
  | None => false
  end.

(** The test the synthesis loop applies to a row's path. *)
Definition unsafe_path (p : Path) : bool :=
  (is_absolute p || bool_decide (lit ".." ∈ parts p))%bool.

Ltac munfold :=
  unfold mbind, M_bind, mret, M_ret, log_emit, raise in *.

Section Notions.
Context `{Env}.
Variable self : SynthesisWorker.

(** *** Rows read twice *)
Definition one_text_per_path (rows : list CsvRow) : Prop :=
  forall r1 r2, r1 ∈ rows -> r2 ∈ rows -> path r1 = path r2 ->
                text_to_play r1 = text_to_play r2.

(** ** Target selection *)
Definition target_of (changed_rows new_rows current_rows : list CsvRow)
    : list CsvRow :=
  match changed_rows, new_rows with
  | _ :: _, _ :: _ => changed_rows ++ new_rows
  | _ :: _, [] => changed_rows
  | [], _ :: _ => new_rows
  | [], [] => current_rows
  end.

Definition output_file_of (base_output : Path) (row : CsvRow) : Path :=
  path_join base_output (parse_path (replace (lit ":") (lit "_") (path row))).

(** ** The retry loop *)
(** Follows the spec's words: an attempt is a failure if the capability
    returns no result, or a non-success completion reason, or the written
    file is missing or smaller than 1024 bytes. *)
Definition attempt_failed (output_file : Path) (result : option ResultReason)
    (w : World) : bool :=
  match result with
  | None => true
  | Some reason =>
      if decide (reason = SynthesizingAudioCompleted)
      then (negb (path_exists w output_file)
            || (st_size w output_file <? 1024))%bool
      else true
  end.

(** The line logged after a failed attempt. *)
Definition failure_line (output_file : Path) (retry_count : nat)
    (result : option ResultReason) : list N :=
  match result with
  | None =>
      lit "Synthesis returned no result for " ++ path_str output_file
        ++ lit ". Retry count: " ++ str_of_nat retry_count
  | Some reason =>
      if decide (reason = SynthesizingAudioCompleted)
      then lit "File generated is invalid. Retrying..."
      else lit "Synthesis failed for " ++ path_str output_file
             ++ lit ". Retry count: " ++ str_of_nat retry_count
  end.


(** The output file is absent or an audio file, in an existing directory. *)
Definition audio_slot (w : World) (p : Path) (k : list (list N)) : Prop :=
  resolve w p = Missing k \/ exists n, resolve w p = Found k (Audio n).

(** [w'] differs from [w] by [n] calls for [p] and by what is at [k]. *)
Definition only_at (k : list (list N)) (call : list N * list N) (n : nat)
    (w w' : World) : Prop :=
  cwd w' = cwd w
  /\ (forall k', k' <> k -> fs w' !! k' = fs w !! k')
  /\ spoken w' = spoken w ++ replicate n call.


Definition ssml_of (row : CsvRow) : list N :=
  build_ssml lower (language_code self) (selected_region self)
    (short_name self) (text_to_play row) (style self) (speed self)
    (pre_silence self) (post_silence self).


End Notions.

(** * Further notions *)

(** What the reader makes of a row that was written: both fields stripped,
    and no row at all when the path is blank. *)
Definition as_read (row : CsvRow) : option CsvRow :=
  let path_value := strip (path row) in
  if str_eqb path_value [] then None
  else Some {| path := path_value; text_to_play := strip (text_to_play row) |}.

Section MoreNotions.
Context `{Env}.

(** Only the log distinguishes [w'] from [w]. *)
Definition same_but_log (w w' : World) : Prop :=
  fs w' = fs w /\ cwd w' = cwd w /\ tts w' = tts w /\ spoken w' = spoken w.

(** The file system of [w'] has lost entries of [w] at most: nothing is
    new, every directory is still there, and no call has been made. *)
Definition only_removed (w w' : World) : Prop :=
  fs w' ⊆ fs w /\ dirs_kept (fs w) (fs w')
  /\ cwd w' = cwd w /\ tts w' = tts w /\ spoken w' = spoken w.

(** Every entry of [w] is still there in [w'], directories as directories. *)
Definition grows (w w' : World) : Prop :=
  cwd w' = cwd w
  /\ forall k n, fs w !! k = Some n ->
       exists n', fs w' !! k = Some n' /\ (n = Dir -> n' = Dir).

(** How the retry loop ends for one file, after [n] calls out of [bound]:
    accepted, with the file in place, or given up after all the calls. *)
Definition loop_verdict (p : Path) (ssml : str) (failed_outputs : list str)
    (k : list str) (bound : nat) (w : World) (o : outcome (list str)) : Prop :=
  exists failed' w' n,
    o = Ok failed' w' /\ (1 <= n <= bound)%nat
    /\ only_at k (ssml, path_str p) n w w'
    /\ audio_slot w' p k
    /\ ((failed' = failed_outputs /\ path_exists w' p = true
         /\ 1024 <= st_size w' p)
        \/ (failed' = failed_outputs ++ [path_str p] /\ n = bound
            /\ path_exists w' p = false)).

(** A speech service that completes every call with a file of a kilobyte
    at least. *)
Definition service_completes : Prop :=
  forall (t : tts_state) (ssml file : str),
    exists t' n,
      speak_ssml t ssml file = (t', Some SynthesizingAudioCompleted, WriteFile n)
      /\ 1024 <= n.

(** The relative path the synthesis loop makes of a row's path. *)
Definition safe_relative_path_of (row : CsvRow) : Path :=
  parse_path (replace (lit ":") (lit "_") (path row)).

End MoreNotions.

(** ** The order [sorted] sorts by *)

(** A strict total order, as a boolean test. *)
Definition strict_total {A} (ltb : A -> A -> bool) : Prop :=
  (forall x, ltb x x = false)
  /\ (forall x y z, ltb x y = true -> ltb y z = true -> ltb x z = true)
  /\ (forall x y, ltb x y = false -> ltb y x = false -> x = y).

(** What a sort needs of the order: a strict weak order. *)
Definition strict_weak {A} (ltb : A -> A -> bool) : Prop :=
  (forall x, ltb x x = false)
  /\ (forall x y, ltb x y = true -> ltb y x = false)
  /\ (forall q y x, ltb q y = false -> ltb y x = false -> ltb q x = false).

(** ** Sample data *)

Definition row_hi : CsvRow := mkCsvRow (lit "a.wav") (lit "Hi").

Definition row_hello : CsvRow := mkCsvRow (lit "a.wav") (lit "Hello").


Definition csv_key : list (list N) := [lit "in"; lit "rows.csv"].

Definition snapshot_key : list (list N) :=
  [lit "app"; lit "data"; lit "lastCsvData.csv"].

Definition settings_key : list (list N) :=
  [lit "out"; lit "en"; lit "US"; lit "JennyNeural"; lit "settings.json"].

Definition audio_key : list (list N) :=
  [lit "out"; lit "en"; lit "US"; lit "JennyNeural"; lit "a.wav"].

Definition passwd_key : list (list N) := [lit "etc"; lit "passwd"].

(** The CSV file says Hello where the last run's snapshot says Hi. *)
Definition files_text_changed : gmap (list (list N)) node :=
  <[ csv_key := Text (write_rows_text [row_hello]) ]>
    (<[ snapshot_key := Text (write_rows_text [row_hi]) ]> sample_dirs).

(** The audio of the row is there already. *)
Definition files_with_audio : gmap (list (list N)) node :=
  <[ audio_key := Audio 2048 ]> sample_dirs.

(** A file outside the output root. *)
Definition files_with_passwd : gmap (list (list N)) node :=
  <[ passwd_key := Text (lit "root") ]> (<[ [lit "etc"] := Dir ]> sample_dirs).

Definition row_absolute : CsvRow := mkCsvRow (lit "/etc/passwd") (lit "new").

Definition row_dotdot : CsvRow :=
  mkCsvRow (lit "../../../../etc/passwd") (lit "new").

Definition csv_twice_a : list N :=
  writerow [lit "path"; lit "text to play"]
  ++ writerow [lit "a"; lit "x"] ++ writerow [lit "a"; lit "y"].

Definition csv_twice_a_padded : list N :=
  writerow [lit "path"; lit "text to play"]
  ++ writerow [lit " a "; lit "x "] ++ writerow [lit "a"; lit " y"].

Definition csv_plain : list N :=
  writerow [lit "path"; lit "text to play"]
  ++ writerow [lit "a"; lit "x"] ++ writerow [lit "b"; lit "y"].

Definition csv_padded : list N :=
  writerow [lit "path"; lit "text to play"]
  ++ writerow [lit " a "; lit "x "] ++ writerow [lit "b"; lit " y"].

Definition quoted_text : list N :=
  lit "Say " ++ [c_quot] ++ lit "hi" ++ [c_quot] ++ lit ", then stop".

Definition world_no_result (files : gmap (list (list N)) node) : @World env_no_result :=
  @world_with env_no_result tt files.

Definition world_completes (files : gmap (list (list N)) node) : @World env_completes :=
  @world_with env_completes tt files.

(** ** More sample data *)

(** The rows file with a header in capitals. *)
Definition csv_capital_header : list N :=
  writerow [lit "Path"; lit "text to play"] ++ writerow [lit "a"; lit "x"].

Definition sample_voices : list MainWindow.Voice :=
  [ MainWindow.mkVoice (lit "en-US") (lit "English (United States)")
      (lit "en-US-JennyNeural") [lit "chat"; lit "cheerful"];
    MainWindow.mkVoice (lit "en-GB") (lit "English (United Kingdom)")
      (lit "en-GB-RyanNeural") [];
    MainWindow.mkVoice (lit "de-DE") (lit "German (Germany)")
      (lit "de-DE-KatjaNeural") [] ].

(** A window with Jenny selected. *)
Definition sample_window : MainWindow.state := {|
  MainWindow.app_root := parse_path (lit "/app");
  MainWindow.voices := sample_voices;
  MainWindow.language_map := [(lit "en", lit "English"); (lit "de", lit "German")];
  MainWindow.cmb_language := lit "English";
  MainWindow.cmb_region := lit "US";
  MainWindow.cmb_voice := lit "JennyNeural" |}.

(** Two rows files, some notes and two logs in the application directory. *)
Definition files_of_app : gmap (list (list N)) node :=
  <[ [lit "app"; lit "in"; lit "b.csv"] := Text (write_rows_text [row_hi]) ]>
    (<[ [lit "app"; lit "in"; lit "a.CSV"] := Text (write_rows_text [row_hello]) ]>
       (<[ [lit "app"; lit "in"; lit "notes.txt"] := Text (lit "x") ]>
          (<[ [lit "app"; lit "in"] := Dir ]>
             (<[ [lit "app"; lit "log-1.txt"] := Text (lit "one") ]>
                (<[ [lit "app"; lit "log-old"] := Dir ]>
                   (<[ [lit "app"; lit "data"; lit "log-2.txt"]
                         := Text (lit "two") ]> sample_dirs)))))).

Definition worker_of_default : SynthesisWorker := {|
  app_root := parse_path (lit "/app");
  csv_file_path := parse_path (lit "/app/in/a.CSV");
  output_dir := parse_path (lit "/out");
  key := lit "key";
  region_value := lit "westeurope";
  language_code := lit "en";
  language_name := lit "English";
  selected_region := lit "US";
  short_name := lit "en-US-JennyNeural";
  style := lit "Default";
  speed := 1.0%float;
  post_silence := 0;
  pre_silence := 0 |}.

(** * Proofs *)

Lemma replace_one_char (c : N) (new s : list N) :
  replace [c] new s = flat_map (fun x => if c =? x then new else [x]) s.
Proof.
  unfold replace. induction s as [|x s IH]; [reflexivity|].
  cbn [replace_from starts_with flat_map length Nat.sub].
  rewrite andb_true_r. destruct (c =? x); cbn; now rewrite IH.
Qed.

Lemma flat_map_compose {A B C} (f : B -> list C) (g : A -> list B) (l : list A) :
  flat_map f (flat_map g l) = flat_map (fun x => flat_map f (g x)) l.
Proof.
  induction l as [|a l IH]; [reflexivity|].
  cbn. now rewrite flat_map_app, IH.
Qed.

Lemma escape_xml_text_flat_map (value : list N) :
  escape_xml_text value = flat_map escape_char value.
Proof.
  unfold escape_xml_text.
  change (lit "'") with [c_apos]. change (lit ">") with [c_gt].
  change (lit "<") with [c_lt]. change (lit "&") with [c_amp].
  rewrite !replace_one_char, !flat_map_compose.
  apply flat_map_ext. intros c. unfold escape_char.
  destruct (c =? c_amp) eqn:E1.
  { apply N.eqb_eq in E1. subst c. reflexivity. }
  destruct (c =? c_lt) eqn:E2.
  { apply N.eqb_eq in E2. subst c. reflexivity. }
  destruct (c =? c_gt) eqn:E3.
  { apply N.eqb_eq in E3. subst c. reflexivity. }
  destruct (c =? c_quot) eqn:E4.
  { apply N.eqb_eq in E4. subst c. reflexivity. }
  destruct (c =? c_apos) eqn:E5.
  { apply N.eqb_eq in E5. subst c. reflexivity. }
  rewrite N.eqb_sym in E1, E2, E3, E4, E5.
  cbn [flat_map app]. rewrite E1. cbn [flat_map app]. rewrite E2.
  cbn [flat_map app]. rewrite E3. cbn [flat_map app]. rewrite E4.
  cbn [flat_map app]. rewrite E5. reflexivity.
Qed.

Lemma escape_char_Escaped (c : N) (s : list N) :
  Escaped s -> Escaped (escape_char c ++ s).
Proof.
  intros Hs. unfold escape_char.
  destruct (c =? c_amp) eqn:E1;
    [apply Escaped_entity; [cbn; auto 10 | done]|].
  destruct (c =? c_lt) eqn:E2;
    [apply Escaped_entity; [cbn; auto 10 | done]|].
  destruct (c =? c_gt) eqn:E3;
    [apply Escaped_entity; [cbn; auto 10 | done]|].
  destruct (c =? c_quot) eqn:E4;
    [apply Escaped_entity; [cbn; auto 10 | done]|].
  destruct (c =? c_apos) eqn:E5;
    [apply Escaped_entity; [cbn; auto 10 | done]|].
  apply Escaped_plain; [|done]. unfold is_reserved. by rewrite E1, E2, E3, E4, E5.
Qed.

Lemma escape_char_no_raw (c : N) :
  Forall (fun x => is_raw_markup x = false) (escape_char c).
Proof.
  unfold escape_char.
  destruct (c =? c_amp) eqn:E1;
    [repeat apply Forall_cons_2; try apply Forall_nil_2; reflexivity|].
  destruct (c =? c_lt) eqn:E2;
    [repeat apply Forall_cons_2; try apply Forall_nil_2; reflexivity|].
  destruct (c =? c_gt) eqn:E3;
    [repeat apply Forall_cons_2; try apply Forall_nil_2; reflexivity|].
  destruct (c =? c_quot) eqn:E4;
    [repeat apply Forall_cons_2; try apply Forall_nil_2; reflexivity|].
  destruct (c =? c_apos) eqn:E5;
    [repeat apply Forall_cons_2; try apply Forall_nil_2; reflexivity|].
  apply Forall_cons_2; [|apply Forall_nil_2].
  unfold is_raw_markup. by rewrite E2, E3, E4, E5.
Qed.

Lemma flat_map_Escaped (text : list N) : Escaped (flat_map escape_char text).
Proof.
  induction text as [|c t IH]; [constructor|].
    cbn [flat_map]. by apply escape_char_Escaped.
Qed.

Lemma flat_map_no_raw (text : list N) : Forall (fun c => is_raw_markup c = false) (flat_map escape_char text).
Proof.
  induction text as [|c t IH]; [apply Forall_nil_2|].
    cbn [flat_map]. apply Forall_app. split; [apply escape_char_no_raw | exact IH].
Qed.

Lemma build_ssml_parts (lower : list N -> list N)
    (language_code region short_name text style : list N) (speed : float)
    (pre_silence post_silence : Z) :
  build_ssml lower language_code region short_name text style speed
    pre_silence post_silence
  = ssml_before lower language_code region short_name style speed pre_silence
    ++ escape_xml_text text ++ ssml_after lower style post_silence.
Proof.
  unfold build_ssml, ssml_before, ssml_after. cbn zeta.
  generalize (speed_multiplier_to_rate speed) (str_of_Z pre_silence)
    (str_of_Z post_silence) (escape_xml_text text) (lower style).
  intros rate pre post esc low.
  generalize (lit "<speak version='1.0' xmlns='http://www.w3.org/2001/10/synthesis' ")
    (lit "xmlns:mstts='https://www.w3.org/2001/mstts' ")
    (lit "xml:lang='") (lit "'>") (lit "<voice name='")
    (lit "<mstts:express-as style='") (lit "' styledegree='2'>")
    (lit "<lang xml:lang='") (lit "<prosody rate='")
    (lit "<mstts:silence type='Leading-exact' value='") (lit "ms'/>")
    (lit "<mstts:silence type='Trailing-exact' value='")
    (lit "</prosody>") (lit "</lang>") (lit "</mstts:express-as>")
    (lit "</voice>") (lit "</speak>") (lit "-").
  intros. destruct (str_eqb low (lit "default"));
    rewrite <- ?List.app_assoc; reflexivity.
Qed.

(** C7.  [escape_xml_text] rewrites its argument character by character:
    each of the five reserved characters becomes its entity and every other
    character stays, which is what replacing the ampersand first makes of
    the five chained replacements.  The result is a sequence of unreserved
    characters and whole entities, so it holds no raw less-than, greater-than,
    double-quote or apostrophe character and an ampersand only at the head
    of an entity; [build_ssml] puts exactly this escaped text between the
    markup before and the markup after it. *)
Theorem build_ssml_escapes_text (text : list N) :
  escape_xml_text text = flat_map escape_char text
  /\ Escaped (escape_xml_text text)
  /\ Forall (fun c => is_raw_markup c = false) (escape_xml_text text)
  /\ forall (lower : list N -> list N) (language_code region short_name style : list N)
       (speed : float) (pre_silence post_silence : Z),
      build_ssml lower language_code region short_name text style speed
        pre_silence post_silence
      = ssml_before lower language_code region short_name style speed pre_silence
        ++ escape_xml_text text ++ ssml_after lower style post_silence.
Proof.
  split; [apply escape_xml_text_flat_map|].
  split; [rewrite escape_xml_text_flat_map; apply flat_map_Escaped|].
  split; [rewrite escape_xml_text_flat_map; apply flat_map_no_raw|].
  intros. apply build_ssml_parts.
Qed.

Lemma uint_chars_digits (d : Decimal.uint) :
  Forall (fun c => is_digit c = true) (lit (NilEmpty.string_of_uint d)).
Proof. induction d; repeat constructor; assumption. Qed.

Lemma uint_chars_value_acc (d : Decimal.uint) (acc : positive) :
  foldl (fun a c => a * 10 + (c - 48)) (Npos acc) (lit (NilEmpty.string_of_uint d))
  = Npos (Pos.of_uint_acc d acc).
Proof.
  revert acc. induction d; intros acc; [reflexivity|..];
    cbn [NilEmpty.string_of_uint lit String.list_ascii_of_string map foldl
         Pos.of_uint_acc];
    match goal with
    | |- foldl _ ?x _ = _ =>
        match goal with
        | |- _ = N.pos (Pos.of_uint_acc _ ?p) =>
            replace x with (N.pos p) by (cbn; lia)
        end
    end; apply IHd.
Qed.

Lemma uint_chars_value (d : Decimal.uint) :
  digits_value (lit (NilEmpty.string_of_uint d)) = Pos.of_uint d.
Proof.
  unfold digits_value. induction d; [reflexivity| |..];
    cbn [NilEmpty.string_of_uint lit String.list_ascii_of_string map foldl
         Pos.of_uint];
    [exact IHd|..]; apply (uint_chars_value_acc d).
Qed.

Lemma str_of_N_uint (n : N) :
  str_of_N n = lit (NilEmpty.string_of_uint (N.to_uint n)).
Proof.
  unfold str_of_N, str_of_Z. destruct n as [|p]; [reflexivity|].
  cbn [Z.of_N Z.to_int NilZero.string_of_int N.to_uint].
  unfold NilZero.string_of_uint.
  pose proof (Unsigned.to_uint_nonnil p) as Hp.
  destruct (Pos.to_uint p); [congruence|reflexivity..].
Qed.

Lemma str_of_N_digits (n : N) :
  str_of_N n <> []
  /\ Forall (fun c => is_digit c = true) (str_of_N n)
  /\ digits_value (str_of_N n) = n.
Proof.
  rewrite str_of_N_uint. split; [|split].
  - destruct n as [|p]; [discriminate|]. cbn [N.to_uint].
    pose proof (Unsigned.to_uint_nonnil p) as Hp.
    destruct (Pos.to_uint p); [congruence|discriminate..].
  - apply uint_chars_digits.
  - rewrite uint_chars_value. apply (DecimalN.Unsigned.of_to n).
Qed.

Lemma two_digits_spec (n : N) :
  n < 100 -> two_digits n = [48 + n / 10; 48 + n mod 10].
Proof.
  intros Hn.
  assert (Hall : forallb (fun k => bool_decide
             (two_digits k = [48 + k / 10; 48 + k mod 10]))
            (map N.of_nat (seq 0 100)) = true) by (vm_compute; reflexivity).
  rewrite forallb_forall in Hall.
  specialize (Hall n). rewrite bool_decide_eq_true in Hall. apply Hall.
  apply in_map_iff. exists (N.to_nat n). split; [lia|].
  apply in_seq. lia.
Qed.

Lemma round_half_even_nearest (n d : N) :
  0 < d -> let q := round_half_even n d in
  2 * (q * d) <= 2 * n + d /\ 2 * n <= 2 * (q * d) + d.
Proof.
  intros Hd. unfold round_half_even. cbn zeta.
  pose proof (N.div_mod n d ltac:(lia)) as Hdm.
  pose proof (N.mod_lt n d ltac:(lia)) as Hlt.
  set (q := n / d) in *. set (r := n mod d) in *.
  destruct (2 * r <? d) eqn:E1.
  { apply N.ltb_lt in E1. nia. }
  apply N.ltb_ge in E1.
  destruct (d <? 2 * r) eqn:E2.
  { apply N.ltb_lt in E2. nia. }
  apply N.ltb_ge in E2.
  destruct (N.even q); nia.
Qed.

Lemma rate_of_finite_percentage (speed : float) :
  let percentage := ((speed - 1.0) * 100.0)%float in
  is_finite percentage = true ->
  exists int_part frac : list N,
    speed_multiplier_to_rate speed
      = sign_str (sign_bit percentage) ++ int_part ++ lit "." ++ frac ++ lit "%"
    /\ int_part <> [] /\ Forall (fun c => is_digit c = true) int_part
    /\ length frac = 2%nat /\ Forall (fun c => is_digit c = true) frac
    /\ digits_value int_part * 100 + digits_value frac
       = magnitude_hundredths percentage.
Proof.
  intros percentage Hfin.
  unfold speed_multiplier_to_rate. fold percentage.
  unfold format_plus_2f, is_finite, sign_bit, magnitude_hundredths in *.
  destruct (Prim2SF percentage) as [s|s| |s m e]; try discriminate.
  - exists (lit "0"), (lit "00").
    rewrite <- !List.app_assoc. repeat split; try reflexivity; try discriminate;
      repeat constructor.
  - set (h := hundredths m e).
    pose proof (str_of_N_digits (h / 100)) as (Hne & Hdig & Hval).
    pose proof (N.mod_lt h 100 ltac:(lia)) as Hlt.
    exists (str_of_N (h / 100)), (two_digits (h mod 100)).
    rewrite (two_digits_spec _ Hlt).
    pose proof (N.mod_lt (h mod 100) 10 ltac:(lia)) as Hlt1.
    assert (h mod 100 / 10 < 10) as Hlt2
      by (apply N.Div0.div_lt_upper_bound; lia).
    rewrite <- !List.app_assoc. repeat split; try assumption; try reflexivity.
    + repeat apply Forall_cons_2; [| |apply Forall_nil_2]; unfold is_digit;
        apply andb_true_iff; split; apply N.leb_le;
        generalize dependent (h `mod` 100 / 10);
        generalize dependent ((h `mod` 100) `mod` 10); intros; lia.
    + rewrite Hval. unfold digits_value. cbn [foldl].
      pose proof (N.div_mod h 100 ltac:(lia)).
      pose proof (N.div_mod (h mod 100) 10 ltac:(lia)).
      clear Hdig Hne Hval.
      generalize dependent ((h `mod` 100) `div` 10).
      generalize dependent ((h `mod` 100) `mod` 10).
      generalize dependent (h `mod` 100). generalize dependent (h `div` 100).
      clearbody h. intros. lia.
Qed.

Lemma rate_examples :
  speed_multiplier_to_rate 1.0 = lit "+0.00%"
  /\ speed_multiplier_to_rate 1.25 = lit "+25.00%"
  /\ speed_multiplier_to_rate 0.75 = lit "-25.00%"
  /\ speed_multiplier_to_rate 0x1.ccccccccccccdp-1 = lit "-10.00%".
Proof. repeat split; vm_compute; reflexivity. Qed.

(** C9 (as amended).  When [(speed - 1.0) * 100.0] is finite,
    [speed_multiplier_to_rate speed] is a sign (minus for a negative value,
    plus otherwise), a non-empty string of digits, a point, exactly two
    digits and a percent sign, and the digits are the magnitude of the
    product in hundredths, rounded to nearest with ties to even.  The
    multipliers 1.0, 1.25, 0.75 and 0.9 (the binary64 value the literal
    denotes, written in hexadecimal below) give +0.00%, +25.00%, -25.00%
    and -10.00%. *)
Theorem rate_has_sign_and_two_decimals :
  (forall speed : float,
     let percentage := ((speed - 1.0) * 100.0)%float in
     is_finite percentage = true ->
     exists int_part frac : list N,
       speed_multiplier_to_rate speed
         = sign_str (sign_bit percentage) ++ int_part ++ lit "." ++ frac ++ lit "%"
       /\ int_part <> [] /\ Forall (fun c => is_digit c = true) int_part
       /\ length frac = 2%nat /\ Forall (fun c => is_digit c = true) frac
       /\ digits_value int_part * 100 + digits_value frac
          = magnitude_hundredths percentage)
  /\ speed_multiplier_to_rate 1.0 = lit "+0.00%"
  /\ speed_multiplier_to_rate 1.25 = lit "+25.00%"
  /\ speed_multiplier_to_rate 0.75 = lit "-25.00%"
  /\ speed_multiplier_to_rate 0x1.ccccccccccccdp-1 = lit "-10.00%".
Proof. split; [exact rate_of_finite_percentage | exact rate_examples]. Qed.

Lemma feed_app (r : Reader) (a b : list token) :
  feed r (a ++ b) = feed r a ≫= fun r' => feed r' b.
Proof.
  revert r. induction a as [|t a IH]; intros r; [reflexivity|].
  cbn. destruct (parse_process_char r t); [apply IH | reflexivity].
Qed.

Lemma reader_records_nil (r : Reader) :
  reader_records r [] = Some (eof_records r).
Proof. unfold eof_records. cbn. by destruct (_ || _)%bool. Qed.

Lemma reader_records_cons (r r' : Reader) (line : list N) (rest : list (list N)) :
  feed r (map Ch line ++ [EOL]) = Some r' ->
  reader_records r (line :: rest)
  = if decide (state r' = START_RECORD)
    then cons (fields r') <$> reader_records parse_reset rest
    else reader_records r' rest.
Proof. intros Hf. cbn. unfold feed_line. by rewrite Hf. Qed.

Lemma feed_snoc (r0 r r' : Reader) (ts : list token) (t : token) :
  feed r0 ts = Some r -> parse_process_char r t = Some r' ->
  feed r0 (ts ++ [t]) = Some r'.
Proof. intros H1 H2. rewrite feed_app, H1. cbn. by rewrite H2. Qed.

Lemma run_tokens_lines (s : list N) :
  forall (cur : list N) (r0 r : Reader) (recs : list (list (list N))),
    feed r0 (map Ch (rev cur)) = Some r ->
    run_tokens r (tokenize_from (bool_decide (cur <> [])) s) = Some recs ->
    reader_records r0 (lines_from cur s) = Some recs.
Proof.
  induction s as [s IH] using (induction_ltof1 _ (@length _)).
  unfold ltof in IH.
  intros cur r0 r recs Hfeed Hrun.
  destruct s as [|c s'].
  - destruct cur as [|x cur].
    + cbn in Hfeed, Hrun. injection Hfeed as <-.
      cbn [lines_from]. rewrite reader_records_nil. done.
    + rewrite bool_decide_eq_true_2 in Hrun by done.
      cbn [tokenize_from run_tokens] in Hrun. cbn [lines_from].
      destruct (parse_process_char r EOL) as [r'|] eqn:E; [|done].
      rewrite (reader_records_cons _ r'); [|by eapply feed_snoc].
      rewrite !reader_records_nil.
      destruct (decide (state r' = START_RECORD)); done.
  - cbn [tokenize_from lines_from] in *.
    destruct (c =? c_lf) eqn:Elf.
    { cbn [run_tokens] in Hrun.
      destruct (parse_process_char r (Ch c)) as [r1|] eqn:E1; [|done].
      destruct (parse_process_char r1 EOL) as [r2|] eqn:E2; [|done].
      rewrite (reader_records_cons _ r2).
      2:{ cbn [rev]; rewrite map_app. cbn [map].
          rewrite <- List.app_assoc. rewrite feed_app, Hfeed. cbn. by rewrite E1, E2. }
      destruct (decide (state r2 = START_RECORD)).
      - destruct (run_tokens parse_reset _) as [recs'|] eqn:E3; [|done].
        rewrite (IH s' ltac:(cbn; lia) [] parse_reset parse_reset recs'); done.
      - by apply (IH s' ltac:(cbn; lia) [] r2 r2). }
    destruct (c =? c_cr) eqn:Ecr.
    { destruct s' as [|c' s''].
      - cbn [run_tokens] in Hrun.
        destruct (parse_process_char r (Ch c)) as [r1|] eqn:E1; [|done].
        destruct (parse_process_char r1 EOL) as [r2|] eqn:E2; [|done].
        rewrite (reader_records_cons _ r2).
        2:{ cbn [rev]; rewrite map_app. cbn [map].
            rewrite <- List.app_assoc. rewrite feed_app, Hfeed. cbn. by rewrite E1, E2. }
        rewrite !reader_records_nil. done.
      - destruct (c' =? c_lf) eqn:Elf'.
        + cbn [run_tokens] in Hrun.
          destruct (parse_process_char r (Ch c)) as [r1|] eqn:E1; [|done].
          destruct (parse_process_char r1 (Ch c')) as [r1'|] eqn:E1'; [|done].
          destruct (parse_process_char r1' EOL) as [r2|] eqn:E2; [|done].
          rewrite (reader_records_cons _ r2).
          2:{ cbn [rev]; rewrite !map_app. cbn [map].
              rewrite <- !List.app_assoc. rewrite feed_app, Hfeed. cbn.
              by rewrite E1, E1', E2. }
          destruct (decide (state r2 = START_RECORD)).
          * destruct (run_tokens parse_reset _) as [recs'|] eqn:E3; [|done].
            rewrite (IH s'' ltac:(cbn; lia) [] parse_reset parse_reset recs'); done.
          * by apply (IH s'' ltac:(cbn; lia) [] r2 r2).
        + cbn [run_tokens] in Hrun.
          destruct (parse_process_char r (Ch c)) as [r1|] eqn:E1; [|done].
          destruct (parse_process_char r1 EOL) as [r2|] eqn:E2; [|done].
          rewrite (reader_records_cons _ r2).
          2:{ cbn [rev]; rewrite map_app. cbn [map].
              rewrite <- List.app_assoc. rewrite feed_app, Hfeed. cbn. by rewrite E1, E2. }
          destruct (decide (state r2 = START_RECORD)).
          * destruct (run_tokens parse_reset _) as [recs'|] eqn:E3; [|done].
            rewrite (IH (c' :: s'') ltac:(cbn; lia) [] parse_reset parse_reset recs'); done.
          * by apply (IH (c' :: s'') ltac:(cbn; lia) [] r2 r2). }
    cbn [run_tokens] in Hrun.
    destruct (parse_process_char r (Ch c)) as [r1|] eqn:E1; [|done].
    apply (IH s' ltac:(cbn; lia) (c :: cur) r0 r1).
    + cbn [rev]; rewrite map_app. cbn [map]. by eapply feed_snoc.
    + by rewrite bool_decide_eq_true_2.
Qed.

Lemma needs_quotes_false (f : list N) :
  needs_quotes f = false <-> Forall (fun c => plain c = true) f.
Proof.
  unfold needs_quotes, plain. induction f as [|c f IH]; cbn.
  - split; [constructor|done].
  - rewrite orb_false_iff, IH, Forall_cons, negb_true_iff. done.
Qed.

Lemma parse_add_char_ok (st : ParserState) (b : list N) (fs : list (list N)) (c : N) :
  N.of_nat (length b) < field_size_limit ->
  parse_add_char (mkReader st b fs) c = Some (mkReader st (b ++ [c]) fs).
Proof.
  intros Hlen. unfold parse_add_char. cbn [field state fields].
  destruct (field_size_limit <=? _) eqn:E; [|done].
  apply N.leb_le in E. lia.
Qed.

Lemma plain_cases (c : N) :
  plain c = true ->
  (c =? c_comma) = false /\ (c =? c_quot) = false /\ (c =? c_cr) = false
  /\ (c =? c_lf) = false.
Proof.
  unfold plain. rewrite negb_true_iff, !orb_false_iff. tauto.
Qed.

Lemma step_quoted_plain (b : list N) (fs : list (list N)) (c : N) :
  (c =? c_quot) = false -> N.of_nat (length b) < field_size_limit ->
  parse_process_char (mkReader IN_QUOTED_FIELD b fs) (Ch c)
  = Some (mkReader IN_QUOTED_FIELD (b ++ [c]) fs).
Proof.
  intros Hq Hlen. unfold parse_process_char. cbn [state]. rewrite Hq.
  by apply parse_add_char_ok.
Qed.

Lemma step_quote_quote (b : list N) (fs : list (list N)) :
  N.of_nat (length b) < field_size_limit ->
  parse_process_char (mkReader QUOTE_IN_QUOTED_FIELD b fs) (Ch c_quot)
  = Some (mkReader IN_QUOTED_FIELD (b ++ [c_quot]) fs).
Proof.
  intros Hlen. unfold parse_process_char. cbn [state]. rewrite N.eqb_refl.
  by rewrite parse_add_char_ok.
Qed.

Lemma step_plain_start (st : ParserState) (fs : list (list N)) (c : N) :
  st = START_RECORD \/ st = START_FIELD -> plain c = true ->
  parse_process_char (mkReader st [] fs) (Ch c) = Some (mkReader IN_FIELD [c] fs).
Proof.
  intros Hst (Hc & Hq & Hcr & Hlf)%plain_cases.
  unfold parse_process_char, is_newline.
  destruct Hst as [-> | ->]; cbn [state];
    rewrite ?Hc, ?Hq, ?Hcr, ?Hlf; cbn [orb];
    unfold set_state; cbn [state field fields];
    rewrite ?Hc, ?Hq, ?Hcr, ?Hlf; cbn [orb];
    rewrite parse_add_char_ok by (cbn; unfold field_size_limit; lia); done.
Qed.

Lemma step_plain_in_field (b : list N) (fs : list (list N)) (c : N) :
  plain c = true -> N.of_nat (length b) < field_size_limit ->
  parse_process_char (mkReader IN_FIELD b fs) (Ch c)
  = Some (mkReader IN_FIELD (b ++ [c]) fs).
Proof.
  intros (Hc & Hq & Hcr & Hlf)%plain_cases Hlen.
  unfold parse_process_char, is_newline. cbn [state].
  rewrite Hc, Hcr, Hlf. cbn [orb]. by apply parse_add_char_ok.
Qed.

Lemma tokenize_plain (nb : bool) (c : N) (s : list N) :
  (c =? c_lf) = false -> (c =? c_cr) = false ->
  tokenize_from nb (c :: s) = Ch c :: tokenize_from true s.
Proof. intros H1 H2. cbn [tokenize_from]. by rewrite H1, H2. Qed.

Lemma tokenize_lf (nb : bool) (s : list N) :
  tokenize_from nb (c_lf :: s) = Ch c_lf :: EOL :: tokenize_from false s.
Proof. reflexivity. Qed.

Lemma tokenize_cr_lf (nb : bool) (s : list N) :
  tokenize_from nb (c_cr :: c_lf :: s)
  = Ch c_cr :: Ch c_lf :: EOL :: tokenize_from false s.
Proof. reflexivity. Qed.

Lemma tokenize_cr_other (nb : bool) (c : N) (s : list N) :
  (c =? c_lf) = false ->
  tokenize_from nb (c_cr :: c :: s)
  = Ch c_cr :: EOL :: tokenize_from false (c :: s).
Proof. intros H1. cbn [tokenize_from]. cbn [c_cr c_lf N.eqb Pos.eqb]. fold c_lf. by rewrite H1. Qed.

Lemma step_quoted_eol (b : list N) (fs : list (list N)) :
  parse_process_char (mkReader IN_QUOTED_FIELD b fs) EOL
  = Some (mkReader IN_QUOTED_FIELD b fs).
Proof. reflexivity. Qed.

Lemma step_quoted_quote (b : list N) (fs : list (list N)) :
  parse_process_char (mkReader IN_QUOTED_FIELD b fs) (Ch c_quot)
  = Some (mkReader QUOTE_IN_QUOTED_FIELD b fs).
Proof. reflexivity. Qed.

Lemma run_tokens_ch (r r' : Reader) (c : N) (ts : list token) :
  parse_process_char r (Ch c) = Some r' ->
  run_tokens r (Ch c :: ts) = run_tokens r' ts.
Proof. intros Hs. cbn [run_tokens]. by rewrite Hs. Qed.

Lemma run_tokens_eol_quoted (b : list N) (fs : list (list N)) (ts : list token) :
  run_tokens (mkReader IN_QUOTED_FIELD b fs) (EOL :: ts)
  = run_tokens (mkReader IN_QUOTED_FIELD b fs) ts.
Proof. reflexivity. Qed.

Lemma double_quotes_cons (c : N) (f : list N) :
  double_quotes (c :: f)
  = (if c =? c_quot then [c_quot; c_quot] else [c]) ++ double_quotes f.
Proof. reflexivity. Qed.

Lemma quoted_body (f : list N) :
  forall (b : list N) (fs : list (list N)) (nb : bool) (tail : list N),
    N.of_nat (length b + length f) <= field_size_limit ->
    run_tokens (mkReader IN_QUOTED_FIELD b fs)
      (tokenize_from nb (double_quotes f ++ c_quot :: tail))
    = run_tokens (mkReader QUOTE_IN_QUOTED_FIELD (b ++ f) fs)
        (tokenize_from true tail).
Proof.
  induction f as [f IH] using (induction_ltof1 _ (@length _)).
  unfold ltof in IH. intros b fs nb tail Hlen.
  destruct f as [|c f'].
  { rewrite app_nil_r. reflexivity. }
  cbn [length] in Hlen.
  assert (Hb : N.of_nat (length b) < field_size_limit) by lia.
  rewrite double_quotes_cons.
  destruct (c =? c_quot) eqn:Eq.
  { apply N.eqb_eq in Eq. subst c. cbn [app].
    rewrite !tokenize_plain by reflexivity.
    rewrite (run_tokens_ch _ _ _ _ (step_quoted_quote b fs)).
    rewrite (run_tokens_ch _ _ _ _ (step_quote_quote b fs Hb)).
    rewrite (IH f') by (cbn; rewrite ?length_app; cbn; lia).
    by rewrite <- List.app_assoc. }
  cbn [app].
  destruct (c =? c_lf) eqn:Elf.
  { apply N.eqb_eq in Elf. subst c. rewrite tokenize_lf.
    rewrite (run_tokens_ch _ _ _ _ (step_quoted_plain b fs _ Eq Hb)).
    rewrite run_tokens_eol_quoted.
    rewrite (IH f') by (cbn; rewrite ?length_app; cbn; lia).
    by rewrite <- List.app_assoc. }
  destruct (c =? c_cr) eqn:Ecr.
  2:{ rewrite tokenize_plain by done.
      rewrite (run_tokens_ch _ _ _ _ (step_quoted_plain b fs _ Eq Hb)).
      rewrite (IH f') by (cbn; rewrite ?length_app; cbn; lia).
      by rewrite <- List.app_assoc. }
  apply N.eqb_eq in Ecr. subst c.
  destruct f' as [|c' f''].
  { cbn [double_quotes flat_map app].
    rewrite tokenize_cr_other by reflexivity.
    rewrite (run_tokens_ch _ _ _ _ (step_quoted_plain b fs _ Eq Hb)).
    rewrite run_tokens_eol_quoted.
    pose proof (IH [] ltac:(cbn; lia) (b ++ [c_cr]) fs false tail) as IH0.
    rewrite app_nil_r in IH0. apply IH0.
    rewrite length_app. cbn. lia. }
  cbn [length] in Hlen.
  destruct (c' =? c_lf) eqn:Elf'.
  { apply N.eqb_eq in Elf'. subst c'.
    rewrite double_quotes_cons. cbn [app c_lf c_quot N.eqb Pos.eqb].
    fold c_lf. rewrite tokenize_cr_lf.
    rewrite (run_tokens_ch _ _ _ _ (step_quoted_plain b fs _ Eq Hb)).
    rewrite (run_tokens_ch _ _ _ _
               (step_quoted_plain (b ++ [c_cr]) fs c_lf eq_refl
                  ltac:(rewrite length_app; cbn; lia))).
    rewrite run_tokens_eol_quoted.
    rewrite (IH f'') by (cbn; rewrite ?length_app; cbn; lia).
    by rewrite <- !List.app_assoc. }
  assert (exists x rest, double_quotes (c' :: f'') = x :: rest
                                 /\ (x =? c_lf) = false) as (x & rest & Hdq & Hx).
  { rewrite double_quotes_cons. destruct (c' =? c_quot); cbn [app]; eauto. }
  rewrite Hdq. cbn [app]. rewrite tokenize_cr_other by done.
  rewrite (run_tokens_ch _ _ _ _ (step_quoted_plain b fs _ Eq Hb)).
  rewrite run_tokens_eol_quoted.
  change (x :: rest ++ c_quot :: tail) with ((x :: rest) ++ c_quot :: tail).
  rewrite <- Hdq.
  rewrite (IH (c' :: f'')) by (cbn; rewrite ?length_app; cbn; lia).
  by rewrite <- List.app_assoc.
Qed.

Lemma plain_body (f : list N) :
  forall (b : list N) (fs : list (list N)) (nb : bool) (tail : list N),
    Forall (fun c => plain c = true) f ->
    N.of_nat (length b + length f) <= field_size_limit ->
    exists nb',
      run_tokens (mkReader IN_FIELD b fs) (tokenize_from nb (f ++ tail))
      = run_tokens (mkReader IN_FIELD (b ++ f) fs) (tokenize_from nb' tail).
Proof.
  induction f as [|c f IH]; intros b fs nb tail Hplain Hlen.
  { exists nb. by rewrite app_nil_r. }
  apply Forall_cons in Hplain as [Hc Hf]. cbn [length] in Hlen.
  pose proof (plain_cases c Hc) as (_ & _ & Hcr & Hlf).
  destruct (IH (b ++ [c]) fs true tail Hf) as [nb' IH'].
  { rewrite length_app. cbn. lia. }
  exists nb'. cbn [app]. rewrite tokenize_plain by done.
  rewrite (run_tokens_ch _ _ _ _ (step_plain_in_field b fs c Hc ltac:(lia))).
  rewrite IH'. by rewrite <- List.app_assoc.
Qed.

Lemma step_open_quote (st0 : ParserState) (fs : list (list N)) :
  st0 = START_RECORD \/ st0 = START_FIELD ->
  parse_process_char (mkReader st0 [] fs) (Ch c_quot)
  = Some (mkReader IN_QUOTED_FIELD [] fs).
Proof. intros [-> | ->]; reflexivity. Qed.

Lemma field_content (st0 : ParserState) (f : list N) (fs : list (list N))
    (nb : bool) (tail : list N) :
  st0 = START_RECORD \/ st0 = START_FIELD ->
  N.of_nat (length f) <= field_size_limit ->
  exists nb',
    run_tokens (mkReader st0 [] fs) (tokenize_from nb (write_field f ++ tail))
    = run_tokens (after_field st0 f fs) (tokenize_from nb' tail).
Proof.
  intros Hst Hlen. unfold write_field, after_field.
  destruct (needs_quotes f) eqn:Hq.
  - exists true. cbn [app]. rewrite tokenize_plain by reflexivity.
    rewrite (run_tokens_ch _ _ _ _ (step_open_quote st0 fs Hst)).
    fold (double_quotes f). rewrite <- List.app_assoc. cbn [app].
    by rewrite quoted_body.
  - apply needs_quotes_false in Hq. destruct f as [|c f].
    { by exists nb. }
    apply Forall_cons in Hq as [Hc Hf]. cbn [length] in Hlen.
    pose proof (plain_cases c Hc) as (_ & _ & Hcr & Hlf).
    destruct (plain_body f [c] fs true tail Hf) as [nb' Hbody].
    { cbn [length]. lia. }
    exists nb'. cbn [app]. rewrite tokenize_plain by done.
    rewrite (run_tokens_ch _ _ _ _ (step_plain_start st0 fs c Hst Hc)).
    exact Hbody.
Qed.

Lemma after_field_comma (st0 : ParserState) (f : list N) (fs : list (list N)) :
  st0 = START_RECORD \/ st0 = START_FIELD ->
  parse_process_char (after_field st0 f fs) (Ch c_comma)
  = Some (mkReader START_FIELD [] (fs ++ [f])).
Proof.
  intros Hst. unfold after_field. destruct (needs_quotes f); [reflexivity|].
  destruct f; [|reflexivity]. destruct Hst as [-> | ->]; reflexivity.
Qed.

Lemma after_field_end (f : list N) (fs : list (list N)) (ts : list token) :
  run_tokens (after_field START_FIELD f fs) (Ch c_cr :: Ch c_lf :: EOL :: ts)
  = cons (fs ++ [f]) <$> run_tokens parse_reset ts.
Proof.
  unfold after_field. destruct (needs_quotes f); [reflexivity|].
  destruct f; reflexivity.
Qed.

Lemma writerow_two (f1 f2 : list N) :
  writerow [f1; f2]
  = write_field f1 ++ c_comma :: write_field f2 ++ [c_cr; c_lf].
Proof.
  unfold writerow. destruct f1; cbn [map join app]; by rewrite <- ?List.app_assoc.
Qed.

Lemma record_tokens (f1 f2 rest : list N) :
  N.of_nat (length f1) <= field_size_limit ->
  N.of_nat (length f2) <= field_size_limit ->
  run_tokens parse_reset (tokenize_from false (writerow [f1; f2] ++ rest))
  = cons [f1; f2] <$> run_tokens parse_reset (tokenize_from false rest).
Proof.
  intros H1 H2. rewrite writerow_two, <- List.app_assoc. cbn [app].
  destruct (field_content START_RECORD f1 [] false
              (c_comma :: write_field f2 ++ [c_cr; c_lf] ++ rest)
              (or_introl eq_refl) H1) as [nb1 E1].
  rewrite <- List.app_assoc. unfold parse_reset. rewrite E1.
  rewrite tokenize_plain by reflexivity.
  rewrite (run_tokens_ch _ _ _ _
             (after_field_comma START_RECORD f1 [] (or_introl eq_refl))).
  destruct (field_content START_FIELD f2 [f1] true ([c_cr; c_lf] ++ rest)
              (or_intror eq_refl) H2) as [nb2 E2].
  cbn [app] in *. rewrite E2, tokenize_cr_lf. apply after_field_end.
Qed.

(** The records a written snapshot holds. *)
Lemma csv_reader_written (rows : list CsvRow) :
  Forall (fun row => N.of_nat (length (path row)) <= field_size_limit
                     /\ N.of_nat (length (text_to_play row)) <= field_size_limit)
    rows ->
  csv_reader (write_rows_text rows)
  = Some ([lit "path"; lit "text to play"]
          :: map (fun row => [path row; text_to_play row]) rows).
Proof.
  intros Hrows. unfold csv_reader, file_lines.
  apply (run_tokens_lines _ [] parse_reset parse_reset); [reflexivity|].
  rewrite bool_decide_eq_false_2 by (intros ?; done).
  unfold write_rows_text.
  rewrite record_tokens by (vm_compute; discriminate).
  assert (run_tokens parse_reset
            (tokenize_from false
               (flat_map (fun row => writerow [path row; text_to_play row]) rows))
          = Some (map (fun row => [path row; text_to_play row]) rows)) as ->;
    [|reflexivity].
  induction Hrows as [|row rows [Hp Ht] _ IH]; [reflexivity|].
  cbn [flat_map map]. rewrite record_tokens by done. by rewrite IH.
Qed.

Lemma lstrip_head (s : list N) :
  match lstrip s with [] => True | c :: _ => is_space c = false end.
Proof.
  induction s as [|c s IH]; [done|]. cbn [lstrip].
  destruct (is_space c) eqn:E; done.
Qed.

Lemma lstrip_nonspace (c : N) (s : list N) :
  is_space c = false -> lstrip (c :: s) = c :: s.
Proof. intros E. cbn [lstrip]. by rewrite E. Qed.

Lemma lstrip_snoc (l : list N) (x : N) :
  is_space x = false -> lstrip (l ++ [x]) = lstrip l ++ [x].
Proof.
  intros Hx. induction l as [|c l IH]; cbn [app lstrip].
  - by rewrite Hx.
  - destruct (is_space c); done.
Qed.

Lemma lstrip_length (s : list N) : (length (lstrip s) <= length s)%nat.
Proof.
  induction s as [|c s IH]; [done|]. cbn [lstrip].
  destruct (is_space c); cbn; lia.
Qed.

Lemma strip_length (s : list N) : (length (strip s) <= length s)%nat.
Proof.
  unfold strip, rstrip.
  pose proof (lstrip_length (rev (lstrip (rev s)))) as H1.
  pose proof (lstrip_length (rev s)) as H2.
  rewrite length_rev in *. lia.
Qed.

Lemma rstrip_last (s : list N) :
  rstrip s = [] \/ exists l x, rstrip s = l ++ [x] /\ is_space x = false.
Proof.
  unfold rstrip. pose proof (lstrip_head (rev s)) as Hh.
  destruct (lstrip (rev s)) as [|c t]; [by left|].
  right. exists (rev t), c. done.
Qed.

Lemma strip_no_outer_space (s : list N) : no_outer_space (strip s) = true.
Proof.
  unfold strip. destruct (rstrip_last s) as [-> | (l & x & -> & Hx)]; [done|].
  rewrite lstrip_snoc by done.
  pose proof (lstrip_head l) as Hh.
  destruct (lstrip l) as [|c t] eqn:El.
  - cbn. by rewrite Hx.
  - cbn [app no_outer_space]. rewrite Hh. cbn [negb andb].
    change (c :: t ++ [x]) with ((c :: t) ++ [x]). by rewrite last_last, Hx.
Qed.

Lemma strip_fixed (s : list N) : no_outer_space s = true -> strip s = s.
Proof.
  destruct s as [|c s]; [done|]. cbn [no_outer_space].
  rewrite andb_true_iff, !negb_true_iff. intros [Hc Hl].
  unfold strip, rstrip.
  destruct (exists_last (l := c :: s) ltac:(done)) as (l & x & E).
  rewrite E in *. rewrite last_last in Hl.
  rewrite rev_app_distr. cbn [rev app]. rewrite lstrip_nonspace by done.
  change (x :: rev l) with ([x] ++ rev l).
  rewrite rev_app_distr, rev_involutive. cbn [rev app].
  rewrite <- E. by apply lstrip_nonspace.
Qed.

Lemma row_of_written_dict (row : CsvRow) :
  clean_row row ->
  row_of_dict (dict_row [lit "path"; lit "text to play"]
                 [path row; text_to_play row]) = Some row.
Proof.
  intros (Hne & Hp & Ht & _ & _). destruct row as [p t]. cbn [path text_to_play] in *.
  unfold row_of_dict, dict_row, get_or_empty.
  cbn [zip zip_with foldl length Nat.ltb Nat.leb fst snd].
  rewrite lookup_insert_ne by (vm_compute; discriminate).
  rewrite !lookup_insert_eq.
  rewrite !strip_fixed by done.
  unfold str_eqb. by rewrite bool_decide_eq_false_2.
Qed.

Lemma decode_written (rows : list CsvRow) :
  decode_utf8_sig (write_rows_text rows) = write_rows_text rows.
Proof. reflexivity. Qed.

Lemma read_written_rows (rows : list CsvRow) :
  Forall clean_row rows ->
  read_rows_text (write_rows_text rows) = Some rows.
Proof.
  intros Hrows. unfold read_rows_text.
  rewrite decode_written, csv_reader_written.
  2:{ eapply Forall_impl; [exact Hrows|]. unfold clean_row. tauto. }
  cbn [mbind option_bind dict_reader]. f_equal.
  induction Hrows as [|row rows Hrow _ IH]; [reflexivity|].
  cbn [map]. rewrite filter_cons_True by done.
  cbn [map omap list_omap]. rewrite row_of_written_dict by done.
  f_equal. exact IH.
Qed.

Lemma inv_set_state (s : ParserState) (r : Reader) :
  reader_inv r -> reader_inv (set_state s r).
Proof. done. Qed.

Lemma inv_save (r : Reader) : reader_inv r -> reader_inv (parse_save_field r).
Proof.
  intros [Hf Hfs]. split; cbn; [unfold bounded, field_size_limit; cbn; lia|].
  apply Forall_app. split; [done|]. by constructor.
Qed.

Lemma inv_add (r r' : Reader) (c : N) :
  reader_inv r -> parse_add_char r c = Some r' -> reader_inv r'.
Proof.
  intros [Hf Hfs]. unfold parse_add_char.
  destruct (field_size_limit <=? _) eqn:E; [done|].
  apply N.leb_gt in E. intros [= <-]. split; cbn; [|done].
  unfold bounded. rewrite length_app. cbn. lia.
Qed.

Lemma inv_add_set (s : ParserState) (r r' : Reader) (c : N) :
  reader_inv r -> set_state s <$> parse_add_char r c = Some r' -> reader_inv r'.
Proof.
  intros Hr. destruct (parse_add_char r c) as [r1|] eqn:E; [|done].
  intros [= <-]. apply inv_set_state. by eapply inv_add.
Qed.

Lemma parse_process_char_inv (r r' : Reader) (t : token) :
  reader_inv r -> parse_process_char r t = Some r' -> reader_inv r'.
Proof.
  intros Hr. unfold parse_process_char.
  destruct (state r), t as [c|];
    repeat match goal with
      | |- context [if ?b then _ else _] => destruct b
      end;
    intros H;
    try (injection H as <-);
    eauto using inv_set_state, inv_save, inv_add, inv_add_set.
  all: try done.
Qed.

Lemma feed_inv (ts : list token) (r r' : Reader) :
  reader_inv r -> feed r ts = Some r' -> reader_inv r'.
Proof.
  revert r. induction ts as [|t ts IH]; intros r Hr; cbn.
  - by intros [= <-].
  - destruct (parse_process_char r t) as [r1|] eqn:E; [|done].
    apply IH. by eapply parse_process_char_inv.
Qed.

Lemma parse_reset_inv : reader_inv parse_reset.
Proof. split; [unfold bounded, field_size_limit; cbn; lia | constructor]. Qed.

Lemma reader_records_bounded (ls : list (list N)) (r : Reader)
    (recs : list (list (list N))) :
  reader_inv r -> reader_records r ls = Some recs ->
  Forall (Forall bounded) recs.
Proof.
  revert r recs. induction ls as [|line ls IH]; intros r recs Hr.
  - rewrite reader_records_nil. intros [= <-]. unfold eof_records.
    destruct (_ || _)%bool; [|constructor].
    constructor; [|constructor]. by apply inv_save.
  - cbn [reader_records]. unfold feed_line.
    destruct (feed r _) as [r'|] eqn:E; [|done].
    pose proof (feed_inv _ _ _ Hr E) as Hr'.
    destruct (decide (state r' = START_RECORD)).
    + destruct (reader_records parse_reset ls) as [recs'|] eqn:E'; [|done].
      intros [= <-]. constructor; [apply Hr'|].
      apply (IH parse_reset); [apply parse_reset_inv | done].
    + by apply IH.
Qed.

Lemma dict_row_value (fieldnames row : list (list N)) (k v : list N) :
  dict_row fieldnames row !! k = Some (Some v) -> v ∈ row.
Proof.
  unfold dict_row.
  assert (Hzip : forall (kvs : list (list N * list N)) (d : gmap (list N) (option (list N))),
             foldl (fun d kv => <[kv.1 := Some kv.2]> d) d kvs !! k = Some (Some v) ->
             v ∈ kvs.*2 \/ d !! k = Some (Some v)).
  { induction kvs as [|[k' v'] kvs IH]; intros d; cbn [foldl]; [by right|].
    intros [Hin | Hd]%IH; [left; cbn; by right|].
    destruct (decide (k' = k)) as [-> | Hne].
    - rewrite lookup_insert_eq in Hd. injection Hd as ->. left. cbn. by left.
    - rewrite lookup_insert_ne in Hd by done. by right. }
  assert (Hrest : forall (ks : list (list N)) (d : gmap (list N) (option (list N))),
             foldl (fun d k' => <[k' := None]> d) d ks !! k = Some (Some v) ->
             d !! k = Some (Some v)).
  { induction ks as [|k' ks IH]; intros d; cbn [foldl]; [done|].
    intros Hd%IH. destruct (decide (k' = k)) as [-> | Hne].
    - by rewrite lookup_insert_eq in Hd.
    - by rewrite lookup_insert_ne in Hd. }
  intros H.
  assert (foldl (fun d kv => <[kv.1 := Some kv.2]> d) ∅ (zip fieldnames row) !! k
          = Some (Some v)) as [Hin | Hd]%Hzip.
  { destruct (_ <? _)%nat; [by apply Hrest in H | done]. }
  - clear -Hin. revert row Hin. induction fieldnames as [|f fs IH]; intros [|x row];
      cbn; try (by intros ?%elem_of_nil).
    intros [-> | Hin]%elem_of_cons; [by left | right; by apply IH].
  - by rewrite lookup_empty in Hd.
Qed.

Lemma get_or_empty_bounded (fieldnames row : list (list N)) (k : list N) :
  Forall bounded row -> bounded (get_or_empty (dict_row fieldnames row) k).
Proof.
  intros Hrow. unfold get_or_empty.
  destruct (dict_row fieldnames row !! k) as [[v|]|] eqn:E;
    try (unfold bounded, field_size_limit; cbn; lia).
  apply dict_row_value in E. rewrite Forall_forall in Hrow. by apply Hrow.
Qed.

Lemma strip_bounded (s : list N) : bounded s -> bounded (strip s).
Proof. unfold bounded. pose proof (strip_length s). lia. Qed.

Lemma read_rows_clean (content : list N) (rows : list CsvRow) :
  read_rows_text content = Some rows -> Forall clean_row rows.
Proof.
  unfold read_rows_text, csv_reader.
  destruct (reader_records _ _) as [recs|] eqn:E; [|done].
  apply reader_records_bounded in E; [|apply parse_reset_inv].
  cbn [mbind option_bind]. intros [= <-].
  apply Forall_forall. intros row (d & Hd & Hrow)%list_elem_of_omap.
  unfold dict_reader in Hd. destruct recs as [|fieldnames rest]; [by apply elem_of_nil in Hd|].
  apply list_elem_of_fmap in Hd as (rec & -> & Hrec).
  apply list_elem_of_filter in Hrec as [_ Hrec].
  apply Forall_cons in E as [_ E]. rewrite Forall_forall in E.
  specialize (E _ Hrec).
  unfold row_of_dict in Hrow.
  destruct (str_eqb _ []) eqn:Hp; [done|]. injection Hrow as <-.
  unfold str_eqb in Hp. apply bool_decide_eq_false in Hp.
  unfold clean_row. cbn [path text_to_play].
  split; [done|]. split; [apply strip_no_outer_space|].
  split; [apply strip_no_outer_space|].
  split; by apply strip_bounded, get_or_empty_bounded.
Qed.

Lemma dict_rel_insert (d1 d2 : gmap (list N) (option (list N)))
    (k : list N) (v1 v2 : option (list N)) :
  dict_rel d1 d2 ->
  match v1, v2 with
  | None, None => True
  | Some a, Some b => same_modulo_space a b
  | _, _ => False
  end ->
  dict_rel (<[k := v1]> d1) (<[k := v2]> d2).
Proof.
  intros Hd Hv k'. destruct (decide (k = k')) as [-> | Hne].
  - rewrite !lookup_insert_eq. by destruct v1, v2.
  - rewrite !lookup_insert_ne by done. apply Hd.
Qed.

Lemma dict_rel_pairs (kvs1 kvs2 : list (list N * list N))
    (d1 d2 : gmap (list N) (option (list N))) :
  Forall2 (fun a b => a.1 = b.1 /\ same_modulo_space a.2 b.2) kvs1 kvs2 ->
  dict_rel d1 d2 ->
  dict_rel (foldl (fun d kv => <[kv.1 := Some kv.2]> d) d1 kvs1)
           (foldl (fun d kv => <[kv.1 := Some kv.2]> d) d2 kvs2).
Proof.
  intros Hkvs. revert d1 d2.
  induction Hkvs as [|a b l1 l2 [Hk Hv] _ IH]; intros d1 d2 Hd; [done|].
  cbn [foldl]. apply IH. rewrite Hk. by apply dict_rel_insert.
Qed.

Lemma dict_rel_rest (ks : list (list N))
    (d1 d2 : gmap (list N) (option (list N))) :
  dict_rel d1 d2 ->
  dict_rel (foldl (fun d k => <[k := None]> d) d1 ks)
           (foldl (fun d k => <[k := None]> d) d2 ks).
Proof.
  revert d1 d2. induction ks as [|k ks IH]; intros d1 d2 Hd; [done|].
  cbn [foldl]. apply IH. by apply dict_rel_insert.
Qed.

Lemma zip_modulo_space (fieldnames row1 row2 : list (list N)) :
  Forall2 same_modulo_space row1 row2 ->
  Forall2 (fun a b => a.1 = b.1 /\ same_modulo_space a.2 b.2)
    (zip fieldnames row1) (zip fieldnames row2).
Proof.
  intros Hrows. revert fieldnames.
  induction Hrows as [|x y r1 r2 Hxy _ IH]; intros [|f fs]; cbn; try constructor;
    [done | apply IH].
Qed.

Lemma dict_row_rel (fieldnames row1 row2 : list (list N)) :
  Forall2 same_modulo_space row1 row2 ->
  dict_rel (dict_row fieldnames row1) (dict_row fieldnames row2).
Proof.
  intros Hrows. unfold dict_row.
  rewrite <- (Forall2_length _ _ _ Hrows).
  assert (dict_rel (∅ : gmap (list N) (option (list N))) ∅) as H0
    by (intros k; by rewrite lookup_empty).
  pose proof (dict_rel_pairs _ _ _ _ (zip_modulo_space fieldnames _ _ Hrows) H0).
  destruct (_ <? _)%nat; [by apply dict_rel_rest | done].
Qed.

Lemma row_of_dict_rel (d1 d2 : gmap (list N) (option (list N))) :
  dict_rel d1 d2 -> row_of_dict d1 = row_of_dict d2.
Proof.
  intros Hd.
  assert (Hget : forall k, strip (get_or_empty d1 k) = strip (get_or_empty d2 k)).
  { intros k. unfold get_or_empty. specialize (Hd k).
    destruct (d1 !! k) as [[a|]|], (d2 !! k) as [[b|]|]; done. }
  unfold row_of_dict. by rewrite !Hget.
Qed.

Lemma rows_modulo_space (fieldnames : list (list N))
    (rest1 rest2 : list (list (list N))) :
  Forall2 (Forall2 same_modulo_space) rest1 rest2 ->
  omap row_of_dict (dict_reader (fieldnames :: rest1))
  = omap row_of_dict (dict_reader (fieldnames :: rest2)).
Proof.
  intros Hrest. cbn [dict_reader].
  induction Hrest as [|r1 r2 rest1 rest2 Hr _ IH]; [done|].
  destruct (decide (r1 = [])) as [-> | Hne].
  - apply Forall2_nil_inv_l in Hr as ->.
    rewrite !filter_cons_False by (intros ?; done). exact IH.
  - assert (r2 <> []) by (intros ->; by apply Forall2_nil_inv_r in Hr).
    rewrite !filter_cons_True by done. cbn [map omap list_omap].
    rewrite (row_of_dict_rel _ _ (dict_row_rel fieldnames r1 r2 Hr)), IH. done.
Qed.

(** ** The file system *)
Lemma walk_found_node (fs : gmap (list (list N)) node) (cs cur k : list (list N)) (n : node) :
  walk fs cur cs = Found k n -> node_at fs k = Some n.
Proof.
  revert cur. induction cs as [|c cs IH]; intros cur; cbn [walk].
  - destruct (node_at fs cur) eqn:E; [|done]. by intros [= <- <-].
  - destruct (node_at fs cur) as [[| |]|]; try done. apply IH.
Qed.

Lemma walk_missing_node (fs : gmap (list (list N)) node) (cs cur k : list (list N)) :
  walk fs cur cs = Missing k -> node_at fs k = None.
Proof.
  revert cur. induction cs as [|c cs IH]; intros cur; cbn [walk].
  - destruct (node_at fs cur) eqn:E; [done|]. by intros [= <-].
  - destruct (node_at fs cur) as [[| |]|]; try done. apply IH.
Qed.

Lemma file_slot_node (fs : gmap (list (list N)) node) (cur cs k : list (list N)) :
  file_slot fs cur cs k -> node_at fs k <> Some Dir.
Proof.
  intros [Hm | (n & Hn & Hf)].
  - apply walk_missing_node in Hm. congruence.
  - apply walk_found_node in Hf. congruence.
Qed.

(** Changing what is at a key that holds no directory. *)
Lemma walk_change_file (fs fs' : gmap (list (list N)) node) (k : list (list N)) :
  node_at fs k <> Some Dir ->
  (forall k', k' <> k -> fs' !! k' = fs !! k') ->
  forall cs cur,
    file_slot fs cur cs k ->
    walk fs' cur cs = match node_at fs' k with
                      | Some n => Found k n
                      | None => Missing k
                      end.
Proof.
  intros Hk Hsame. induction cs as [|c cs IH]; intros cur Hslot.
  - assert (cur = k) as ->.
    { destruct Hslot as [Hm | (n & _ & Hf)]; cbn in *;
        destruct (node_at fs cur); congruence. }
    reflexivity.
  - assert (node_at fs cur = Some Dir) as Hcur.
    { destruct Hslot as [Hm | (n & _ & Hf)]; cbn in *;
        destruct (node_at fs cur) as [[| |]|]; congruence. }
    assert (node_at fs' cur = Some Dir) as Hcur'.
    { destruct cur as [|x cur]; [done|]. cbn in *.
      rewrite Hsame; [done|]. intros E. subst k. cbn in Hk. congruence. }
    cbn [walk]. rewrite Hcur'. apply IH.
    destruct Hslot as [Hm | (n & Hn & Hf)]; cbn [walk] in *; rewrite Hcur in *;
      [by left | right; eauto].
Qed.

Lemma dirs_kept_node (fs fs' : gmap (list (list N)) node) (k : list (list N)) :
  dirs_kept fs fs' -> node_at fs k = Some Dir -> node_at fs' k = Some Dir.
Proof. intros H. destruct k; [done|]. apply H. Qed.


Lemma walk_app_dir (fs : gmap (list (list N)) node) (cs1 cs2 cur k : list (list N)) :
  walk fs cur cs1 = Found k Dir -> walk fs cur (cs1 ++ cs2) = walk fs k cs2.
Proof.
  revert cur. induction cs1 as [|c cs1 IH]; intros cur; cbn [walk app].
  - destruct (node_at fs cur) as [n|] eqn:E; [|done]. by intros [= <- ->].
  - destruct (node_at fs cur) as [[| |]|] eqn:E; try done. apply IH.
Qed.

Lemma step_plain (cur : list (list N)) (c : list N) :
  c <> lit ".." -> step cur c = cur ++ [c].
Proof. intros Hc. unfold step. by rewrite decide_False. Qed.


(** *** [mkdirs] *)
Lemma mkdirs_subseteq (cs cur : list (list N)) (fs fs' : gmap (list (list N)) node) :
  mkdirs fs cur cs = Some fs' -> fs ⊆ fs'.
Proof.
  revert cur fs. induction cs as [|c cs IH]; intros cur fs; cbn [mkdirs].
  - destruct (node_at fs cur) as [[| |]|] eqn:E; try done; intros [= <-]; [done|].
    apply insert_subseteq. destruct cur; [done | exact E].
  - destruct (node_at fs cur) as [[| |]|] eqn:E; try done; [apply IH|].
    intros H%IH. etrans; [|exact H].
    apply insert_subseteq. destruct cur; [done | exact E].
Qed.

Lemma subseteq_dirs_kept (fs fs' : gmap (list (list N)) node) :
  fs ⊆ fs' -> dirs_kept fs fs'.
Proof. intros H k Hk. by eapply lookup_weaken. Qed.

Lemma node_at_insert_self (fs : gmap (list (list N)) node) (k : list (list N)) :
  node_at (<[k := Dir]> fs) k = Some Dir.
Proof. destruct k; [done|]. cbn. apply lookup_insert_eq. Qed.

Lemma mkdirs_walk (cs cur : list (list N)) (fs fs' : gmap (list (list N)) node) :
  mkdirs fs cur cs = Some fs' -> exists k, walk fs' cur cs = Found k Dir.
Proof.
  revert cur fs. induction cs as [|c cs IH]; intros cur fs; cbn [mkdirs walk].
  - destruct (node_at fs cur) as [[| |]|] eqn:E; try done; intros [= <-].
    + exists cur. by rewrite E.
    + exists cur. by rewrite node_at_insert_self.
  - destruct (node_at fs cur) as [[| |]|] eqn:E; try done; intros Hm.
    + destruct (IH _ _ Hm) as [k Hk]. exists k.
      rewrite (dirs_kept_node fs fs' cur); [done | | done].
      by eapply subseteq_dirs_kept, mkdirs_subseteq.
    + destruct (IH _ _ Hm) as [k Hk]. exists k.
      rewrite (dirs_kept_node (<[cur := Dir]> fs) fs' cur); [done | |].
      * by eapply subseteq_dirs_kept, mkdirs_subseteq.
      * apply node_at_insert_self.
Qed.




Section WorkerFacts.
Context `{Env}.
Variable self : SynthesisWorker.

Lemma foldM_cons {A B} (f : B -> A -> M B) (b : B) (x : A) (xs : list A) (w : World) :
  foldM f b (x :: xs) w
  = match f b x w with
    | Ok b' w' => foldM f b' xs w'
    | Raise e w' => Raise e w'
    end.
Proof. reflexivity. Qed.

(** *** Paths that name nothing *)

Lemma exists_found (p : Path) (w : World) :
  path_exists w p = true -> exists_ p w = Ok true w.
Proof. unfold exists_. by intros ->. Qed.

Lemma exists_cases (p : Path) (w : World) :
  exists_ p w = Ok (path_exists w p) w
  \/ (exists_ p w = Raise (OSError p) w /\ path_exists w p = false).
Proof.
  unfold exists_. destruct (path_exists w p); [by left|].
  destruct (has_nul p); [by left|].
  destruct (os_refuses _ && negb _)%bool; [by right | by left].
Qed.

Lemma exists_false (p : Path) (w w' : World) :
  exists_ p w = Ok false w' -> w' = w /\ path_exists w p = false.
Proof.
  unfold exists_. destruct (path_exists w p); [done|].
  destruct (has_nul p); [by intros [= <-]|].
  destruct (os_refuses _ && negb _)%bool; [done|]. by intros [= <-].
Qed.

Lemma diff_row_new (base : Path) (m : gmap (list N) (list N))
    (c n : list CsvRow) (row : CsvRow) (w : World) :
  new_row m row = true ->
  diff_row base m (c, n) row w
  = Ok (c, n ++ [row]) (emit (path row ++ lit " is a new row.") w).
Proof.
  unfold new_row, diff_row. rewrite bool_decide_eq_true. by intros ->.
Qed.

Lemma diff_row_unchanged (base : Path) (m : gmap (list N) (list N))
    (c n : list CsvRow) (row : CsvRow) (w : World) :
  unchanged_row m row = true -> diff_row base m (c, n) row w = Ok (c, n) w.
Proof.
  unfold unchanged_row, diff_row. destruct (m !! path row) as [t|]; [|done].
  rewrite bool_decide_eq_true. intros ->. by rewrite decide_False by (intros ?; done).
Qed.

Lemma diff_row_changed (base : Path) (m : gmap (list N) (list N))
    (c n : list CsvRow) (row : CsvRow) (w : World) :
  changed_row m row = true ->
  diff_row base m (c, n) row w
  = let w1 := emit (path row
                ++ lit " text to play has changed. Removing old audio file.") w in
    match exists_ (old_file_of base row) w1 with
    | Ok true _ =>
        match unlink_missing_ok (old_file_of base row) w1 with
        | Ok _ w2 => Ok (c ++ [row], n) w2
        | Raise e w2 => Raise e w2
        end
    | Ok false _ => Ok (c ++ [row], n) w1
    | Raise e _ => Raise e w1
    end.
Proof.
  unfold changed_row, diff_row. destruct (m !! path row) as [t|]; [|done].
  rewrite bool_decide_eq_true. intros Ht. rewrite decide_True by done.
  munfold. cbn zeta.
  destruct (exists_cases (old_file_of base row)
              (emit (path row
                 ++ lit " text to play has changed. Removing old audio file.") w))
    as [-> | [-> _]]; [|done].
  destruct (path_exists _ _); [|done].
  by destruct (unlink_missing_ok _ _).
Qed.

Lemma row_class_cases (m : gmap (list N) (list N)) (row : CsvRow) :
  (new_row m row = true /\ changed_row m row = false /\ unchanged_row m row = false)
  \/ (new_row m row = false /\ changed_row m row = true /\ unchanged_row m row = false)
  \/ (new_row m row = false /\ changed_row m row = false /\ unchanged_row m row = true).
Proof.
  unfold new_row, changed_row, unchanged_row.
  destruct (m !! path row) as [t|].
  - rewrite bool_decide_eq_false_2 by done.
    destruct (decide (t = text_to_play row)).
    + right. right. by rewrite bool_decide_eq_false_2, bool_decide_eq_true_2 by auto.
    + right. left. by rewrite bool_decide_eq_true_2, bool_decide_eq_false_2.
  - left. by rewrite bool_decide_eq_true_2.
Qed.





Lemma resolve_emit (msg : list N) (w : World) (p : Path) :
  resolve (emit msg w) p = resolve w p.
Proof. reflexivity. Qed.

Lemma path_exists_emit (msg : list N) (w : World) (p : Path) :
  path_exists (emit msg w) p = path_exists w p.
Proof. reflexivity. Qed.

(** C6.  For a changed row the first loop removes the file at
    [base_output] joined with the row's path (colons replaced) without
    looking at what the path is: also when the path is absolute or has a
    parent-directory segment, which the synthesis loop would refuse, the
    file the path resolves to is deleted; an absolute path replaces the
    output root altogether. *)
Theorem diff_removes_unsafe_old_file (base_output : Path)
    (last_map : gmap (list N) (list N)) (changed_rows new_rows : list CsvRow)
    (row : CsvRow) (w : World) (k : list (list N)) (n : node) :
  let safe_relative_path := parse_path (replace (lit ":") (lit "_") (path row)) in
  changed_row last_map row = true ->
  unsafe_path safe_relative_path = true ->
  resolve w (old_file_of base_output row) = Found k n ->
  n <> Dir ->
  diff_row base_output last_map (changed_rows, new_rows) row w
  = Ok (changed_rows ++ [row], new_rows)
      (set_fs (delete k (fs w))
         (emit (path row
                  ++ lit " text to play has changed. Removing old audio file.") w))
  /\ (is_absolute safe_relative_path = true ->
      old_file_of base_output row = safe_relative_path).
Proof.
  intros rel Hchanged _ Hres Hn. split.
  - rewrite diff_row_changed by done. cbn zeta.
    rewrite exists_found by (unfold path_exists; by rewrite resolve_emit, Hres).
    unfold unlink_missing_ok. rewrite !resolve_emit, Hres.
    by destruct n.
  - intros Habs. unfold old_file_of, path_join. fold rel. by rewrite Habs.
Qed.

Lemma build_last_map_snoc (rows : list CsvRow) (row : CsvRow) :
  build_last_map (rows ++ [row])
  = <[path row := text_to_play row]> (build_last_map rows).
Proof. unfold build_last_map. by rewrite foldl_app. Qed.

Lemma build_last_map_elem (rows : list CsvRow) (row : CsvRow) :
  one_text_per_path rows -> row ∈ rows ->
  build_last_map rows !! path row = Some (text_to_play row).
Proof.
  induction rows as [|r rows IH] using rev_ind; intros Hone Hin.
  { by apply elem_of_nil in Hin. }
  rewrite build_last_map_snoc.
  destruct (decide (path r = path row)) as [Hp | Hp].
  - rewrite Hp, lookup_insert_eq. f_equal.
    apply Hone; [apply elem_of_app; right; by left | done | done].
  - rewrite lookup_insert_ne by done. apply IH.
    + intros r1 r2 H1 H2. apply Hone; apply elem_of_app; by left.
    + apply elem_of_app in Hin as [Hin | Hin%list_elem_of_singleton]; [done|].
      by subst.
Qed.

Lemma diff_rows_all_unchanged (base : Path) (m : gmap (list N) (list N))
    (rows : list CsvRow) (w : World) :
  Forall (fun row => unchanged_row m row = true) rows ->
  diff_rows base m rows w = Ok ([], []) w.
Proof.
  unfold diff_rows. induction 1 as [|row rows Hrow _ IH]; [done|].
  rewrite foldM_cons, diff_row_unchanged by done. exact IH.
Qed.

Lemma same_rows_unchanged (base : Path) (rows : list CsvRow) (w : World) :
  one_text_per_path rows ->
  diff_rows base (build_last_map rows) rows w = Ok ([], []) w.
Proof.
  intros Hone. apply diff_rows_all_unchanged, Forall_forall. intros row Hin.
  unfold unchanged_row. rewrite build_last_map_elem by done.
  by apply bool_decide_eq_true.
Qed.

Lemma select_targets_spec (changed_rows new_rows current_rows : list CsvRow)
    (w : World) :
  exists msg,
    select_targets changed_rows new_rows current_rows w
    = Ok (target_of changed_rows new_rows current_rows) (emit msg w).
Proof.
  unfold select_targets, target_of.
  destruct changed_rows, new_rows; cbn [truthy andb]; munfold; eauto.
Qed.

Lemma mkdirs_existing_found (cs cs2 cur k : list (list N)) (n : node)
    (t : gmap (list (list N)) node) :
  walk t cur (cs ++ cs2) = Found k n -> cs2 <> [] -> mkdirs t cur cs = Some t.
Proof.
  intros Hw Hne. revert cur Hw.
  induction cs as [|c cs IH]; intros cur; cbn [mkdirs walk app].
  - destruct cs2 as [|c2 cs2]; [done|]. cbn [walk].
    destruct (node_at t cur) as [[| |]|]; done.
  - destruct (node_at t cur) as [[| |]|]; try done. apply IH.
Qed.

Lemma walk_prefix_dir (cs cs2 cur k : list (list N)) (n : node)
    (t : gmap (list (list N)) node) :
  walk t cur (cs ++ cs2) = Found k n -> cs2 <> [] ->
  exists k', walk t cur cs = Found k' Dir.
Proof.
  intros Hw Hne. revert cur Hw.
  induction cs as [|c cs IH]; intros cur; cbn [walk app].
  - destruct cs2 as [|c2 cs2]; [done|]. cbn [walk].
    destruct (node_at t cur) as [[| |]|]; try done. by exists cur.
  - destruct (node_at t cur) as [[| |]|]; try done. apply IH.
Qed.

Lemma mkdir_parents_inv (p : Path) (w w1 : World) :
  mkdir_parents p w = Ok () w1 ->
  exists t,
    mkdirs (fs w) (if is_absolute p then [] else cwd w) (comps p) = Some t
    /\ w1 = set_fs t w.
Proof.
  unfold mkdir_parents.
  destruct (if path_exists w p then None else refusal p); [done|].
  destruct (mkdirs _ _ _) as [t|]; [|done]. intros [= <-]. by exists t.
Qed.

Lemma mkdir_parents_failed (p : Path) (w w1 : World) (e : exn) :
  mkdir_parents p w = Raise e w1 -> w1 = w.
Proof.
  unfold mkdir_parents.
  destruct (if path_exists w p then None else refusal p); [by intros [= _ <-]|].
  destruct (mkdirs _ _ _); [done|]. by intros [= _ <-].
Qed.

Lemma mkdir_parent_of_existing (p : Path) (w : World) :
  path_exists w p = true -> comps p <> [] ->
  mkdir_parents (path_parent p) w = Ok () w.
Proof.
  unfold path_exists, resolve, mkdir_parents.
  change (is_absolute (path_parent p)) with (is_absolute p).
  change (comps (path_parent p)) with (removelast (comps p)).
  intros Hex Hne.
  destruct (walk _ _ (comps p)) as [k n| | |] eqn:E; try done.
  destruct (exists_last Hne) as (cs & c & Hcs). rewrite Hcs in *.
  rewrite removelast_last.
  destruct (walk_prefix_dir _ [c] _ k n _ E) as [k' Hk']; [done|].
  assert (path_exists w (path_parent p) = true) as ->.
  { unfold path_exists, resolve.
    change (is_absolute (path_parent p)) with (is_absolute p).
    change (comps (path_parent p)) with (removelast (comps p)).
    by rewrite Hcs, removelast_last, Hk'. }
  rewrite (mkdirs_existing_found _ [c] _ k n _ E) by done.
  by destruct w.
Qed.

Lemma synthesize_row_existing (base_output : Path)
    (failed_outputs : list (list N)) (row : CsvRow) (w : World) :
  unsafe_path (parse_path (replace (lit ":") (lit "_") (path row))) = false ->
  path_exists w (output_file_of base_output row) = true ->
  comps (output_file_of base_output row) <> [] ->
  synthesize_row self base_output failed_outputs row w
  = Ok failed_outputs
      (emit (lit "File " ++ path_str (output_file_of base_output row)
               ++ lit " already exists. Skipping synthesis.") w).
Proof.
  intros Hsafe Hex Hne. unfold synthesize_row. unfold unsafe_path in Hsafe.
  rewrite Hsafe. fold (output_file_of base_output row). munfold.
  rewrite mkdir_parent_of_existing by done. by rewrite exists_found.
Qed.

(** C4.  The target rows are the changed rows followed by the new rows
    when both groups have rows, the one group that has rows when only one
    has, and all the current rows when neither has; one line is logged.  In
    the synthesis loop a row whose output file exists is skipped with a log
    line: the failure list, the file system and the calls to the speech
    service stay as they are. *)
Theorem targets_follow_priority (changed_rows new_rows current_rows : list CsvRow)
    (w : World) :
  (exists msg,
      select_targets changed_rows new_rows current_rows w
      = Ok (match changed_rows, new_rows with
            | _ :: _, _ :: _ => changed_rows ++ new_rows
            | _ :: _, [] => changed_rows
            | [], _ :: _ => new_rows
            | [], [] => current_rows
            end) (emit msg w))
  /\ forall (base_output : Path) (failed_outputs : list (list N)) (row : CsvRow)
       (w' : World),
      unsafe_path (parse_path (replace (lit ":") (lit "_") (path row))) = false ->
      path_exists w' (output_file_of base_output row) = true ->
      comps (output_file_of base_output row) <> [] ->
      synthesize_row self base_output failed_outputs row w'
      = Ok failed_outputs
          (emit (lit "File " ++ path_str (output_file_of base_output row)
                   ++ lit " already exists. Skipping synthesis.") w').
Proof.
  split; [apply select_targets_spec|]. intros. by apply synthesize_row_existing.
Qed.

(** ** The end of a run *)
Lemma failure_message_shape (failed_outputs : list (list N)) :
  failure_message failed_outputs
  = lit "Synthesis failed for " ++ str_of_nat (length failed_outputs)
      ++ lit " file(s) after 3 retries. Examples: "
      ++ join (lit ", ") (take 5 failed_outputs)
      ++ (if (5 <? length failed_outputs)%nat then lit ", ..." else []).
Proof.
  unfold failure_message. destruct (5 <? length failed_outputs)%nat.
  - reflexivity.
  - rewrite app_nil_r. reflexivity.
Qed.

(** C1 (as amended).  When the failure list is not empty once every
    target row has been processed, the run ends by raising a [RuntimeError]:
    the message gives the number of failed files and names the first five of
    them at most, followed by an ellipsis when there are more than five, and
    [run] reports [failed].  The world the run ends in is the one the
    synthesis loop left: the writes that end a run, of the snapshot with the
    current rows and of the settings record, are not made. *)
Theorem failures_end_the_run_before_commit (failed_outputs : list (list N))
    (current_rows : list CsvRow) (w : World) :
  failed_outputs <> [] ->
  commit self failed_outputs current_rows w
  = Raise (RuntimeError (failure_message failed_outputs)) w
  /\ failure_message failed_outputs
     = lit "Synthesis failed for " ++ str_of_nat (length failed_outputs)
         ++ lit " file(s) after 3 retries. Examples: "
         ++ join (lit ", ") (take 5 failed_outputs)
         ++ (if (5 <? length failed_outputs)%nat then lit ", ..." else [])
  /\ (length (take 5 failed_outputs) <= 5)%nat
  /\ forall w0,
      synthesize_all self w0 = Ok (current_rows, failed_outputs) w ->
      run self w0 = (failed (RuntimeError (failure_message failed_outputs)), w).
Proof.
  intros Hne.
  assert (commit self failed_outputs current_rows w
          = Raise (RuntimeError (failure_message failed_outputs)) w) as Hc.
  { unfold commit. destruct failed_outputs; done. }
  split; [exact Hc|]. split; [apply failure_message_shape|].
  split; [rewrite length_take; lia|].
  intros w0 Hall. unfold run, _run_impl. munfold. by rewrite Hall, Hc.
Qed.

Lemma retry_round (output_file : Path) (ssml : list N)
    (failed_outputs : list (list N)) (retry_count : nat) (w : World) :
  retry_loop output_file ssml failed_outputs retry_count w
  = let r := speak output_file ssml w in
    if attempt_failed output_file r.1 r.2 then
      let w1 := emit (failure_line output_file (S retry_count) r.1) r.2 in
      if (3 <=? S retry_count)%nat
      then retry_limit_reached output_file failed_outputs w1
      else retry_loop output_file ssml failed_outputs (S retry_count) w1
    else Ok failed_outputs (emit (lit "Done") r.2).
Proof.
  rewrite retry_loop_equation_1. cbn zeta.
  unfold attempt_failed, failure_line.
  destruct (speak output_file ssml w) as [[reason|] w1]; cbn [fst snd].
  - destruct (decide (reason = SynthesizingAudioCompleted)) as [-> | Hr].
    + rewrite decide_False by (intros ?; done).
      destruct (negb _ || _)%bool; [|done].
      destruct (le_lt_dec 3 (S retry_count)) as [Hle | Hlt].
      * by rewrite (proj2 (Nat.leb_le _ _) Hle).
      * by rewrite (proj2 (Nat.leb_gt _ _) Hlt).
    + rewrite decide_True by done.
      destruct (le_lt_dec 3 (S retry_count)) as [Hle | Hlt].
      * by rewrite (proj2 (Nat.leb_le _ _) Hle).
      * by rewrite (proj2 (Nat.leb_gt _ _) Hlt).
  - destruct (le_lt_dec 3 (S retry_count)) as [Hle | Hlt].
    + by rewrite (proj2 (Nat.leb_le _ _) Hle).
    + by rewrite (proj2 (Nat.leb_gt _ _) Hlt).
Qed.

Lemma only_at_trans (k : list (list N)) (call : list N * list N) (n1 n2 : nat)
    (w1 w2 w3 : World) :
  only_at k call n1 w1 w2 -> only_at k call n2 w2 w3 ->
  only_at k call (n1 + n2) w1 w3.
Proof.
  intros (Hc1 & Hf1 & Hs1) (Hc2 & Hf2 & Hs2). split; [congruence|]. split.
  - intros k' Hk'. rewrite Hf2, Hf1; done.
  - rewrite Hs2, Hs1, <- List.app_assoc. f_equal. by rewrite replicate_add.
Qed.

Lemma audio_slot_file_slot (w : World) (p : Path) (k : list (list N)) :
  audio_slot w p k ->
  file_slot (fs w) (if is_absolute p then [] else cwd w) (comps p) k.
Proof. intros [Hm | [n Hf]]; [by left | right; by exists (Audio n)]. Qed.

Lemma audio_slot_key (w : World) (p : Path) (k : list (list N)) :
  audio_slot w p k -> k <> [] /\ fs w !! k <> Some Dir.
Proof.
  intros Hs%audio_slot_file_slot%file_slot_node. destruct k; [done|].
  split; [done | exact Hs].
Qed.

Lemma audio_slot_change (w w' : World) (p : Path) (k : list (list N)) :
  audio_slot w p k -> cwd w' = cwd w ->
  (forall k', k' <> k -> fs w' !! k' = fs w !! k') ->
  (fs w' !! k = None \/ exists n, fs w' !! k = Some (Audio n)) ->
  audio_slot w' p k.
Proof.
  intros Hs Hcwd Hsame Hk. pose proof (audio_slot_key _ _ _ Hs) as [Hne Hnd].
  unfold audio_slot, resolve. rewrite Hcwd.
  rewrite (walk_change_file (fs w) (fs w') k); [| |done|by apply audio_slot_file_slot].
  2:{ destruct k; [done | exact Hnd]. }
  destruct k as [|x k]; [done|]. cbn [node_at].
  destruct Hk as [-> | [n ->]]; [by left | right; by exists n].
Qed.

Lemma speak_slot (p : Path) (ssml : list N) (w : World) (k : list (list N)) :
  audio_slot w p k ->
  audio_slot (speak p ssml w).2 p k
  /\ only_at k (ssml, path_str p) 1 w (speak p ssml w).2
  /\ emitted (speak p ssml w).2 = emitted w.
Proof.
  intros Hs. unfold speak.
  destruct (speak_ssml (tts w) ssml (path_str p)) as [[t result] eff].
  cbn [snd].
  assert (fs w !! k = None \/ exists n, fs w !! k = Some (Audio n)) as Hold.
  { destruct Hs as [Hm | [n Hf]].
    - left. apply walk_missing_node in Hm. by destruct k.
    - right. apply walk_found_node in Hf. destruct k; [done|]. eauto. }
  assert ((forall k', k' <> k -> apply_effect eff p w !! k' = fs w !! k')
          /\ (apply_effect eff p w !! k = None
              \/ exists n, apply_effect eff p w !! k = Some (Audio n))) as [Hsame Hk].
  { unfold apply_effect.
    destruct Hs as [Hm | [n Hf]]; [rewrite Hm | rewrite Hf]; destruct eff;
      try destruct (refusal p); split;
      try (intros k' Hk'; by rewrite ?lookup_insert_ne, ?lookup_delete_ne by done);
      rewrite ?lookup_insert_eq, ?lookup_delete_eq; eauto. }
  split; [|split; [|done]].
  - by eapply audio_slot_change.
  - by split; [|split].
Qed.

(** A call for a path that names nothing leaves the file system as it is. *)
Lemma speak_refused (p : Path) (ssml : list N) (w : World) (e : exn) :
  path_exists w p = false -> refusal p = Some e ->
  fs (speak p ssml w).2 = fs w /\ cwd (speak p ssml w).2 = cwd w
  /\ spoken (speak p ssml w).2 = spoken w ++ [(ssml, path_str p)]
  /\ path_exists (speak p ssml w).2 p = false.
Proof.
  intros Hex Hr. unfold speak.
  destruct (speak_ssml (tts w) ssml (path_str p)) as [[t result] eff].
  cbn [snd fs cwd spoken].
  assert (apply_effect eff p w = fs w) as Hfs.
  { unfold apply_effect. unfold path_exists in Hex. rewrite Hr.
    destruct (resolve w p) as [k n| | |]; [done| | |]; by destruct eff. }
  split; [done|]. split; [done|]. split; [done|].
  unfold path_exists, resolve in *. cbn [fs cwd]. by rewrite Hfs.
Qed.

Lemma retry_limit_slot (p : Path) (failed_outputs : list (list N)) (w : World)
    (k : list (list N)) (call : list N * list N) :
  refusal p = None ->
  audio_slot w p k ->
  exists w',
    retry_limit_reached p failed_outputs w = Ok (failed_outputs ++ [path_str p]) w'
    /\ resolve w' p = Missing k /\ only_at k call 0 w w'.
Proof.
  intros Hr Hs. unfold retry_limit_reached, unlink_missing_ok. munfold.
  assert (forall w1, cwd w1 = cwd w -> fs w1 = delete k (fs w) ->
            resolve w1 p = Missing k) as Hgone.
  { intros w1 Hc Hf.
    assert (audio_slot w1 p k) as [Hm | [n Hn]]; [|done|].
    - eapply audio_slot_change; [exact Hs | done | |].
      + intros k' Hk'. by rewrite Hf, lookup_delete_ne.
      + left. by rewrite Hf, lookup_delete_eq.
    - apply walk_found_node in Hn. rewrite Hf in Hn.
      destruct (audio_slot_key _ _ _ Hs) as [Hne _].
      destruct k; [done|]. cbn in Hn. by rewrite lookup_delete_eq in Hn. }
  destruct Hs as [Hm | [n Hf]]; [rewrite Hm, Hr | rewrite Hf];
    eexists; (split; [reflexivity|]).
  - split; [exact Hm|]. split; [done|]. split; [done|]. cbn. by rewrite app_nil_r.
  - split.
    + apply Hgone; [done|]. reflexivity.
    + split; [done|]. split; [|cbn; by rewrite app_nil_r].
      intros k' Hk'. cbn. by rewrite lookup_delete_ne.
Qed.

(** At the end of the retries the removal of a file that names nothing
    raises, and the path does not reach the failure list. *)
Lemma retry_limit_refused (p : Path) (failed_outputs : list (list N))
    (w : World) (e : exn) :
  path_exists w p = false -> refusal p = Some e ->
  retry_limit_reached p failed_outputs w = Raise e w.
Proof.
  intros Hex Hr. unfold retry_limit_reached, unlink_missing_ok. munfold.
  unfold path_exists in Hex. rewrite Hr.
  by destruct (resolve w p) as [k n| | |].
Qed.

Lemma only_at_emit (k : list (list N)) (call : list N * list N) (n : nat)
    (msg : list N) (w w' : World) :
  only_at k call n w w' -> only_at k call n w (emit msg w').
Proof. done. Qed.

Lemma audio_slot_emit (msg : list N) (w : World) (p : Path) (k : list (list N)) :
  audio_slot w p k -> audio_slot (emit msg w) p k.
Proof. done. Qed.





(** For a path that names nothing every attempt fails, whatever the
    service answers, and the loop ends by raising after the third. *)
Lemma retry_refused (p : Path) (ssml : list N) (failed_outputs : list (list N))
    (e : exn) (w : World) :
  path_exists w p = false -> refusal p = Some e ->
  exists w',
    retry_loop p ssml failed_outputs 0 w = Raise e w'
    /\ fs w' = fs w /\ cwd w' = cwd w
    /\ spoken w' = spoken w ++ replicate 3 (ssml, path_str p)
    /\ path_exists w' p = false.
Proof.
  intros Hex Hr.
  assert (forall rc v,
            path_exists v p = false ->
            let r := speak p ssml v in
            let v1 := emit (failure_line p (S rc) r.1) r.2 in
            retry_loop p ssml failed_outputs rc v
            = (if (3 <=? S rc)%nat
               then retry_limit_reached p failed_outputs v1
               else retry_loop p ssml failed_outputs (S rc) v1)
            /\ fs v1 = fs v /\ cwd v1 = cwd v
            /\ spoken v1 = spoken v ++ [(ssml, path_str p)]
            /\ path_exists v1 p = false) as Hround.
  { intros rc v Hv. cbn zeta.
    destruct (speak_refused p ssml v e Hv Hr) as (Hfs & Hc & Hsp & Hex').
    rewrite retry_round. cbn zeta.
    assert (attempt_failed p (speak p ssml v).1 (speak p ssml v).2 = true) as ->.
    { unfold attempt_failed. destruct (speak p ssml v).1 as [reason|]; [|done].
      destruct (decide _); [|done]. by rewrite Hex'. }
    done. }
  destruct (Hround 0%nat w Hex) as (-> & Hf1 & Hc1 & Hs1 & He1).
  cbn [Nat.leb]. set (w1 := emit _ (speak p ssml w).2) in *.
  destruct (Hround 1%nat w1 He1) as (-> & Hf2 & Hc2 & Hs2 & He2).
  cbn [Nat.leb]. set (w2 := emit _ (speak p ssml w1).2) in *.
  destruct (Hround 2%nat w2 He2) as (-> & Hf3 & Hc3 & Hs3 & He3).
  cbn [Nat.leb]. set (w3 := emit _ (speak p ssml w2).2) in *.
  rewrite (retry_limit_refused p failed_outputs w3 e He3 Hr).
  exists w3. split; [done|]. split; [congruence|]. split; [congruence|].
  split; [|done]. rewrite Hs3, Hs2, Hs1, <- !List.app_assoc. done.
Qed.

Lemma slot_after_mkdir (p : Path) (w w1 : World) :
  mkdir_parents (path_parent p) w = Ok () w1 ->
  path_exists w1 p = false ->
  cwd w1 = cwd w /\ fs w ⊆ fs w1 /\ exists k, resolve w1 p = Missing k.
Proof.
  intros (t & E & ->)%mkdir_parents_inv. revert E.
  unfold path_exists, resolve.
  change (is_absolute (path_parent p)) with (is_absolute p).
  change (comps (path_parent p)) with (removelast (comps p)).
  intros E. cbn [set_fs fs cwd]. intros Hex. split; [done|].
  split; [by eapply mkdirs_subseteq|].
  destruct (mkdirs_walk _ _ _ _ E) as [k' Hk'].
  destruct (comps p) as [|c0 cs0] eqn:Ecs.
  { cbn [removelast] in Hk'. by rewrite Hk' in Hex. }
  destruct (exists_last (l := c0 :: cs0) ltac:(done)) as (cs & c & Hcs).
  rewrite Hcs in *. rewrite removelast_last in Hk'.
  rewrite (walk_app_dir _ _ _ _ _ Hk') in *.
  cbn [walk] in *. rewrite (walk_found_node _ _ _ _ _ Hk') in *.
  destruct (node_at t (step k' c)); [done | eauto].
Qed.

(** The body of the synthesis loop for a row with a safe path, step by
    step. *)
Lemma synthesize_row_steps (base_output : Path)
    (failed_outputs : list (list N)) (row : CsvRow) (w : World) :
  unsafe_path (parse_path (replace (lit ":") (lit "_") (path row))) = false ->
  synthesize_row self base_output failed_outputs row w
  = match mkdir_parents (path_parent (output_file_of base_output row)) w with
    | Raise e w1 => Raise e w1
    | Ok _ w1 =>
        match exists_ (output_file_of base_output row) w1 with
        | Raise e w2 => Raise e w2
        | Ok true w2 =>
            Ok failed_outputs
              (emit (lit "File " ++ path_str (output_file_of base_output row)
                       ++ lit " already exists. Skipping synthesis.") w2)
        | Ok false w2 =>
            retry_loop (output_file_of base_output row) (ssml_of self row)
              failed_outputs 0
              (emit (lit "Synthesizing "
                       ++ path_str (output_file_of base_output row)
                       ++ lit "...") w2)
        end
    end.
Proof.
  intros Hsafe. unfold synthesize_row. unfold unsafe_path in Hsafe.
  rewrite Hsafe. fold (output_file_of base_output row). munfold.
  destruct (mkdir_parents _ _) as [[] w1|]; [|done].
  by destruct (exists_ _ _) as [[] w2|].
Qed.

Lemma synthesize_row_missing (base_output : Path)
    (failed_outputs : list (list N)) (row : CsvRow) (w w1 : World) :
  unsafe_path (parse_path (replace (lit ":") (lit "_") (path row))) = false ->
  mkdir_parents (path_parent (output_file_of base_output row)) w = Ok () w1 ->
  exists_ (output_file_of base_output row) w1 = Ok false w1 ->
  synthesize_row self base_output failed_outputs row w
  = retry_loop (output_file_of base_output row) (ssml_of self row) failed_outputs 0
      (emit (lit "Synthesizing " ++ path_str (output_file_of base_output row)
               ++ lit "...") w1).
Proof.
  intros Hsafe Hmk Hex. rewrite synthesize_row_steps by done.
  by rewrite Hmk, Hex.
Qed.


Lemma resolve_same (w w' : World) (p : Path) :
  fs w' = fs w -> cwd w' = cwd w -> resolve w' p = resolve w p.
Proof. unfold resolve. by intros -> ->. Qed.

Lemma path_exists_same (w w' : World) (p : Path) :
  fs w' = fs w -> cwd w' = cwd w -> path_exists w' p = path_exists w p.
Proof. intros Hf Hc. unfold path_exists. by rewrite (resolve_same w w'). Qed.









Lemma read_after_put (p : Path) (content : list N) (w : World)
    (k : list (list N)) :
  file_slot (fs w) (if is_absolute p then [] else cwd w) (comps p) k ->
  read_text p (set_fs (<[k := Text content]> (fs w)) w)
  = Ok content (set_fs (<[k := Text content]> (fs w)) w).
Proof.
  intros Hslot. unfold read_text, resolve. cbn [set_fs fs cwd].
  pose proof (file_slot_node _ _ _ _ Hslot) as Hnode.
  rewrite (walk_change_file (fs w) _ k Hnode); [|by intros k' Hk'; rewrite lookup_insert_ne|exact Hslot].
  destruct k as [|x k]; [by destruct Hnode|].
  cbn [node_at]. by rewrite lookup_insert_eq.
Qed.

Lemma write_text_then_read (p : Path) (content : list N) (w w1 : World) :
  write_text p content w = Ok () w1 -> read_text p w1 = Ok content w1.
Proof.
  unfold write_text, resolve.
  destruct (walk (fs w) (if is_absolute p then [] else cwd w) (comps p))
    as [k n| k | |] eqn:E.
  - destruct n as [|s|n]; [discriminate| |]; intros [= <-];
      apply read_after_put; right; eexists; (split; [|exact E]); discriminate.
  - destruct (refusal p); [done|]. intros [= <-]. apply read_after_put. by left.
  - by destruct (refusal p).
  - by destruct (refusal p).
Qed.

Lemma write_then_read (p : Path) (rows : list CsvRow) (w w1 : World) :
  read_rows_text (write_rows_text rows) = Some rows ->
  _write_rows p rows w = Ok () w1 ->
  _read_csv_rows p w1 = Ok rows w1.
Proof.
  intros Hrt Hw. unfold _write_rows in Hw. unfold _read_csv_rows.
  apply write_text_then_read in Hw.
  unfold mbind, M_bind. rewrite Hw, Hrt. reflexivity.
Qed.

(** C8 (as amended).  For rows as the reader produces them (a non-empty
    path, no white space around path and text, fields within the field size
    limit), writing the snapshot and reading it back gives the same rows in
    the same order, on the file contents and through the file system. *)
Theorem snapshot_round_trip (rows : list CsvRow) (p : Path) (w w1 : World) :
  Forall clean_row rows \/ (exists content, read_rows_text content = Some rows) ->
  read_rows_text (write_rows_text rows) = Some rows
  /\ (_write_rows p rows w = Ok () w1 -> _read_csv_rows p w1 = Ok rows w1).
Proof.
  intros Hrows.
  assert (Forall clean_row rows) as Hclean.
  { destruct Hrows as [? | [content Hc]]; [done | by eapply read_rows_clean]. }
  pose proof (read_written_rows rows Hclean) as Hrt.
  split; [exact Hrt | by apply write_then_read].
Qed.

(** C10 (as amended).  Every row the reader returns has a non-empty path
    and no white space around its path and text; two files with the same
    header whose corresponding fields differ only in surrounding white space
    are read as the same rows; and, provided that no path occurs with two
    different texts, such rows are all unchanged against themselves: the
    change detector returns no changed and no new row and touches nothing. *)
Theorem reader_strips_fields (content1 content2 : list N)
    (fieldnames : list (list N)) (rest1 rest2 : list (list (list N)))
    (rows : list CsvRow) (base_output : Path) (w : World) :
  csv_reader (decode_utf8_sig content1) = Some (fieldnames :: rest1) ->
  csv_reader (decode_utf8_sig content2) = Some (fieldnames :: rest2) ->
  Forall2 (Forall2 same_modulo_space) rest1 rest2 ->
  read_rows_text content1 = Some rows ->
  Forall (fun row => path row <> []
                     /\ no_outer_space (path row) = true
                     /\ no_outer_space (text_to_play row) = true) rows
  /\ read_rows_text content2 = Some rows
  /\ (one_text_per_path rows ->
      diff_rows base_output (build_last_map rows) rows w = Ok ([], []) w).
Proof.
  intros H1 H2 Hrest Hrows. split; [|split].
  - eapply Forall_impl; [by eapply read_rows_clean|]. unfold clean_row. tauto.
  - rewrite <- Hrows. unfold read_rows_text. rewrite H1, H2.
    cbn [mbind option_bind]. f_equal. symmetry. by apply rows_modulo_space.
  - apply same_rows_unchanged.
Qed.

End WorkerFacts.

(** C9 at the multiplier 1.25. *)
Lemma rate_has_sign_and_two_decimals_witness :
  is_finite ((1.25 - 1.0) * 100.0)%float = true
  /\ exists int_part frac : list N,
       speed_multiplier_to_rate 1.25
         = sign_str (sign_bit ((1.25 - 1.0) * 100.0)%float)
           ++ int_part ++ lit "." ++ frac ++ lit "%"
       /\ int_part <> [] /\ Forall (fun c => is_digit c = true) int_part
       /\ length frac = 2%nat /\ Forall (fun c => is_digit c = true) frac
       /\ digits_value int_part * 100 + digits_value frac
          = magnitude_hundredths ((1.25 - 1.0) * 100.0)%float.
Proof.
  assert (is_finite ((1.25 - 1.0) * 100.0)%float = true) as Hfin
    by (vm_compute; reflexivity).
  split; [exact Hfin|].
  exact (proj1 rate_has_sign_and_two_decimals 1.25%float Hfin).
Defined.

(** Against C9 as stated: an infinite multiplier, or one large enough for
    the product to overflow, is formatted without any decimals. *)
Lemma rate_of_infinite_speed :
  speed_multiplier_to_rate infinity = lit "+inf%"
  /\ speed_multiplier_to_rate 0x1p+1023 = lit "+inf%"
  /\ is_finite ((0x1p+1023 - 1.0) * 100.0)%float = false.
Proof. repeat split; vm_compute; reflexivity. Qed.

(** Against C1 as stated: the service never answers, the one changed row
    fails three times and the run is reported as failed; afterwards the
    snapshot still holds the rows of the run before and there is no settings
    record. *)
Lemma failed_run_commits_nothing :
  let r := @run env_no_result sample_worker (world_no_result files_text_changed) in
  r.1 = failed (RuntimeError (lit
          "Synthesis failed for 1 file(s) after 3 retries. Examples: /out/en/US/JennyNeural/a.wav"))
  /\ fs r.2 !! snapshot_key = Some (Text (write_rows_text [row_hi]))
  /\ bool_decide (write_rows_text [row_hi] = write_rows_text [row_hello]) = false
  /\ fs r.2 !! settings_key = None.
Proof. vm_compute. repeat split. Qed.

(** C1 at a failure list of one path. *)
Lemma failures_end_the_run_before_commit_witness :
  [lit "/out/a.wav"] <> []
  /\ @commit env_no_result sample_worker [lit "/out/a.wav"] [row_hi]
       (world_no_result sample_dirs)
     = Raise (RuntimeError (failure_message [lit "/out/a.wav"]))
         (world_no_result sample_dirs).
Proof.
  split; [discriminate|].
  apply (@failures_end_the_run_before_commit env_no_result sample_worker
           [lit "/out/a.wav"] [row_hi] (world_no_result sample_dirs)).
  discriminate.
Defined.



(** C4 at a row whose audio is there already. *)
Lemma targets_follow_priority_witness :
  @synthesize_row env_completes sample_worker sample_base [] row_hi
    (world_completes files_with_audio)
  = Ok [] (emit (lit "File /out/en/US/JennyNeural/a.wav already exists. Skipping synthesis.")
             (world_completes files_with_audio)).
Proof.
  apply (proj2 (@targets_follow_priority env_completes sample_worker [] [] [row_hi]
                  (world_completes files_with_audio))
           sample_base [] row_hi (world_completes files_with_audio));
    vm_compute; [reflexivity | reflexivity | discriminate].
Defined.



(** C6 at a changed row with an absolute path: the file it names, outside
    the output root, is gone after the first loop. *)
Lemma diff_removes_unsafe_old_file_witness :
  changed_row (build_last_map [mkCsvRow (lit "/etc/passwd") (lit "old")])
    row_absolute = true
  /\ unsafe_path (parse_path (replace (lit ":") (lit "_") (path row_absolute)))
     = true
  /\ (exists w',
        @diff_row env_completes sample_base
          (build_last_map [mkCsvRow (lit "/etc/passwd") (lit "old")])
          ([], []) row_absolute (world_completes files_with_passwd)
        = Ok ([row_absolute], []) w'
        /\ fs w' !! passwd_key = None)
  /\ fs (world_completes files_with_passwd) !! passwd_key
     = Some (Text (lit "root"))
  /\ bool_decide ([lit "out"; lit "en"; lit "US"; lit "JennyNeural"]
                    `prefix_of` passwd_key) = false.
Proof.
  assert (changed_row (build_last_map [mkCsvRow (lit "/etc/passwd") (lit "old")])
            row_absolute = true) as H1 by (vm_compute; reflexivity).
  assert (unsafe_path (parse_path (replace (lit ":") (lit "_") (path row_absolute)))
          = true) as H2 by (vm_compute; reflexivity).
  split; [exact H1|]. split; [exact H2|]. split; [|split; vm_compute; reflexivity].
  destruct (@diff_removes_unsafe_old_file env_completes sample_base
              (build_last_map [mkCsvRow (lit "/etc/passwd") (lit "old")])
              [] [] row_absolute (world_completes files_with_passwd)
              passwd_key (Text (lit "root")) H1 H2)
    as [Hrow _]; [vm_compute; reflexivity | discriminate |].
  eexists. split; [exact Hrow|]. vm_compute. reflexivity.
Defined.

(** The same through parent-directory segments. *)
Lemma diff_removes_through_parent_segments :
  exists w',
    @diff_row env_completes sample_base
      (build_last_map [mkCsvRow (lit "../../../../etc/passwd") (lit "old")])
      ([], []) row_dotdot (world_completes files_with_passwd)
    = Ok ([row_dotdot], []) w'
    /\ fs w' !! passwd_key = None.
Proof. eexists. split; vm_compute; reflexivity. Qed.

(** Against C8 as stated: a path with a leading space comes back without
    it, and a row with an empty path does not come back at all. *)
Lemma padded_path_does_not_round_trip :
  read_rows_text (write_rows_text [mkCsvRow (lit " a") (lit "x")])
  = Some [mkCsvRow (lit "a") (lit "x")]
  /\ read_rows_text (write_rows_text [mkCsvRow [] (lit "x")]) = Some [].
Proof. split; vm_compute; reflexivity. Qed.

(** C8 at a row whose text has quotes and a comma. *)
Lemma snapshot_round_trip_witness :
  Forall clean_row [mkCsvRow (lit "a.wav") quoted_text]
  /\ read_rows_text
       (write_rows_text [mkCsvRow (lit "a.wav") quoted_text])
     = Some [mkCsvRow (lit "a.wav") quoted_text].
Proof.
  assert (Forall clean_row [mkCsvRow (lit "a.wav") quoted_text])
    as Hc.
  { repeat constructor; vm_compute; discriminate. }
  split; [exact Hc|].
  apply (@snapshot_round_trip env_completes _ sample_base
           (world_completes sample_dirs) (world_completes sample_dirs)).
  by left.
Defined.

(** Against C10 as stated: a file that gives the path [a] two texts reads
    the same with and without padding, yet against itself its first row is
    classified as changed. *)
Lemma repeated_path_reads_as_changed :
  read_rows_text csv_twice_a
  = Some [mkCsvRow (lit "a") (lit "x"); mkCsvRow (lit "a") (lit "y")]
  /\ read_rows_text csv_twice_a_padded
     = Some [mkCsvRow (lit "a") (lit "x"); mkCsvRow (lit "a") (lit "y")]
  /\ match @diff_rows env_completes sample_base
             (build_last_map [mkCsvRow (lit "a") (lit "x"); mkCsvRow (lit "a") (lit "y")])
             [mkCsvRow (lit "a") (lit "x"); mkCsvRow (lit "a") (lit "y")]
             (world_completes sample_dirs) with
     | Ok (changed_rows, _) _ => changed_rows
     | Raise _ _ => []
     end = [mkCsvRow (lit "a") (lit "x")].
Proof. repeat split; vm_compute; reflexivity. Qed.

(** C10 at a file and its padded copy. *)
Lemma reader_strips_fields_witness :
  csv_reader (decode_utf8_sig csv_plain)
  = Some ([lit "path"; lit "text to play"]
          :: [[lit "a"; lit "x"]; [lit "b"; lit "y"]])
  /\ csv_reader (decode_utf8_sig csv_padded)
     = Some ([lit "path"; lit "text to play"]
             :: [[lit " a "; lit "x "]; [lit "b"; lit " y"]])
  /\ read_rows_text csv_padded
     = Some [mkCsvRow (lit "a") (lit "x"); mkCsvRow (lit "b") (lit "y")].
Proof.
  assert (csv_reader (decode_utf8_sig csv_plain)
          = Some ([lit "path"; lit "text to play"]
                  :: [[lit "a"; lit "x"]; [lit "b"; lit "y"]])) as H1
    by (vm_compute; reflexivity).
  assert (csv_reader (decode_utf8_sig csv_padded)
          = Some ([lit "path"; lit "text to play"]
                  :: [[lit " a "; lit "x "]; [lit "b"; lit " y"]])) as H2
    by (vm_compute; reflexivity).
  split; [exact H1|]. split; [exact H2|].
  apply (@reader_strips_fields env_completes csv_plain csv_padded _ _ _
           [mkCsvRow (lit "a") (lit "x"); mkCsvRow (lit "b") (lit "y")]
           sample_base (world_completes sample_dirs) H1 H2).
  - repeat constructor; vm_compute; reflexivity.
  - vm_compute. reflexivity.
Defined.

(** * Further properties of the code *)

(** ** Escaping and markup *)

Lemma is_reserved_cases (c : N) :
  is_reserved c = false
  \/ c = c_amp \/ c = c_lt \/ c = c_gt \/ c = c_quot \/ c = c_apos.
Proof.
  unfold is_reserved.
  destruct (N.eqb_spec c c_amp); [tauto|].
  destruct (N.eqb_spec c c_lt); [tauto|].
  destruct (N.eqb_spec c c_gt); [tauto|].
  destruct (N.eqb_spec c c_quot); [tauto|].
  destruct (N.eqb_spec c c_apos); [tauto|]. by left.
Qed.

Lemma escape_char_plain (c : N) : is_reserved c = false -> escape_char c = [c].
Proof.
  unfold is_reserved, escape_char. intros Hr.
  destruct (c =? c_amp); [discriminate|]. destruct (c =? c_lt); [discriminate|].
  destruct (c =? c_gt); [discriminate|]. destruct (c =? c_quot); [discriminate|].
  destruct (c =? c_apos); [discriminate|]. reflexivity.
Qed.

Lemma is_reserved_amp (c : N) : is_reserved c = false -> c <> c_amp.
Proof. intros Hr ->. discriminate. Qed.

(** An escaped character can be read back off the head of the text. *)
Lemma escape_char_head (c c' : N) (s s' : list N) :
  escape_char c ++ s = escape_char c' ++ s' -> c = c' /\ s = s'.
Proof.
  destruct (is_reserved_cases c) as [Hc | Hc];
    destruct (is_reserved_cases c') as [Hc' | Hc'].
  - rewrite !escape_char_plain by assumption. intros [= -> ->]. done.
  - rewrite (escape_char_plain c Hc). apply is_reserved_amp in Hc.
    destruct Hc' as [-> | [-> | [-> | [-> | ->]]]]; intros [= E _]; done.
  - rewrite (escape_char_plain c' Hc'). apply is_reserved_amp in Hc'.
    destruct Hc as [-> | [-> | [-> | [-> | ->]]]]; intros [= E _]; done.
  - destruct Hc as [-> | [-> | [-> | [-> | ->]]]];
      destruct Hc' as [-> | [-> | [-> | [-> | ->]]]];
      intros E; inversion E; done.
Qed.

Lemma escape_char_nonempty (c : N) : escape_char c <> [].
Proof.
  destruct (is_reserved_cases c) as [Hc | [-> | [-> | [-> | [-> | ->]]]]];
    [rewrite escape_char_plain by done|..]; discriminate.
Qed.

Lemma flat_map_escape_char_inj (a b : list N) :
  flat_map escape_char a = flat_map escape_char b -> a = b.
Proof.
  revert b. induction a as [|c a IH]; intros [|c' b]; cbn [flat_map].
  - done.
  - intros E. symmetry in E. apply app_eq_nil in E as [E _].
    by apply escape_char_nonempty in E.
  - intros E. apply app_eq_nil in E as [E _].
    by apply escape_char_nonempty in E.
  - intros E. apply escape_char_head in E as [-> E]. f_equal. by apply IH.
Qed.

Lemma escape_char_length (c : N) : (1 <= length (escape_char c))%nat.
Proof.
  destruct (is_reserved_cases c) as [Hc | [-> | [-> | [-> | [-> | ->]]]]];
    [rewrite escape_char_plain by done|..]; cbn; lia.
Qed.

Lemma flat_map_escape_char_length (s : list N) :
  (length s <= length (flat_map escape_char s))%nat.
Proof.
  induction s as [|c s IH]; [done|]. cbn [flat_map length].
  rewrite length_app. pose proof (escape_char_length c). lia.
Qed.

Lemma escape_char_reserved_length (c : N) :
  is_reserved c = true -> (2 <= length (escape_char c))%nat.
Proof.
  destruct (is_reserved_cases c) as [Hc | [-> | [-> | [-> | [-> | ->]]]]];
    [congruence|..]; cbn; lia.
Qed.

(** X1.  [escape_xml_text] is injective: two texts with the same escaped
    form are the same text, so the escaped form can always be read back. *)
Theorem escape_xml_text_injective (a b : list N) :
  escape_xml_text a = escape_xml_text b -> a = b.
Proof.
  rewrite !escape_xml_text_flat_map. apply flat_map_escape_char_inj.
Qed.

(** X2.  Escaping a concatenation is concatenating the escaped parts. *)
Theorem escape_xml_text_by_parts (a b : list N) :
  escape_xml_text (a ++ b) = escape_xml_text a ++ escape_xml_text b.
Proof. rewrite !escape_xml_text_flat_map. apply flat_map_app. Qed.

(** X3.  [escape_xml_text] never shortens a text, and it returns the text
    as it is exactly when the text has none of the five reserved
    characters. *)
Theorem escape_xml_text_fixes_plain_text (text : list N) :
  (length text <= length (escape_xml_text text))%nat
  /\ (escape_xml_text text = text
      <-> Forall (fun c => is_reserved c = false) text).
Proof.
  rewrite escape_xml_text_flat_map.
  split; [apply flat_map_escape_char_length|]. split.
  - intros E. apply Forall_forall. intros c Hc.
    destruct (is_reserved c) eqn:Hr; [exfalso|done].
    apply list_elem_of_split in Hc as (l1 & l2 & ->).
    apply (f_equal length) in E.
    rewrite flat_map_app, !length_app in E. cbn [flat_map length] in E.
    rewrite length_app in E.
    pose proof (flat_map_escape_char_length l1).
    pose proof (flat_map_escape_char_length l2).
    pose proof (escape_char_reserved_length c Hr). lia.
  - induction 1 as [|c s Hc _ IH]; [done|]. cbn [flat_map].
    rewrite escape_char_plain by done. cbn. by rewrite IH.
Qed.

(** X4.  With the same voice, style, speed and silences, two texts that
    give the same markup are the same text. *)
Theorem build_ssml_separates_texts (lower : list N -> list N)
    (language_code region short_name style text1 text2 : list N)
    (speed : float) (pre_silence post_silence : Z) :
  build_ssml lower language_code region short_name text1 style speed
    pre_silence post_silence
  = build_ssml lower language_code region short_name text2 style speed
      pre_silence post_silence ->
  text1 = text2.
Proof.
  rewrite !build_ssml_parts. intros E.
  apply app_inv_head in E. apply app_inv_tail in E.
  rewrite !escape_xml_text_flat_map in E. by apply flat_map_escape_char_inj.
Qed.

Lemma node_at_subseteq (fs fs' : gmap (list (list N)) node) (k : list (list N))
    (n : node) :
  fs ⊆ fs' -> node_at fs k = Some n -> node_at fs' k = Some n.
Proof.
  intros Hsub. destruct k; [done|]. cbn. intros Hk. by eapply lookup_weaken.
Qed.

Lemma walk_subseteq (fs fs' : gmap (list (list N)) node) (cs cur k : list (list N))
    (n : node) :
  fs ⊆ fs' -> walk fs cur cs = Found k n -> walk fs' cur cs = Found k n.
Proof.
  intros Hsub. revert cur. induction cs as [|c cs IH]; intros cur; cbn [walk].
  - destruct (node_at fs cur) as [m|] eqn:E; [|done]. intros [= <- <-].
    by rewrite (node_at_subseteq _ _ _ _ Hsub E).
  - destruct (node_at fs cur) as [[| |]|] eqn:E; try done.
    rewrite (node_at_subseteq _ _ _ _ Hsub E). apply IH.
Qed.

(** Changing what is at a key that holds no directory leaves the walks
    that end elsewhere as they were. *)
Lemma walk_other_key (fs fs' : gmap (list (list N)) node) (k0 : list (list N)) :
  node_at fs k0 <> Some Dir ->
  (forall k', k' <> k0 -> fs' !! k' = fs !! k') ->
  forall cs cur k n,
    walk fs cur cs = Found k n -> k <> k0 -> walk fs' cur cs = Found k n.
Proof.
  intros Hk0 Hsame.
  assert (forall k, k <> k0 -> node_at fs' k = node_at fs k) as Hnode.
  { intros [|x k] Hk; [done|]. cbn. by apply Hsame. }
  induction cs as [|c cs IH]; intros cur k n; cbn [walk].
  - destruct (node_at fs cur) as [m|] eqn:E; [|done]. intros [= <- <-] Hk.
    by rewrite Hnode, E.
  - destruct (node_at fs cur) as [[| |]|] eqn:E; try done. intros Hw Hk.
    rewrite Hnode, E; [by apply IH|]. intros ->. done.
Qed.

Lemma walk_last_key (fs : gmap (list (list N)) node) (cs : list (list N))
    (c : list N) (cur k : list (list N)) :
  c <> lit ".." ->
  (walk fs cur (cs ++ [c]) = Missing k
   \/ exists n, walk fs cur (cs ++ [c]) = Found k n) ->
  last k = Some c.
Proof.
  intros Hc. revert cur. induction cs as [|c0 cs IH]; intros cur; cbn [app walk].
  - rewrite step_plain by done.
    destruct (node_at fs cur) as [[| |]|];
      try (intros [? | [? ?]]; congruence).
    destruct (node_at fs (cur ++ [c])); intros [E | [m E]]; try congruence;
      injection E as <-; try intros <-; apply last_snoc.
  - destruct (node_at fs cur) as [[| |]|];
      try (intros [? | [? ?]]; congruence).
    apply IH.
Qed.

Section RunFacts.
Context `{Env}.
Variable self : SynthesisWorker.

(** *** The first loop only removes *)

Lemma only_removed_refl (w : World) : only_removed w w.
Proof. split; [done|]. split; [by intros k Hk | done]. Qed.

Lemma only_removed_trans (w1 w2 w3 : World) :
  only_removed w1 w2 -> only_removed w2 w3 -> only_removed w1 w3.
Proof.
  intros (Hs1 & Hd1 & Hc1 & Ht1 & Hp1) (Hs2 & Hd2 & Hc2 & Ht2 & Hp2).
  split; [by etrans|]. split; [intros k Hk; by apply Hd2, Hd1|].
  split; [congruence|]. split; congruence.
Qed.

Lemma only_removed_emit (msg : list N) (w : World) : only_removed w (emit msg w).
Proof. split; [done|]. split; [by intros k Hk | done]. Qed.

(** What one round of the first loop does to the world: nothing but a log
    line, or the removal of the file the old path of a changed row
    resolves to. *)
Lemma diff_row_world (base : Path) (m : gmap (list N) (list N))
    (acc : list CsvRow * list CsvRow) (row : CsvRow) (w : World) :
  let w' := world_of (diff_row base m acc row w) in
  same_but_log w w'
  \/ (changed_row m row = true
      /\ exists k n,
           resolve w (old_file_of base row) = Found k n /\ n <> Dir
           /\ fs w' = delete k (fs w)
           /\ cwd w' = cwd w /\ tts w' = tts w /\ spoken w' = spoken w).
Proof.
  cbn zeta. destruct acc as [c n0].
  destruct (row_class_cases m row)
    as [(Hn & _) | [(_ & Hc & _) | (_ & _ & Hu)]].
  - rewrite diff_row_new by done. by left.
  - rewrite diff_row_changed by done. cbn zeta.
    destruct (exists_cases (old_file_of base row)
                (emit (path row
                   ++ lit " text to play has changed. Removing old audio file.") w))
      as [-> | [-> _]]; [|by left].
    rewrite path_exists_emit.
    destruct (path_exists w (old_file_of base row)) eqn:Hex; [|by left].
    unfold path_exists in Hex. unfold unlink_missing_ok. rewrite resolve_emit.
    destruct (resolve w (old_file_of base row)) as [k [|s|sz]| | |] eqn:Hr;
      try done; try (by left);
      right; (split; [done|]); eexists k, _; (split; [reflexivity|]); done.
  - rewrite diff_row_unchanged by done. by left.
Qed.

Lemma diff_row_only_removes (base : Path) (m : gmap (list N) (list N))
    (acc : list CsvRow * list CsvRow) (row : CsvRow) (w : World) :
  only_removed w (world_of (diff_row base m acc row w)).
Proof.
  destruct (diff_row_world base m acc row w)
    as [(Hf & Hc & Ht & Hs) | (_ & k & n & Hr & Hn & Hf & Hc & Ht & Hs)].
  - split; [by rewrite Hf|]. split; [intros k Hk; by rewrite Hf | done].
  - split; [rewrite Hf; apply delete_subseteq|]. split; [|done].
    intros k' Hk'. rewrite Hf. rewrite lookup_delete_ne; [done|].
    intros <-. apply walk_found_node in Hr.
    assert (k <> []) as Hne.
    { intros ->. cbn in Hr. congruence. }
    destruct k; [done|]. cbn in Hr. congruence.
Qed.

Lemma diff_rows_only_remove (base : Path) (m : gmap (list N) (list N))
    (rows : list CsvRow) :
  forall (acc : list CsvRow * list CsvRow) (w : World),
    only_removed w (world_of (foldM (diff_row base m) acc rows w)).
Proof.
  induction rows as [|row rows IH]; intros acc w; [apply only_removed_refl|].
  rewrite foldM_cons.
  pose proof (diff_row_only_removes base m acc row w) as H1.
  destruct (diff_row base m acc row w) as [acc' w1|e w1]; [|exact H1].
  eapply only_removed_trans; [exact H1 | apply IH].
Qed.

(** X5.  The change detection loop of [_run_impl] only removes: whether
    it returns or raises, every entry of the file system afterwards was
    there before with the same content, every directory is kept, and the
    speech service is not called. *)
Theorem change_detection_only_removes (base_output : Path)
    (last_map : gmap (list N) (list N)) (current_rows : list CsvRow)
    (w : World) :
  let w' := world_of (diff_rows base_output last_map current_rows w) in
  fs w' ⊆ fs w
  /\ (forall k, fs w !! k = Some Dir -> fs w' !! k = Some Dir)
  /\ cwd w' = cwd w /\ tts w' = tts w /\ spoken w' = spoken w.
Proof. apply diff_rows_only_remove. Qed.

Lemma diff_rows_frame (base : Path) (m : gmap (list N) (list N))
    (rows : list CsvRow) :
  forall (acc : list CsvRow * list CsvRow) (w : World) (k : list (list N)),
    fs (world_of (foldM (diff_row base m) acc rows w)) !! k <> fs w !! k ->
    exists row n,
      row ∈ rows /\ changed_row m row = true
      /\ resolve w (old_file_of base row) = Found k n /\ n <> Dir.
Proof.
  induction rows as [|row rows IH]; intros acc w k; [done|].
  rewrite foldM_cons.
  pose proof (diff_row_world base m acc row w) as Hw. cbn zeta in Hw.
  pose proof (diff_row_only_removes base m acc row w) as (Hsub & _ & Hcwd & _).
  assert (forall w1, world_of (diff_row base m acc row w) = w1 ->
            fs w1 !! k <> fs w !! k ->
            exists row0 n,
              row0 ∈ row :: rows /\ changed_row m row0 = true
              /\ resolve w (old_file_of base row0) = Found k n /\ n <> Dir)
    as Hhere.
  { intros w1 <- Hk.
    destruct Hw as [(Hf & _) | (Hc & k0 & n & Hr & Hn & Hf & _)].
    - by rewrite Hf in Hk.
    - destruct (decide (k = k0)) as [-> | Hne].
      + exists row, n. split; [by left | done].
      + by rewrite Hf, lookup_delete_ne in Hk. }
  destruct (diff_row base m acc row w) as [acc' w1|e w1] eqn:E;
    cbn [world_of] in *; [|by apply (Hhere _ eq_refl)].
  intros Hk.
  destruct (decide (fs w1 !! k = fs w !! k)) as [Heq | Hne];
    [|by apply (Hhere _ eq_refl)].
  destruct (IH acc' w1 k) as (row0 & n & Hin & Hc & Hr & Hn);
    [by rewrite Heq|].
  exists row0, n. split; [by right|]. split; [done|]. split; [|done].
  unfold resolve in *. rewrite <- Hcwd. by eapply walk_subseteq.
Qed.

(** X6.  An entry that the change detection loop has changed is the file
    that the old output path of a changed current row resolves to: rows
    that are new or unchanged, and rows of the last run that are gone from
    the CSV file, cost no file. *)
Theorem change_detection_removes_old_audio_only (base_output : Path)
    (last_map : gmap (list N) (list N)) (current_rows : list CsvRow)
    (w : World) (k : list (list N)) :
  fs (world_of (diff_rows base_output last_map current_rows w)) !! k
    <> fs w !! k ->
  exists row n,
    row ∈ current_rows /\ changed_row last_map row = true
    /\ resolve w (old_file_of base_output row) = Found k n /\ n <> Dir.
Proof. apply diff_rows_frame. Qed.
End RunFacts.

Section LoopFacts.
Context `{Env}.
Variable self : SynthesisWorker.

Lemma same_but_log_refl (w : World) : same_but_log w w.
Proof. done. Qed.

Lemma same_but_log_emit (msg : list N) (w w' : World) :
  same_but_log w w' -> same_but_log w (emit msg w').
Proof. done. Qed.

Lemma mkdir_parents_ok (p : Path) (w w1 : World) :
  mkdir_parents p w = Ok () w1 ->
  fs w ⊆ fs w1 /\ cwd w1 = cwd w /\ tts w1 = tts w /\ spoken w1 = spoken w
  /\ emitted w1 = emitted w.
Proof.
  intros (t & E & ->)%mkdir_parents_inv.
  split; [by eapply mkdirs_subseteq | done].
Qed.

Lemma mkdir_parents_raises (p : Path) (w w1 : World) (e : exn) :
  mkdir_parents p w = Raise e w1 -> w1 = w.
Proof.
  apply mkdir_parents_failed.
Qed.

Lemma synthesize_row_unsafe (base_output : Path) (failed_outputs : list (list N))
    (row : CsvRow) (w : World) :
  unsafe_path (safe_relative_path_of row) = true ->
  synthesize_row self base_output failed_outputs row w
  = Ok failed_outputs (emit (lit "Skipping unsafe CSV path: " ++ path row) w).
Proof.
  unfold unsafe_path, safe_relative_path_of, synthesize_row. cbn zeta.
  by intros ->.
Qed.

Lemma synthesize_rows_all_present (base_output : Path) (rows : list CsvRow) :
  forall (failed_outputs : list (list N)) (w : World),
    Forall (fun row =>
              unsafe_path (safe_relative_path_of row) = true
              \/ (path_exists w (output_file_of base_output row) = true
                  /\ comps (output_file_of base_output row) <> [])) rows ->
    exists w',
      foldM (synthesize_row self base_output) failed_outputs rows w
      = Ok failed_outputs w'
      /\ same_but_log w w'
      /\ length (emitted w') = (length (emitted w) + length rows)%nat.
Proof.
  induction rows as [|row rows IH]; intros failed_outputs w Hall.
  { exists w. cbn. split; [done|]. split; [done | lia]. }
  apply Forall_cons in Hall as [Hrow Hrest]. rewrite foldM_cons.
  assert (exists msg, synthesize_row self base_output failed_outputs row w
                      = Ok failed_outputs (emit msg w)) as [msg ->].
  { destruct (unsafe_path (safe_relative_path_of row)) eqn:Hu.
    - eexists. by apply synthesize_row_unsafe.
    - destruct Hrow as [? | [Hex Hne]]; [done|]. eexists.
      by apply synthesize_row_existing. }
  destruct (IH failed_outputs (emit msg w)) as (w' & -> & Hsame & Hlen).
  { eapply Forall_impl; [exact Hrest|]. intros r Hr. exact Hr. }
  exists w'. split; [done|]. split; [exact Hsame|].
  rewrite Hlen. cbn. rewrite length_app. cbn. lia.
Qed.

(** X7.  When every target row is unsafe or has its output file already
    (an output path of one component at least), the synthesis loop returns
    no failure, calls the speech service not once, leaves the file system
    as it is and logs one line for each row. *)
Theorem present_outputs_need_no_call (base_output : Path) (rows : list CsvRow)
    (w : World) :
  Forall (fun row =>
            unsafe_path (safe_relative_path_of row) = true
            \/ (path_exists w (output_file_of base_output row) = true
                /\ comps (output_file_of base_output row) <> [])) rows ->
  exists w',
    synthesize_rows self base_output rows w = Ok [] w'
    /\ fs w' = fs w /\ spoken w' = spoken w /\ tts w' = tts w
    /\ length (emitted w') = (length (emitted w) + length rows)%nat.
Proof.
  intros Hall.
  destruct (synthesize_rows_all_present base_output rows [] w Hall)
    as (w' & Hrun & (Hfs & _ & Htts & Hsp) & Hlen).
  exists w'. done.
Qed.

(** *** The verdict of the retry loop *)

Lemma attempt_accepted (p : Path) (result : option ResultReason) (w : World) :
  attempt_failed p result w = false ->
  result = Some SynthesizingAudioCompleted
  /\ path_exists w p = true /\ 1024 <= st_size w p.
Proof.
  unfold attempt_failed. destruct result as [reason|]; [|done].
  destruct (decide (reason = SynthesizingAudioCompleted)) as [-> | ?]; [|done].
  intros [Hex Hsz]%orb_false_elim. apply negb_false_iff in Hex.
  apply N.ltb_ge in Hsz. done.
Qed.

Lemma retry_loop_verdict_step (p : Path) (ssml : list N)
    (failed_outputs : list (list N)) (k : list (list N))
    (retry_count bound : nat) :
  refusal p = None ->
  ((3 <=? S retry_count)%nat = false ->
   forall w, audio_slot w p k ->
             loop_verdict p ssml failed_outputs k bound w
               (retry_loop p ssml failed_outputs (S retry_count) w)) ->
  ((3 <=? S retry_count)%nat = true -> bound = 0%nat) ->
  forall w, audio_slot w p k ->
            loop_verdict p ssml failed_outputs k (S bound) w
              (retry_loop p ssml failed_outputs retry_count w).
Proof.
  intros Hr Hnext Hlast w Hs. rewrite retry_round. cbn zeta.
  destruct (speak_slot p ssml w k Hs) as (Hs1 & Ho1 & _).
  destruct (attempt_failed _ _ _) eqn:Hatt.
  - destruct (3 <=? S retry_count)%nat eqn:E.
    + destruct (retry_limit_slot p failed_outputs
                  (emit (failure_line p (S retry_count) (speak p ssml w).1)
                     (speak p ssml w).2) k (ssml, path_str p) Hr)
        as (w' & -> & Hm & Ho2); [by apply audio_slot_emit|].
      exists (failed_outputs ++ [path_str p]), w', 1%nat.
      split; [done|]. split; [lia|]. split.
      { eapply (only_at_trans _ _ 1 0); [|exact Ho2]. by apply only_at_emit. }
      split; [by left|]. right. split; [done|].
      split; [by rewrite (Hlast eq_refl)|].
      unfold path_exists. by rewrite Hm.
    + destruct (Hnext eq_refl _ (audio_slot_emit
                  (failure_line p (S retry_count) (speak p ssml w).1) _ _ _ Hs1))
        as (f' & w' & n & -> & Hn & Ho2 & Hs2 & Hv).
      exists f', w', (1 + n)%nat. split; [done|]. split; [lia|]. split.
      { eapply only_at_trans; [|exact Ho2]. by apply only_at_emit. }
      split; [done|].
      destruct Hv as [Hv | (Hf & -> & Hgone)]; [by left | by right].
  - apply attempt_accepted in Hatt as (_ & Hex & Hsz).
    eexists failed_outputs, _, 1%nat. split; [reflexivity|]. split; [lia|].
    split; [by apply only_at_emit|]. split; [by apply audio_slot_emit|].
    left. done.
Qed.

Lemma retry_loop_verdict (p : Path) (ssml : list N)
    (failed_outputs : list (list N)) (k : list (list N)) (w : World) :
  refusal p = None ->
  audio_slot w p k ->
  loop_verdict p ssml failed_outputs k 3 w (retry_loop p ssml failed_outputs 0 w).
Proof.
  intros Hr. revert w. apply retry_loop_verdict_step; [done| |done]. intros _.
  apply retry_loop_verdict_step; [done| |done]. intros _.
  apply retry_loop_verdict_step; [done | done | done].
Qed.

(** X8.  For a target row with a safe path, once the directory of the
    output file is made and [exists()] has answered that the output file is
    not there, the row ends in one of three ways, whatever the speech
    service does, after three calls at most: the failure list is unchanged
    and the output file exists with 1024 bytes at least; or the output path
    is one that a file system can hold, it is appended to the failure list,
    exactly three calls have been made and the output file is absent; or
    the output path is one that no file system can hold (it has a NUL
    character, or the operating system turns it down), exactly three calls
    have been made, no file is there, and the removal of the partial file
    raises the error for such a path, [ValueError] for a NUL character, with
    which the row and the loop end. *)
Theorem synthesis_ends_in_one_of_three_ways (base_output : Path)
    (failed_outputs : list (list N)) (row : CsvRow) (w w1 : World) :
  let output_file := output_file_of base_output row in
  let o := synthesize_row self base_output failed_outputs row w in
  unsafe_path (safe_relative_path_of row) = false ->
  mkdir_parents (path_parent output_file) w = Ok () w1 ->
  exists_ output_file w1 = Ok false w1 ->
  exists n,
    spoken (world_of o)
    = spoken w ++ replicate n (ssml_of self row, path_str output_file)
    /\ ((o = Ok failed_outputs (world_of o) /\ (1 <= n <= 3)%nat
         /\ path_exists (world_of o) output_file = true
         /\ 1024 <= st_size (world_of o) output_file)
        \/ (o = Ok (failed_outputs ++ [path_str output_file]) (world_of o)
            /\ refusal output_file = None /\ n = 3%nat
            /\ path_exists (world_of o) output_file = false)
        \/ (exists e,
              o = Raise e (world_of o)
              /\ refusal output_file = Some e
              /\ (has_nul output_file = true ->
                  e = ValueError (lit "embedded null byte"))
              /\ n = 3%nat
              /\ path_exists (world_of o) output_file = false)).
Proof.
  intros output_file o Hsafe Hmk Hno. subst o.
  rewrite (synthesize_row_missing self base_output failed_outputs row w w1)
    by done.
  destruct (exists_false _ _ _ Hno) as (_ & Hmiss).
  destruct (slot_after_mkdir _ _ _ Hmk Hmiss) as (_ & _ & k & Hk).
  apply mkdir_parents_ok in Hmk as (_ & _ & _ & Hsp & _).
  fold output_file in Hmiss, Hk |- *.
  set (w2 := emit (lit "Synthesizing " ++ path_str output_file ++ lit "...") w1).
  destruct (refusal output_file) as [e|] eqn:Hr.
  - destruct (retry_refused output_file (ssml_of self row) failed_outputs e w2
                Hmiss Hr) as (w' & -> & _ & _ & Hcalls & Hgone).
    exists 3%nat. cbn [world_of].
    split; [by rewrite Hcalls; unfold w2; cbn [emit spoken]; rewrite Hsp|].
    right; right. exists e. split; [done|]. split; [done|]. split; [|done].
    intros Hnul. unfold refusal in Hr. rewrite Hnul in Hr. by injection Hr as <-.
  - destruct (retry_loop_verdict output_file (ssml_of self row) failed_outputs k
                w2 Hr)
      as (failed' & w' & n & -> & Hn & (_ & _ & Hcalls) & _ & Hv); [by left|].
    exists n. cbn [world_of].
    split; [by rewrite Hcalls; unfold w2; cbn [emit spoken]; rewrite Hsp|].
    destruct Hv as [(-> & Hex & Hsz) | (-> & -> & Hgone)];
      [left | right; left]; done.
Qed.

(** *** Bounds on the whole loop *)

Lemma synthesize_row_outcome (base_output : Path)
    (failed_outputs : list (list N)) (row : CsvRow) (w : World) :
  let o := synthesize_row self base_output failed_outputs row w in
  (length (spoken (world_of o)) <= length (spoken w) + 3)%nat
  /\ forall failed' w',
       o = Ok failed' w' ->
       failed' = failed_outputs
       \/ (failed' = failed_outputs ++ [path_str (output_file_of base_output row)]
           /\ unsafe_path (safe_relative_path_of row) = false).
Proof.
  cbn zeta.
  destruct (unsafe_path (safe_relative_path_of row)) eqn:Hu.
  { rewrite synthesize_row_unsafe by done. cbn. split; [lia|].
    intros ? ? [= <- _]. by left. }
  rewrite synthesize_row_steps by exact Hu.
  destruct (mkdir_parents (path_parent (output_file_of base_output row)) w)
    as [[] w1|e w1] eqn:Hmk.
  2:{ apply mkdir_parents_raises in Hmk as ->. cbn. split; [lia | done]. }
  pose proof (mkdir_parents_ok _ _ _ Hmk) as (_ & _ & _ & Hsp & _).
  destruct (exists_cases (output_file_of base_output row) w1) as [-> | [-> _]].
  2:{ cbn. rewrite Hsp. split; [lia | done]. }
  destruct (path_exists w1 (output_file_of base_output row)) eqn:Hex.
  { cbn. rewrite Hsp. split; [lia|]. intros ? ? [= <- _]. by left. }
  destruct (slot_after_mkdir _ _ _ Hmk Hex) as (_ & _ & k & Hk).
  destruct (refusal (output_file_of base_output row)) as [e|] eqn:Hr.
  { destruct (retry_refused (output_file_of base_output row) (ssml_of self row)
                failed_outputs e
                (emit (lit "Synthesizing "
                         ++ path_str (output_file_of base_output row)
                         ++ lit "...") w1) Hex Hr)
      as (w' & -> & _ & _ & Hcalls & _).
    cbn [world_of]. rewrite Hcalls. cbn [emit spoken].
    rewrite Hsp, length_app, length_replicate. split; [lia | done]. }
  destruct (retry_loop_verdict (output_file_of base_output row)
              (ssml_of self row) failed_outputs k
              (emit (lit "Synthesizing "
                       ++ path_str (output_file_of base_output row)
                       ++ lit "...") w1) Hr)
    as (failed' & w' & n & -> & Hn & (_ & _ & Hcalls) & _ & Hv);
    [by left|].
  cbn [world_of]. rewrite Hcalls. cbn [emit spoken].
  rewrite Hsp, length_app, length_replicate. split; [lia|].
  intros ? ? [= <- _].
  destruct Hv as [(-> & _) | (-> & _)]; [by left | by right].
Qed.

(** The paths of the rows the loop may record as failed. *)
Lemma synthesize_rows_from (base_output : Path) (rows : list CsvRow) :
  forall (failed_outputs : list (list N)) (w : World),
    let o := foldM (synthesize_row self base_output) failed_outputs rows w in
    (length (spoken (world_of o)) <= length (spoken w) + 3 * length rows)%nat
    /\ forall failed' w',
         o = Ok failed' w' ->
         exists more,
           failed' = failed_outputs ++ more
           /\ more `sublist_of`
                map (fun row => path_str (output_file_of base_output row))
                  (List.filter
                     (fun row => negb (unsafe_path (safe_relative_path_of row)))
                     rows).
Proof.
  induction rows as [|row rows IH]; intros failed_outputs w; cbn zeta.
  { cbn. split; [lia|]. intros ? ? [= <- _]. exists []. by rewrite app_nil_r. }
  rewrite foldM_cons.
  pose proof (synthesize_row_outcome base_output failed_outputs row w)
    as [Hcalls Hshape]. cbn zeta in Hcalls, Hshape.
  destruct (synthesize_row self base_output failed_outputs row w)
    as [f1 w1|e w1].
  2:{ cbn [world_of] in *. split; [cbn [length]; lia | done]. }
  cbn [world_of] in Hcalls.
  destruct (IH f1 w1) as [Hcalls' Hshape']. cbn zeta in Hcalls', Hshape'.
  split; [cbn [length]; lia|].
  intros failed' w' Hrun.
  destruct (Hshape' _ _ Hrun) as (more & -> & Hsub).
  cbn [List.filter].
  destruct (Hshape _ _ eq_refl) as [-> | [-> Hsafe]].
  - exists more. split; [done|].
    destruct (negb _); [cbn [map]; by apply sublist_cons | done].
  - rewrite Hsafe. cbn [negb map].
    exists (path_str (output_file_of base_output row) :: more).
    split; [by rewrite <- List.app_assoc | by apply sublist_skip].
Qed.

(** X9.  The synthesis loop calls the speech service three times for each
    target row at most, whether it returns or raises; when it returns, the
    failure list is a sublist, in the order of the rows, of the output paths
    of the target rows with a safe path, so it is no longer than the target
    rows. *)
Theorem failures_are_outputs_of_target_rows (base_output : Path)
    (target_rows : list CsvRow) (w : World) :
  let o := synthesize_rows self base_output target_rows w in
  (length (spoken (world_of o))
   <= length (spoken w) + 3 * length target_rows)%nat
  /\ forall failed_outputs w',
       o = Ok failed_outputs w' ->
       failed_outputs
         `sublist_of`
           map (fun row => path_str (output_file_of base_output row))
             (List.filter
                (fun row => negb (unsafe_path (safe_relative_path_of row)))
                target_rows)
       /\ (length failed_outputs <= length target_rows)%nat.
Proof.
  cbn zeta. unfold synthesize_rows.
  destruct (synthesize_rows_from base_output target_rows [] w) as [Hcalls Hshape].
  cbn zeta in Hcalls, Hshape. split; [exact Hcalls|].
  intros failed_outputs w' Hrun.
  destruct (Hshape _ _ Hrun) as (more & -> & Hsub). cbn [app].
  split; [exact Hsub|].
  apply sublist_length in Hsub. rewrite length_map in Hsub.
  etrans; [exact Hsub|]. apply List.filter_length_le.
Qed.
End LoopFacts.

Section ServiceFacts.
Context `{Env}.
Variable self : SynthesisWorker.

Lemma grows_refl (w : World) : grows w w.
Proof. split; [done|]. intros k n Hk. by exists n. Qed.

Lemma grows_emit (msg : list N) (w : World) : grows w (emit msg w).
Proof. split; [done|]. intros k n Hk. by exists n. Qed.

Lemma grows_trans (w1 w2 w3 : World) : grows w1 w2 -> grows w2 w3 -> grows w1 w3.
Proof.
  intros [Hc1 Hg1] [Hc2 Hg2]. split; [congruence|]. intros k n Hk.
  destruct (Hg1 k n Hk) as (n' & Hk' & Hd').
  destruct (Hg2 k n' Hk') as (n'' & Hk'' & Hd'').
  exists n''. split; [done|]. intros Hn. by apply Hd'', Hd'.
Qed.

Lemma grows_subseteq (w w' : World) :
  fs w ⊆ fs w' -> cwd w' = cwd w -> grows w w'.
Proof.
  intros Hsub Hc. split; [done|]. intros k n Hk. exists n.
  split; [by eapply lookup_weaken | done].
Qed.

Lemma path_exists_grows (w w' : World) (p : Path) :
  grows w w' -> path_exists w p = true -> path_exists w' p = true.
Proof.
  intros [Hc Hg]. unfold path_exists, resolve. rewrite Hc.
  generalize (if is_absolute p then [] else cwd w). intros cur.
  assert (forall k n, node_at (fs w) k = Some n ->
            exists n', node_at (fs w') k = Some n' /\ (n = Dir -> n' = Dir))
    as Hnode.
  { intros [|x k] n; [intros [= <-]; by exists Dir | apply Hg]. }
  revert cur. induction (comps p) as [|c cs IH]; intros cur; cbn [walk].
  - destruct (node_at (fs w) cur) as [n|] eqn:E; [|done].
    destruct (Hnode _ _ E) as (n' & -> & _). done.
  - destruct (node_at (fs w) cur) as [[| |]|] eqn:E; try done.
    destruct (Hnode _ _ E) as (n' & -> & Hd). rewrite (Hd eq_refl). apply IH.
Qed.

(** A call of a service that completes, for a file that is not there. *)
Lemma speak_completes (p : Path) (ssml : list N) (w : World)
    (k : list (list N)) :
  service_completes -> refusal p = None -> resolve w p = Missing k ->
  exists n,
    1024 <= n
    /\ (speak p ssml w).1 = Some SynthesizingAudioCompleted
    /\ fs (speak p ssml w).2 = <[k := Audio n]> (fs w)
    /\ resolve (speak p ssml w).2 p = Found k (Audio n)
    /\ cwd (speak p ssml w).2 = cwd w
    /\ spoken (speak p ssml w).2 = spoken w ++ [(ssml, path_str p)].
Proof.
  intros Hsvc Hfree Hr. unfold speak.
  destruct (Hsvc (tts w) ssml (path_str p)) as (t' & n & -> & Hn).
  exists n. cbn [fst snd fs cwd spoken]. unfold apply_effect.
  rewrite Hr, Hfree.
  split; [done|]. split; [done|]. split; [done|]. split; [|done].
  unfold resolve in *. cbn [fs cwd].
  pose proof (walk_missing_node _ _ _ _ Hr) as Hnone.
  rewrite (walk_change_file (fs w) (<[k := Audio n]> (fs w)) k).
  - destruct k as [|x k]; [done|]. cbn [node_at]. by rewrite lookup_insert_eq.
  - congruence.
  - intros k' Hk'. by rewrite lookup_insert_ne.
  - by left.
Qed.

Lemma synthesize_row_completes (base_output : Path)
    (failed_outputs failed' : list (list N)) (row : CsvRow) (w w' : World) :
  service_completes ->
  synthesize_row self base_output failed_outputs row w = Ok failed' w' ->
  failed' = failed_outputs
  /\ grows w w'
  /\ (unsafe_path (safe_relative_path_of row) = true
      \/ path_exists w' (output_file_of base_output row) = true)
  /\ (length (spoken w') <= length (spoken w) + 1)%nat.
Proof.
  intros Hsvc.
  destruct (unsafe_path (safe_relative_path_of row)) eqn:Hu.
  { rewrite synthesize_row_unsafe by done. intros [= <- <-].
    split; [done|]. split; [apply grows_emit|]. split; [by left | cbn; lia]. }
  rewrite synthesize_row_steps by exact Hu.
  destruct (mkdir_parents (path_parent (output_file_of base_output row)) w)
    as [[] w1|e w1] eqn:Hmk; [|done].
  pose proof (mkdir_parents_ok _ _ _ Hmk) as (Hsub & Hcwd & _ & Hsp & _).
  assert (grows w w1) as Hg1 by by apply grows_subseteq.
  destruct (exists_cases (output_file_of base_output row) w1) as [-> | [-> _]];
    [|done].
  destruct (path_exists w1 (output_file_of base_output row)) eqn:Hex.
  - intros [= <- <-].
    split; [done|]. split; [exact Hg1|]. split; [by right|].
    cbn. rewrite Hsp. lia.
  - destruct (slot_after_mkdir _ _ _ Hmk Hex) as (_ & _ & k & Hk).
    set (w2 := emit _ w1).
    destruct (refusal (output_file_of base_output row)) as [e|] eqn:Hr.
    { by destruct (retry_refused (output_file_of base_output row)
                     (ssml_of self row) failed_outputs e w2 Hex Hr)
        as (w'' & -> & _). }
    destruct (speak_completes (output_file_of base_output row)
                (ssml_of self row) w2 k Hsvc Hr Hk)
      as (n & Hn & Hres & Hfs & Hfound & Hc3 & Hsp3).
    rewrite retry_round. cbn zeta.
    assert (attempt_failed (output_file_of base_output row)
              (speak (output_file_of base_output row) (ssml_of self row) w2).1
              (speak (output_file_of base_output row) (ssml_of self row) w2).2
            = false) as ->.
    { unfold attempt_failed. rewrite Hres. rewrite decide_True by done.
      unfold path_exists, st_size. rewrite Hfound. cbn.
      by apply N.ltb_ge. }
    intros [= <- <-]. split; [done|]. split; [|split].
    + eapply grows_trans; [exact Hg1|].
      split; [transitivity (cwd w2); [exact Hc3 | done]|].
      intros k' n' Hk'. cbn [emit fs]. rewrite Hfs.
      destruct (decide (k' = k)) as [-> | Hne].
      * exfalso. apply walk_missing_node in Hk.
        destruct k; [done|]. cbn in Hk. subst w2. cbn in Hk. congruence.
      * exists n'. by rewrite lookup_insert_ne.
    + right. unfold path_exists. rewrite resolve_emit. by rewrite Hfound.
    + cbn [emit spoken]. rewrite Hsp3. subst w2. cbn [emit spoken].
      rewrite Hsp, length_app. cbn. lia.
Qed.

Lemma synthesize_rows_complete (base_output : Path) (rows : list CsvRow) :
  forall (failed_outputs failed' : list (list N)) (w w' : World),
    service_completes ->
    foldM (synthesize_row self base_output) failed_outputs rows w
    = Ok failed' w' ->
    failed' = failed_outputs
    /\ grows w w'
    /\ Forall (fun row =>
                 unsafe_path (safe_relative_path_of row) = true
                 \/ path_exists w' (output_file_of base_output row) = true)
         rows
    /\ (length (spoken w') <= length (spoken w) + length rows)%nat.
Proof.
  induction rows as [|row rows IH]; intros failed_outputs failed' w w' Hsvc.
  { intros [= <- <-]. split; [done|]. split; [apply grows_refl|].
    split; [done | cbn; lia]. }
  rewrite foldM_cons.
  destruct (synthesize_row self base_output failed_outputs row w)
    as [f1 w1|e w1] eqn:Hrow; [|done].
  destruct (synthesize_row_completes _ _ _ _ _ _ Hsvc Hrow)
    as (-> & Hg1 & Hthere & Hsp1).
  intros Hrest.
  destruct (IH _ _ _ _ Hsvc Hrest) as (-> & Hg2 & Hall & Hsp2).
  split; [done|]. split; [by eapply grows_trans|]. split; [|cbn [length]; lia].
  apply Forall_cons. split; [|exact Hall].
  destruct Hthere as [? | Hex]; [by left | right].
  by eapply path_exists_grows.
Qed.

(** X10.  With a speech service that completes every call with a file of
    1024 bytes at least, a synthesis loop that returns has no failure, has
    called the service once for each row at most, and leaves the output path
    of every target row with a safe path in existence. *)
Theorem reliable_service_leaves_no_failure (base_output : Path)
    (target_rows : list CsvRow) (failed_outputs : list (list N))
    (w w' : World) :
  service_completes ->
  synthesize_rows self base_output target_rows w = Ok failed_outputs w' ->
  failed_outputs = []
  /\ Forall (fun row =>
               unsafe_path (safe_relative_path_of row) = true
               \/ path_exists w' (output_file_of base_output row) = true)
       target_rows
  /\ (length (spoken w') <= length (spoken w) + length target_rows)%nat.
Proof.
  intros Hsvc Hrun.
  destruct (synthesize_rows_complete _ _ _ _ _ _ Hsvc Hrun)
    as (-> & _ & Hall & Hsp).
  done.
Qed.

(** *** The commit *)

Lemma write_text_ok (p : Path) (content : list N) (w w1 : World) :
  write_text p content w = Ok () w1 ->
  exists k,
    file_slot (fs w) (if is_absolute p then [] else cwd w) (comps p) k
    /\ w1 = set_fs (<[k := Text content]> (fs w)) w.
Proof.
  unfold write_text, resolve.
  destruct (walk (fs w) (if is_absolute p then [] else cwd w) (comps p))
    as [k n| k | |] eqn:E.
  - destruct n as [|s|n]; [discriminate| |]; intros [= <-]; exists k;
      (split; [right; eexists; (split; [|exact E]); discriminate | done]).
  - destruct (refusal p); [done|]. intros [= <-]. exists k.
    split; [by left | done].
  - by destruct (refusal p).
  - by destruct (refusal p).
Qed.

Lemma read_text_ok (p : Path) (content : list N) (w w1 : World) :
  read_text p w = Ok content w1 ->
  w1 = w /\ exists k, resolve w p = Found k (Text content).
Proof.
  unfold read_text.
  destruct (resolve w p) as [k [|s|n]| | |];
    try discriminate; try (by destruct (refusal p)).
  intros [= <- <-]. eauto.
Qed.

Lemma read_text_found (p : Path) (content : list N) (w : World)
    (k : list (list N)) :
  resolve w p = Found k (Text content) -> read_text p w = Ok content w.
Proof. unfold read_text. by intros ->. Qed.

Lemma last_csv_path_comps :
  comps (last_csv_path_of self)
  = (comps (app_root self) ++ [lit "data"]) ++ [lit "lastCsvData.csv"].
Proof. reflexivity. Qed.

Lemma settings_path_comps :
  comps (settings_path_of self)
  = comps (base_output_of self) ++ [lit "settings.json"].
Proof. reflexivity. Qed.

Lemma commit_ok (current_rows : list CsvRow) (w w' : World) :
  commit self [] current_rows w = Ok () w' ->
  exists w1 w2,
    _write_rows (last_csv_path_of self) current_rows w = Ok () w1
    /\ write_text (settings_path_of self)
         (json_dumps {| s_style := style self; s_multiplier := speed self;
                        s_trailingSilence := post_silence self;
                        s_leadingSilence := pre_silence self |}) w1
       = Ok () w2
    /\ w' = emit (lit "Settings saved to " ++ path_str (settings_path_of self))
              w2.
Proof.
  unfold commit. cbn [truthy]. munfold.
  destruct (_write_rows _ _ w) as [[] w1|e w1] eqn:E1; [|done].
  destruct (write_text _ _ w1) as [[] w2|e w2] eqn:E2; [|done].
  intros [= <-]. by exists w1, w2.
Qed.

(** After a commit the snapshot reads back and the settings are there. *)
Lemma commit_leaves (current_rows : list CsvRow) (w w' : World) :
  Forall clean_row current_rows ->
  commit self [] current_rows w = Ok () w' ->
  _read_csv_rows (last_csv_path_of self) w' = Ok current_rows w'
  /\ read_text (settings_path_of self) w'
     = Ok (json_dumps {| s_style := style self; s_multiplier := speed self;
                         s_trailingSilence := post_silence self;
                         s_leadingSilence := pre_silence self |}) w'.
Proof.
  intros Hclean (w1 & w2 & Hsnap & Hset & ->)%commit_ok.
  pose proof (write_text_then_read _ _ _ _ Hset) as Hread2.
  unfold _write_rows in Hsnap.
  pose proof (write_text_then_read _ _ _ _ Hsnap) as Hread1.
  apply read_text_ok in Hread1 as (_ & kl & Hkl).
  apply read_text_ok in Hread2 as (_ & ks & Hks).
  destruct (write_text_ok _ _ _ _ Hset) as (ks' & Hslot & Hw2).
  assert (last kl = Some (lit "lastCsvData.csv")) as Hlast_l.
  { unfold resolve in Hkl. rewrite last_csv_path_comps in Hkl.
    eapply walk_last_key; [|right; eexists; exact Hkl]. discriminate. }
  assert (last ks' = Some (lit "settings.json")) as Hlast_s.
  { unfold file_slot in Hslot. rewrite settings_path_comps in Hslot.
    eapply walk_last_key; [discriminate|].
    destruct Hslot as [Hm | (n & _ & Hf)]; [by left | right; eauto]. }
  assert (kl <> ks') as Hne.
  { intros ->. rewrite Hlast_l in Hlast_s. discriminate. }
  assert (resolve w2 (last_csv_path_of self)
          = Found kl (Text (write_rows_text current_rows))) as Hkl2.
  { unfold resolve in *. rewrite Hw2. cbn [set_fs fs cwd].
    eapply (walk_other_key (fs w1) _ ks'); [| |exact Hkl|exact Hne].
    - by eapply file_slot_node.
    - intros k' Hk'. by rewrite lookup_insert_ne. }
  split.
  - unfold _read_csv_rows. munfold.
    rewrite (read_text_found _ _ _ kl) by (by rewrite resolve_emit).
    by rewrite (read_written_rows _ Hclean).
  - apply (read_text_found _ _ _ ks). by rewrite resolve_emit.
Qed.

(** X11.  For current rows as the reader produces them, a commit without
    failures that returns leaves a snapshot that reads back as the current
    rows and a settings file that holds the serialised settings; it logs
    one line and calls no service. *)
Theorem commit_saves_snapshot_and_settings (current_rows : list CsvRow)
    (w w' : World) :
  Forall clean_row current_rows ->
  commit self [] current_rows w = Ok () w' ->
  _read_csv_rows (last_csv_path_of self) w' = Ok current_rows w'
  /\ read_text (settings_path_of self) w'
     = Ok (json_dumps {| s_style := style self; s_multiplier := speed self;
                         s_trailingSilence := post_silence self;
                         s_leadingSilence := pre_silence self |}) w'
  /\ emitted w'
     = emitted w
       ++ [lit "Settings saved to " ++ path_str (settings_path_of self)]
  /\ spoken w' = spoken w.
Proof.
  intros Hclean Hcommit.
  destruct (commit_leaves _ _ _ Hclean Hcommit) as [Hsnap Hset].
  split; [exact Hsnap|]. split; [exact Hset|].
  apply commit_ok in Hcommit as (w1 & w2 & Hw1 & Hw2 & ->).
  apply write_text_ok in Hw1 as (k1 & _ & ->).
  apply write_text_ok in Hw2 as (k2 & _ & ->). done.
Qed.

Lemma _read_csv_rows_ok (p : Path) (rows : list CsvRow) (w w' : World) :
  _read_csv_rows p w = Ok rows w' ->
  w' = w
  /\ exists content k,
       resolve w p = Found k (Text content)
       /\ read_rows_text content = Some rows.
Proof.
  unfold _read_csv_rows. munfold.
  destruct (read_text p w) as [content w1|e w1] eqn:E; [|done].
  apply read_text_ok in E as (-> & k & Hk).
  destruct (read_rows_text content) as [rows'|] eqn:Hrows; [|done].
  intros [= <- <-]. split; [done|]. by exists content, k.
Qed.

(** The rows a run works on are those of the CSV file once the output
    root is made. *)
Lemma synthesize_all_rows (rows : list CsvRow) (failed_outputs : list (list N))
    (w w2 : World) :
  synthesize_all self w = Ok (rows, failed_outputs) w2 ->
  exists w1,
    mkdir_parents (base_output_of self) w = Ok () w1
    /\ _read_csv_rows (csv_file_path self) w1 = Ok rows w1.
Proof.
  unfold synthesize_all. munfold. cbn zeta.
  destruct (mkdir_parents (base_output_of self) w) as [[] w1|] eqn:E1; [|done].
  unfold _resolve_csv_path at 1. cbn zeta.
  destruct (negb _ || negb _ || negb _)%bool; [done|].
  destruct (_read_csv_rows (csv_file_path self) _)
    as [current_rows wr|] eqn:E3; [|done].
  apply _read_csv_rows_ok in E3 as (-> & content & k & Hk & Hrows).
  destruct (mkdir_parents (path_join (app_root self) (parse_path (lit "data"))) _)
    as [[] wd|]; [|done].
  destruct (exists_ (last_csv_path_of self) wd) as [snapshot_exists we|];
    [|done].
  destruct (if snapshot_exists then _ else _) as [[] ws|]; [|done].
  destruct (_read_csv_rows (last_csv_path_of self) _) as [last_rows wl|]; [|done].
  destruct (diff_rows _ _ _ _) as [[changed_rows new_rows] wf|]; [|done].
  destruct (select_targets _ _ _ _) as [target_rows wt|]; [|done].
  destruct (synthesize_rows _ _ _ _) as [failed wz|]; [|done].
  intros [= <- <- <-]. exists w1. split; [done|].
  unfold _read_csv_rows. munfold. rewrite resolve_emit in Hk.
  by rewrite (read_text_found _ _ _ k Hk), Hrows.
Qed.

(** X12.  When [run] ends with [done], the synthesis loop had no failure,
    the snapshot reads back as the rows of the CSV file (as read once the
    output root was made), and the settings file holds the serialised
    settings. *)
Theorem done_means_everything_is_committed (w w' : World) :
  run self w = (done, w') ->
  exists current_rows w1 w2,
    mkdir_parents (base_output_of self) w = Ok () w1
    /\ _read_csv_rows (csv_file_path self) w1 = Ok current_rows w1
    /\ synthesize_all self w = Ok (current_rows, []) w2
    /\ _read_csv_rows (last_csv_path_of self) w' = Ok current_rows w'
    /\ read_text (settings_path_of self) w'
       = Ok (json_dumps {| s_style := style self; s_multiplier := speed self;
                           s_trailingSilence := post_silence self;
                           s_leadingSilence := pre_silence self |}) w'.
Proof.
  unfold run, _run_impl. munfold.
  destruct (synthesize_all self w) as [[current_rows failed_outputs] w2|e w2]
    eqn:Hall; [|by destruct e].
  destruct (commit self failed_outputs current_rows w2) as [[] wc|e wc]
    eqn:Hcommit; [|done].
  intros [= <-].
  assert (failed_outputs = []) as ->.
  { destruct failed_outputs; [done|]. unfold commit in Hcommit. done. }
  destruct (synthesize_all_rows _ _ _ _ Hall) as (w1 & Hmk & Hread).
  pose proof (_read_csv_rows_ok _ _ _ _ Hread) as (_ & content & k & _ & Hrows).
  apply read_rows_clean in Hrows.
  destruct (commit_leaves _ _ _ Hrows Hcommit) as [Hsnap Hset].
  by exists current_rows, w1, w2.
Qed.

(** X13.  Once a snapshot of the current rows is written, as on a first
    run, reading it and comparing the current rows with it gives no changed
    and no new row and touches nothing, for rows as the reader produces
    them in which no path occurs with two different texts. *)
Theorem snapshot_of_same_rows_shows_no_change (base_output last_csv_path : Path)
    (current_rows : list CsvRow) (w w1 : World) :
  Forall clean_row current_rows ->
  one_text_per_path current_rows ->
  _write_rows last_csv_path current_rows w = Ok () w1 ->
  (last_rows ← _read_csv_rows last_csv_path;
   diff_rows base_output (build_last_map last_rows) current_rows) w1
  = Ok ([], []) w1.
Proof.
  intros Hclean Hone Hwrite. munfold.
  rewrite (write_then_read _ _ _ _ (read_written_rows _ Hclean) Hwrite).
  by apply same_rows_unchanged.
Qed.

(** *** The CSV file *)

(** X14.  When [_resolve_csv_path] returns, it returns the configured path
    and has only logged one line; the suffix of the path is [.csv] once
    lowered, and the path resolves to something that is no directory. *)
Theorem resolved_csv_is_a_file (csv_path : Path) (w w' : World) :
  _resolve_csv_path self w = Ok csv_path w' ->
  csv_path = csv_file_path self
  /\ w' = emit (lit "Using CSV: " ++ path_str csv_path) w
  /\ lower (path_suffix csv_path) = lit ".csv"
  /\ exists k n, resolve w' csv_path = Found k n /\ n <> Dir.
Proof.
  unfold _resolve_csv_path. cbn zeta.
  destruct (path_exists w (csv_file_path self)) eqn:Hex; [|done].
  destruct (path_is_file w (csv_file_path self)) eqn:Hfile; [|done].
  destruct (str_eqb _ _) eqn:Hsuf; [|done]. cbn [negb orb].
  intros [= <- <-]. apply bool_decide_eq_true in Hsuf.
  split; [done|]. split; [done|]. split; [done|].
  rewrite resolve_emit. unfold path_is_file in Hfile.
  destruct (resolve w (csv_file_path self)) as [k [|s|n]| | |]; try done;
    eexists _, _; (split; [reflexivity | done]).
Qed.

(** X15.  When the CSV path is not a file or has not the suffix [.csv],
    the run is reported as failed with a [FileNotFoundError]; by then the
    output root has been made, and that is all the run has done: the world
    is the one [mkdir] left. *)
Theorem invalid_csv_fails_after_the_output_root_is_made (w w1 : World) :
  mkdir_parents (base_output_of self) w = Ok () w1 ->
  (path_is_file w1 (csv_file_path self)
   && str_eqb (lower (path_suffix (csv_file_path self))) (lit ".csv"))%bool
  = false ->
  run self w
  = (failed (FileNotFoundError
               (lit "CSV file not found or invalid: "
                  ++ path_str (csv_file_path self))), w1)
  /\ fs w ⊆ fs w1
  /\ exists k, resolve w1 (base_output_of self) = Found k Dir.
Proof.
  intros Hmk Hbad.
  assert (_resolve_csv_path self w1
          = Raise (FileNotFoundError
                     (lit "CSV file not found or invalid: "
                        ++ path_str (csv_file_path self))) w1) as Hres.
  { unfold _resolve_csv_path. cbn zeta.
    destruct (path_is_file w1 (csv_file_path self)); cbn [andb] in Hbad.
    - rewrite Hbad. by rewrite orb_true_r.
    - by rewrite orb_true_r. }
  split; [|split].
  - unfold run, _run_impl, synthesize_all. munfold. cbn zeta.
    by rewrite Hmk, Hres.
  - by apply mkdir_parents_ok in Hmk as (? & _).
  - apply mkdir_parents_inv in Hmk as (t & E & ->).
    unfold resolve. cbn [set_fs fs cwd]. by eapply mkdirs_walk.
Qed.
End ServiceFacts.

(** *** Columns of the CSV file *)

Lemma foldl_insert_pairs_absent (k : list N)
    (kvs : list (list N * list N)) (d : gmap (list N) (option (list N))) :
  k ∉ kvs.*1 -> d !! k = None ->
  foldl (fun d kv => <[kv.1 := Some kv.2]> d) d kvs !! k = None.
Proof.
  revert d. induction kvs as [|[k0 v0] kvs IH]; intros d Hk Hd; [done|].
  cbn [foldl]. apply not_elem_of_cons in Hk as [Hne Hk]. apply IH; [done|].
  cbn. by rewrite lookup_insert_ne.
Qed.

Lemma foldl_insert_none_absent (k : list N) (ks : list (list N))
    (d : gmap (list N) (option (list N))) :
  k ∉ ks -> d !! k = None -> foldl (fun d k0 => <[k0 := None]> d) d ks !! k = None.
Proof.
  revert d. induction ks as [|k0 ks IH]; intros d Hk Hd; [done|].
  cbn [foldl]. apply not_elem_of_cons in Hk as [Hne Hk]. apply IH; [done|].
  by rewrite lookup_insert_ne.
Qed.

Lemma dict_row_absent (fieldnames row : list (list N)) (k : list N) :
  k ∉ fieldnames -> dict_row fieldnames row !! k = None.
Proof.
  intros Hk. unfold dict_row. cbn zeta.
  assert (foldl (fun d kv => <[kv.1 := Some kv.2]> d)
            (∅ : gmap (list N) (option (list N))) (zip fieldnames row) !! k
          = None) as Hzip.
  { apply foldl_insert_pairs_absent; [|done].
    intros Hin. apply Hk.
    apply list_elem_of_fmap in Hin as ([k0 v0] & -> & Hin).
    by apply elem_of_zip_l in Hin. }
  destruct (_ <? _)%nat; [|done].
  apply foldl_insert_none_absent; [|done].
  intros Hin. apply Hk. rewrite <- (take_drop (length row) fieldnames).
  apply elem_of_app. by right.
Qed.

Lemma row_of_dict_without_path (d : gmap (list N) (option (list N))) :
  d !! lit "path" = None -> row_of_dict d = None.
Proof. unfold row_of_dict, get_or_empty. by intros ->. Qed.

Lemma row_of_dict_without_text (d : gmap (list N) (option (list N)))
    (row : CsvRow) :
  d !! lit "text to play" = None -> row_of_dict d = Some row ->
  text_to_play row = [].
Proof.
  unfold row_of_dict, get_or_empty. intros ->. cbn zeta.
  destruct (str_eqb _ _); [done|]. by intros [= <-].
Qed.

(** X16.  Columns are found by their exact names in the header: without
    a column named [path] no row is read at all, and without a column named
    [text to play] every row is read with an empty text. *)
Theorem rows_need_the_path_column (content : list N)
    (fieldnames : list (list N)) (rest : list (list (list N))) :
  csv_reader (decode_utf8_sig content) = Some (fieldnames :: rest) ->
  (lit "path" ∉ fieldnames -> read_rows_text content = Some [])
  /\ (lit "text to play" ∉ fieldnames ->
      exists rows,
        read_rows_text content = Some rows
        /\ Forall (fun row => text_to_play row = []) rows).
Proof.
  intros Hrecords. unfold read_rows_text. rewrite Hrecords.
  cbn [mbind option_bind dict_reader]. split.
  - intros Hno. f_equal.
    induction (filter _ rest) as [|record records IH]; [done|].
    cbn [map omap list_omap].
    by rewrite (row_of_dict_without_path _ (dict_row_absent _ _ _ Hno)).
  - intros Hno. eexists. split; [reflexivity|].
    apply Forall_forall. intros row Hrow.
    apply list_elem_of_omap in Hrow as (d & Hd & Hrow).
    apply list_elem_of_fmap in Hd as (record & -> & _).
    eapply row_of_dict_without_text; [|exact Hrow].
    by apply dict_row_absent.
Qed.

Lemma header_keys_differ : lit "path" <> lit "text to play".
Proof. discriminate. Qed.

(** X17.  Under the header that the snapshot writer writes, a record is
    read from its first two fields, stripped: a missing field reads as
    empty, further fields are ignored, and the record is dropped when its
    path is empty. *)
Theorem short_records_read_as_empty_fields (record : list (list N)) :
  row_of_dict (dict_row [lit "path"; lit "text to play"] record)
  = let path_value := strip (nth 0 record []) in
    if str_eqb path_value [] then None
    else Some {| path := path_value;
                 text_to_play := strip (nth 1 record []) |}.
Proof.
  pose proof header_keys_differ as Hne.
  assert (lit "text to play" <> lit "path") as Hne' by done.
  unfold row_of_dict, get_or_empty, dict_row.
  destruct record as [|p [|t extra]]; cbn [zip zip_with foldl length drop nth
    Nat.ltb Nat.leb fst snd].
  - rewrite lookup_insert_ne, lookup_insert_eq by done.
    rewrite lookup_insert_eq. reflexivity.
  - rewrite lookup_insert_ne, lookup_insert_eq by done.
    rewrite lookup_insert_eq. reflexivity.
  - rewrite lookup_insert_ne, lookup_insert_eq by done.
    rewrite lookup_insert_eq. reflexivity.
Qed.
Lemma row_of_two_fields (p t : list N) :
  row_of_dict (dict_row [lit "path"; lit "text to play"] [p; t])
  = as_read {| path := p; text_to_play := t |}.
Proof.
  pose proof header_keys_differ as Hne.
  unfold row_of_dict, get_or_empty, dict_row, as_read.
  cbn [zip zip_with foldl length drop Nat.ltb Nat.leb fst snd path text_to_play].
  rewrite lookup_insert_ne, lookup_insert_eq by done.
  rewrite lookup_insert_eq. reflexivity.
Qed.

(** X25.  For any rows whose fields are within the field size limit,
    whatever characters they hold, reading a written snapshot gives the
    rows with both fields stripped, in the same order, without the rows
    whose path is blank. *)
Theorem written_rows_read_back_stripped (rows : list CsvRow) :
  Forall (fun row => bounded (path row) /\ bounded (text_to_play row)) rows ->
  read_rows_text (write_rows_text rows) = Some (omap as_read rows).
Proof.
  intros Hrows. unfold read_rows_text.
  rewrite decode_written, csv_reader_written by exact Hrows.
  cbn [mbind option_bind dict_reader]. f_equal.
  clear Hrows. induction rows as [|[p t] rows IH]; [reflexivity|].
  cbn [map]. rewrite filter_cons_True by done.
  cbn [map omap list_omap path text_to_play].
  rewrite row_of_two_fields. by rewrite IH.
Qed.

(** ** Languages, voices and styles *)

Lemma insort_perm {A} (ltb : A -> A -> bool) (x : A) (l : list A) :
  insort ltb x l ≡ₚ x :: l.
Proof.
  induction l as [|y l IH]; [done|]. cbn [insort].
  destruct (ltb y x); [|done]. rewrite IH. apply Permutation_swap.
Qed.

Lemma sorted_by_perm {A} (ltb : A -> A -> bool) (l : list A) :
  sorted_by ltb l ≡ₚ l.
Proof.
  induction l as [|x l IH]; [done|]. unfold sorted_by in *. cbn [foldr].
  by rewrite insort_perm, IH.
Qed.

Lemma sorted_set_elem (x : list N) (l : list (list N)) :
  x ∈ sorted_set l <-> x ∈ l.
Proof.
  unfold sorted_set, sorted. rewrite sorted_by_perm. apply elem_of_remove_dups.
Qed.

Lemma sorted_set_NoDup (l : list (list N)) : NoDup (sorted_set l).
Proof.
  unfold sorted_set, sorted. rewrite sorted_by_perm. apply NoDup_remove_dups.
Qed.

Lemma language_names_nonempty (code name : list N) :
  LANGUAGE_NAMES !! code = Some name -> name <> [].
Proof.
  intros Hlook.
  assert (forallb (fun item : list N * list N => negb (bool_decide (item.2 = [])))
            LANGUAGE_NAMES_items = true) as Hall by (vm_compute; reflexivity).
  apply elem_of_list_to_map_2 in Hlook.
  rewrite forallb_forall in Hall. apply list_elem_of_In in Hlook.
  specialize (Hall _ Hlook). cbn in Hall.
  apply negb_true_iff, bool_decide_eq_false in Hall. exact Hall.
Qed.

Section LanguageFacts.
Context `{Env}.

(** X18.  [language_name_from_code] never returns the empty string: a code
    that is empty once stripped and lowered gives [Unknown], a code of
    [LANGUAGE_NAMES] gives its name, any other code gives the stripped and
    lowered code. *)
Theorem language_name_is_never_empty (language_code : list N) :
  language_name_from_code language_code <> []
  /\ (lower (strip language_code) = [] ->
      language_name_from_code language_code = lit "Unknown")
  /\ (forall name,
        LANGUAGE_NAMES !! lower (strip language_code) = Some name ->
        language_name_from_code language_code = name)
  /\ (lower (strip language_code) <> [] ->
      LANGUAGE_NAMES !! lower (strip language_code) = None ->
      language_name_from_code language_code = lower (strip language_code)).
Proof.
  unfold language_name_from_code. cbn zeta.
  destruct (lower (strip language_code)) as [|c code] eqn:E; cbn [truthy negb].
  - split; [done|]. split; [done|]. split; [|done].
    intros name Hname. vm_compute in Hname. discriminate.
  - split; [|split; [done|split]].
    + destruct (LANGUAGE_NAMES !! (c :: code)) as [name|] eqn:Hl; cbn [default];
        [by eapply language_names_nonempty | done].
    + by intros name ->.
    + by intros _ ->.
Qed.
End LanguageFacts.

Lemma split_on_nonempty (sep : N) (s : list N) : split_on sep s <> [].
Proof.
  induction s as [|c s IH]; [done|]. cbn [split_on].
  destruct (c =? sep); [done|]. by destruct (split_on sep s).
Qed.

Lemma split_on_without (sep : N) (s : list N) :
  sep ∉ s -> split_on sep s = [s].
Proof.
  induction s as [|c s IH]; [done|]. intros [Hc Hs]%not_elem_of_cons.
  cbn [split_on]. rewrite (proj2 (N.eqb_neq c sep)) by done. by rewrite IH.
Qed.

Lemma last_cons_nonempty {A} (x d : A) (l : list A) :
  l <> [] -> List.last (x :: l) d = List.last l d.
Proof. by destruct l. Qed.

(** The last piece of a string is the last piece of what follows any of its
    separators. *)
Lemma split_on_last_after (sep : N) (a b : list N) :
  List.last (split_on sep (a ++ sep :: b)) [] = List.last (split_on sep b) []
  /\ (2 <= length (split_on sep (a ++ sep :: b)))%nat.
Proof.
  induction a as [|x a [IH1 IH2]]; cbn [app split_on].
  - rewrite N.eqb_refl. pose proof (split_on_nonempty sep b).
    split; [by apply last_cons_nonempty|].
    destruct (split_on sep b); [done | cbn; lia].
  - destruct (x =? sep).
    + split; [rewrite last_cons_nonempty; [done|] | cbn [length]; lia].
      intros E. rewrite E in IH2. cbn in IH2. lia.
    + destruct (split_on sep (a ++ sep :: b)) as [|p [|q ps]];
        cbn [length] in *; [lia | lia |]. split; [exact IH1 | lia].
Qed.

Lemma split_on_last_without (sep : N) (s : list N) :
  sep ∉ List.last (split_on sep s) [].
Proof.
  induction s as [|c s IH]; [cbn; apply not_elem_of_nil|]. cbn [split_on].
  destruct (N.eqb_spec c sep) as [-> | Hne].
  - by rewrite last_cons_nonempty by apply split_on_nonempty.
  - pose proof (split_on_nonempty sep s).
    destruct (split_on sep s) as [|p [|q ps]]; [done| |exact IH].
    cbn in *. by apply not_elem_of_cons.
Qed.

Lemma lstrip_keeps_absent (c : N) (s : list N) : c ∉ s -> c ∉ lstrip s.
Proof.
  induction s as [|x s IH]; [done|]. intros Hc. cbn [lstrip].
  destruct (is_space x); [|done]. apply IH. by apply not_elem_of_cons in Hc as [_ ?].
Qed.

Lemma strip_keeps_absent (c : N) (s : list N) : c ∉ s -> c ∉ strip s.
Proof.
  intros Hc. unfold strip, rstrip. apply lstrip_keeps_absent.
  intros Hin%list_elem_of_In%in_rev%list_elem_of_In. revert Hin.
  apply lstrip_keeps_absent. intros Hin%list_elem_of_In%in_rev%list_elem_of_In.
  done.
Qed.

Section WindowFacts.
Context `{Env}.
Import MainWindow.

(** Every entry of the language map pairs the language part of a voice's
    locale with its name. *)
Lemma populate_voice_entries (vs : list Voice) :
  forall language_map : list (list N * list N),
    Forall (fun item =>
              item.2 = language_name_from_code item.1
              /\ exists voice, voice ∈ vs /\ c_minus ∈ Locale voice
                   /\ hd [] (split_on c_minus (Locale voice)) = item.1)
      language_map ->
    forall more,
      Forall (fun item =>
                item.2 = language_name_from_code item.1
                /\ exists voice, voice ∈ vs ++ more /\ c_minus ∈ Locale voice
                     /\ hd [] (split_on c_minus (Locale voice)) = item.1)
        (foldl populate_voice language_map more).
Proof.
  intros language_map Hmap more. revert vs language_map Hmap.
  induction more as [|voice more IH]; intros vs language_map Hmap.
  { rewrite app_nil_r. exact Hmap. }
  cbn [foldl].
  replace (vs ++ voice :: more) with ((vs ++ [voice]) ++ more)
    by (by rewrite <- List.app_assoc).
  apply IH. unfold populate_voice. cbn zeta.
  assert (Forall (fun item =>
                    item.2 = language_name_from_code item.1
                    /\ exists v, v ∈ vs ++ [voice] /\ c_minus ∈ Locale v
                         /\ hd [] (split_on c_minus (Locale v)) = item.1)
            language_map) as Hmap'.
  { eapply Forall_impl; [exact Hmap|]. intros item (Hn & v & Hv & Hrest).
    split; [done|]. exists v. split; [apply elem_of_app; by left | done]. }
  destruct (bool_decide (c_minus ∈ Locale voice)) eqn:Hdash; cbn [negb]; [|done].
  apply bool_decide_eq_true in Hdash.
  destruct (bool_decide (_ ∈ language_map.*1)); [done|].
  apply Forall_app. split; [done|]. apply Forall_singleton. cbn [fst snd].
  split; [done|]. exists voice. split; [|done].
  apply elem_of_app. right. by apply list_elem_of_singleton.
Qed.

(** X19.  With the language map that [_populate_languages] builds, when
    the text of the language box, stripped, is one of the languages it
    offers, [_selected_language_code] returns a code with that name, and
    the code is the language part of the locale of some voice. *)
Theorem selected_code_names_the_selected_language (self : state) :
  language_map self = (_populate_languages self).1 ->
  strip (cmb_language self) ∈ (_populate_languages self).2 ->
  language_name_from_code (_selected_language_code self)
  = strip (cmb_language self)
  /\ exists voice,
       voice ∈ voices self /\ c_minus ∈ Locale voice
       /\ hd [] (split_on c_minus (Locale voice))
          = _selected_language_code self.
Proof.
  unfold _populate_languages. cbn [fst snd]. intros Hmap Hsel.
  apply (proj1 (sorted_set_elem _ _)) in Hsel.
  apply list_elem_of_fmap in Hsel as ([code name] & Hname & Hin).
  cbn in Hname. unfold _selected_language_code. cbn zeta. rewrite Hmap.
  destruct (List.find _ _) as [[code' name']|] eqn:Hfind.
  - apply List.find_some in Hfind as [Hin' Heq]. cbn in Heq.
    apply bool_decide_eq_true in Heq.
    pose proof (populate_voice_entries [] [] ltac:(done) (voices self)) as Hall.
    rewrite Forall_forall in Hall. apply list_elem_of_In in Hin'.
    destruct (Hall _ Hin') as (Hn & voice & Hv & Hdash & Hcode).
    cbn [fst snd] in *. split; [congruence|]. by exists voice.
  - exfalso. apply list_elem_of_In in Hin.
    pose proof (List.find_none _ _ Hfind _ Hin) as Hno. cbn in Hno.
    apply bool_decide_eq_false in Hno. by apply Hno.
Qed.

(** X20.  When the voice box shows one of the tails that [_refresh_voices]
    offers, the short name that [_current_short_name] builds, when not
    empty, splits at its last dash into that tail, stripped; this is the
    piece [_run_impl] names the output directory after. *)
Theorem short_name_ends_with_the_voice_tail (self : state) :
  cmb_voice self ∈ short_names self ->
  _current_short_name self <> [] ->
  List.last (split_on c_minus (_current_short_name self)) []
  = strip (cmb_voice self)
  /\ c_minus ∉ strip (cmb_voice self).
Proof.
  intros Hoffered Hname.
  assert (c_minus ∉ strip (cmb_voice self)) as Htail.
  { apply strip_keeps_absent. unfold short_names in Hoffered. cbn zeta in Hoffered.
    apply list_elem_of_fmap in Hoffered as (voice & -> & _).
    apply split_on_last_without. }
  split; [|exact Htail].
  unfold _current_short_name in *. cbn zeta in *.
  destruct (negb _ || _ || _)%bool; [done|].
  replace (_selected_language_code self ++ lit "-" ++ strip (cmb_region self)
             ++ lit "-" ++ strip (cmb_voice self))
    with ((_selected_language_code self ++ lit "-" ++ strip (cmb_region self))
            ++ c_minus :: strip (cmb_voice self))
    by (by rewrite <- !List.app_assoc).
  rewrite (proj1 (split_on_last_after _ _ _)).
  by rewrite split_on_without.
Qed.

(** X21.  The styles that [_refresh_styles] offers start with [Default]
    and name no style twice, whatever the style list of the voice is. *)
Theorem default_style_is_offered_once_and_first (title : list N -> list N)
    (self : state) :
  head (style_options title self) = Some (lit "Default")
  /\ NoDup (style_options title self).
Proof.
  unfold style_options. cbn zeta.
  match goal with
  | |- context [negb (truthy ?x)] => destruct x as [|style0 styles]
  end; cbn [truthy negb].
  { split; [done|]. apply (bool_decide_unpack _). by vm_compute. }
  split; [done|]. apply NoDup_cons. split.
  - unfold sorted. rewrite sorted_by_perm. intros Hin%list_elem_of_In.
    apply List.filter_In in Hin as [_ Hin].
    apply negb_true_iff, bool_decide_eq_false in Hin. done.
  - unfold sorted. rewrite sorted_by_perm.
    apply NoDup_ListNoDup, List.NoDup_filter, NoDup_ListNoDup, NoDup_remove_dups.
Qed.
End WindowFacts.

Lemma lex_ltb_strict_total {A} (ltb : A -> A -> bool) :
  strict_total ltb -> strict_total (lex_ltb ltb).
Proof.
  intros (Hirr & Htrans & Hconn). split; [|split].
  - intros a. induction a as [|x a IH]; [done|]. cbn. by rewrite Hirr.
  - intros a. induction a as [|x a IH]; intros [|y b] [|z c]; cbn; try done.
    destruct (ltb x y) eqn:Exy.
    + destruct (ltb y z) eqn:Eyz; [by rewrite (Htrans x y z)|].
      destruct (ltb z y) eqn:Ezy; [done|].
      rewrite (Hconn _ _ Eyz Ezy) in Exy. by rewrite Exy.
    + destruct (ltb y x) eqn:Eyx; [done|].
      rewrite (Hconn _ _ Exy Eyx).
      destruct (ltb y z); [done|]. destruct (ltb z y); [done|]. apply IH.
  - intros a. induction a as [|x a IH]; intros [|y b]; cbn; try done.
    destruct (ltb x y) eqn:Exy; [done|].
    destruct (ltb y x) eqn:Eyx; [done|].
    intros Hab Hba. rewrite (Hconn _ _ Exy Eyx). f_equal. by apply IH.
Qed.

Lemma N_ltb_strict_total : strict_total N.ltb.
Proof.
  split; [|split].
  - intros x. apply N.ltb_irrefl.
  - intros x y z Hxy%N.ltb_lt Hyz%N.ltb_lt. apply N.ltb_lt. lia.
  - intros x y Hxy%N.ltb_ge Hyx%N.ltb_ge. lia.
Qed.

Lemma str_ltb_strict_total : strict_total str_ltb.
Proof. apply lex_ltb_strict_total, N_ltb_strict_total. Qed.

(** Of a strict total order: what is not below [y] is not below anything
    that [y] is not above. *)
Lemma not_below_trans {A} (ltb : A -> A -> bool) (q y x : A) :
  strict_total ltb -> ltb q y = false -> ltb y x = false -> ltb q x = false.
Proof.
  intros (Hirr & Htrans & Hconn) Hqy Hyx.
  destruct (ltb q x) eqn:Hqx; [|done].
  destruct (ltb x y) eqn:Hxy.
  - by rewrite (Htrans q x y) in Hqy.
  - rewrite (Hconn _ _ Hxy Hyx) in Hqx. congruence.
Qed.

Lemma ltb_asym {A} (ltb : A -> A -> bool) (x y : A) :
  strict_total ltb -> ltb x y = true -> ltb y x = false.
Proof.
  intros (Hirr & Htrans & _) Hxy. destruct (ltb y x) eqn:Hyx; [|done].
  by rewrite <- (Hirr x), (Htrans x y x).
Qed.

Lemma strict_total_weak {A} (ltb : A -> A -> bool) :
  strict_total ltb -> strict_weak ltb.
Proof.
  intros Hord. split; [apply Hord|]. split.
  - intros x y. by apply ltb_asym.
  - intros q y x. by apply not_below_trans.
Qed.

Lemma path_ltb_strict_weak : strict_weak path_ltb.
Proof.
  destruct (strict_total_weak _ (lex_ltb_strict_total _ str_ltb_strict_total))
    as (Hirr & Hasym & Hneg).
  unfold path_ltb. split; [|split].
  - intros p. apply Hirr.
  - intros p q. apply Hasym.
  - intros p q r. apply Hneg.
Qed.

(** The first item of [sorted_by] has nothing below it. *)
Lemma sorted_by_first {A} (ltb : A -> A -> bool) (items : list A)
    (first : A) (rest : list A) :
  strict_weak ltb ->
  sorted_by ltb items = first :: rest ->
  forall q, q ∈ items -> ltb q first = false.
Proof.
  intros (Hirr & Hasym & Hneg). revert first rest.
  induction items as [|x items IH]; intros first rest; [done|].
  unfold sorted_by in *. cbn [foldr].
  destruct (foldr (insort ltb) [] items) as [|y l'] eqn:E.
  - assert (items = []) as ->.
    { apply Permutation_nil. rewrite <- (sorted_by_perm ltb items).
      unfold sorted_by. by rewrite E. }
    cbn. intros [= <- _] q ->%list_elem_of_singleton. apply Hirr.
  - cbn [insort]. destruct (ltb y x) eqn:Hyx.
    + intros [= <- _] q [-> | Hq]%elem_of_cons.
      * by apply Hasym.
      * by eapply IH.
    + intros [= <- _] q [-> | Hq]%elem_of_cons; [apply Hirr|].
      eapply Hneg; [|exact Hyx]. by eapply IH.
Qed.

Section DefaultCsv.
Context `{Env}.
Import MainWindow.

(** X22.  The file that [_default_csv_file_path] proposes is an entry of
    the [in] directory that passes the check of [_resolve_csv_path], and no
    CSV file of that directory comes before it in the order of paths. *)
Theorem default_csv_file_passes_the_worker_check (self : state)
    (worker : SynthesisWorker) (w : World) (first : Path) :
  _default_csv_file_path self w = Some first ->
  csv_file_path worker = first ->
  let in_dir := path_join (app_root self) (parse_path (lit "in")) in
  _resolve_csv_path worker w
  = Ok first (emit (lit "Using CSV: " ++ path_str first) w)
  /\ first ∈ iterdir w in_dir
  /\ forall q,
       q ∈ iterdir w in_dir -> path_is_file w q = true ->
       lower (path_suffix q) = lit ".csv" ->
       path_ltb q first = false.
Proof.
  unfold _default_csv_file_path. cbn zeta. intros Hdef Hworker.
  destruct (negb _ || negb _)%bool; [done|].
  destruct (sorted_by path_ltb _) as [|p rest] eqn:Hsorted; [done|].
  injection Hdef as ->.
  assert (first ∈ sorted_by path_ltb
            (List.filter
               (fun path => path_is_file w path
                            && str_eqb (lower (path_suffix path)) (lit ".csv"))
               (iterdir w (path_join (app_root self) (parse_path (lit "in"))))))
    as Hin by (rewrite Hsorted; by left).
  rewrite sorted_by_perm in Hin. apply list_elem_of_In, List.filter_In in Hin.
  destruct Hin as [Hin [Hfile Hsuf]%andb_true_iff].
  split; [|split].
  - unfold _resolve_csv_path. cbn zeta. rewrite Hworker, Hfile, Hsuf.
    assert (path_exists w first = true) as ->; [|done].
    unfold path_exists, path_is_file in *.
    by destruct (resolve w first) as [k [| |]| | |].
  - by apply list_elem_of_In.
  - intros q Hq Hqfile Hqsuf.
    eapply (sorted_by_first path_ltb); [apply path_ltb_strict_weak | exact Hsorted|].
    apply list_elem_of_In, List.filter_In. split; [by apply list_elem_of_In|].
    rewrite Hqfile. cbn [andb]. by apply bool_decide_eq_true.
Qed.
End DefaultCsv.

(** ** The preview *)

Section PreviewFacts.
Context `{Env}.
Import PreviewWorker.

(** X23.  The preview makes exactly one call of the speech service,
    whatever the outcome.  Provided that playing the file does not raise, an
    attempt that the batch loop would accept ends the preview with [done];
    and so does a completed attempt whose file has between 1 and 1023
    bytes, which the batch loop counts as failed. *)
Theorem preview_is_laxer_than_the_batch
    (winsound : option (list N -> option exn)) (self : state) (w : World) :
  let p := sample_wav_path self in
  let r := speak p (ssml self) w in
  let plays :=
    forall PlaySound, winsound = Some PlaySound -> PlaySound (path_str p) = None in
  (attempt_failed p r.1 r.2 = false -> plays ->
   exists message played, run winsound self w = (done message, played, r.2))
  /\ (r.1 = Some SynthesizingAudioCompleted ->
      path_exists r.2 p = true -> 0 < st_size r.2 p < 1024 -> plays ->
      attempt_failed p r.1 r.2 = true
      /\ exists message played,
           run winsound self w = (done message, played, r.2))
  /\ spoken (run winsound self w).2
     = spoken w ++ [(ssml self, path_str p)].
Proof.
  cbn zeta.
  assert (forall reason,
            (speak (sample_wav_path self) (ssml self) w).1 = Some reason ->
            reason = SynthesizingAudioCompleted ->
            path_exists (speak (sample_wav_path self) (ssml self) w).2
              (sample_wav_path self) = true ->
            0 < st_size (speak (sample_wav_path self) (ssml self) w).2
                  (sample_wav_path self) ->
            (forall PlaySound, winsound = Some PlaySound ->
                               PlaySound (path_str (sample_wav_path self)) = None) ->
            exists message played,
              run winsound self w
              = (done message, played,
                 (speak (sample_wav_path self) (ssml self) w).2)) as Hdone.
  { intros reason Hr -> Hex Hsz Hplay. unfold run, _run_impl. rewrite Hr.
    rewrite decide_False by (intros ?; done). rewrite Hex.
    rewrite (proj2 (N.eqb_neq _ 0)) by lia. cbn [negb orb].
    destruct winsound as [PlaySound|]; [rewrite (Hplay _ eq_refl)|];
      eexists _, _; reflexivity. }
  split; [|split].
  - unfold attempt_failed.
    destruct ((speak _ _ w).1) as [reason|] eqn:Hr; [|done].
    destruct (decide (reason = SynthesizingAudioCompleted)) as [-> | ?]; [|done].
    intros [Hex Hsz]%orb_false_elim Hplay. apply negb_false_iff in Hex.
    apply N.ltb_ge in Hsz. eapply Hdone; [done | done | done | lia | done].
  - intros Hr Hex [Hpos Hsmall] Hplay. split.
    + unfold attempt_failed. rewrite Hr, decide_True by done.
      rewrite Hex. cbn [negb orb]. by apply N.ltb_lt.
    + by eapply Hdone.
  - unfold run, _run_impl.
    assert (spoken (speak (sample_wav_path self) (ssml self) w).2
            = spoken w ++ [(ssml self, path_str (sample_wav_path self))]) as Hsp.
    { unfold speak. by destruct (speak_ssml _ _ _) as [[t result] eff]. }
    destruct ((speak _ _ w).1) as [reason|]; [|done].
    destruct (decide _); [done|]. destruct (negb _ || _)%bool; [done|].
    destruct winsound as [PlaySound|]; [|done].
    by destruct (PlaySound _).
Qed.
End PreviewFacts.

(** ** Cleaning up *)

Lemma listdir_elem (t : gmap (list (list N)) node) (k : list (list N))
    (name : list N) :
  name ∈ MainWindow.listdir t k <-> exists n, t !! (k ++ [name]) = Some n.
Proof.
  unfold MainWindow.listdir. rewrite list_elem_of_omap. split.
  - intros ([k' n] & Hin & Hsome). cbn [fst] in Hsome.
    destruct (decide _) as [[Hne Hk]|]; [|done]. injection Hsome as <-.
    apply elem_of_map_to_list in Hin. exists n.
    rewrite <- Hk, <- app_removelast_last; done.
  - intros (n & Hn). exists (k ++ [name], n).
    split; [by apply elem_of_map_to_list|]. cbn [fst].
    rewrite decide_True.
    + by rewrite last_last.
    + split; [by destruct k | by rewrite removelast_last].
Qed.

Lemma matches_log_plain (name : list N) :
  MainWindow.matches_log name = true -> name <> lit "..".
Proof. by intros Hm ->. Qed.

Section CleanupFacts.
Context `{Env}.
Import MainWindow.

(** An entry of a directory, by its name. *)
Lemma resolve_child (root_path : Path) (name : list N) (w : World)
    (kroot : list (list N)) :
  resolve w root_path = Found kroot Dir -> name <> lit ".." ->
  resolve w (path_join root_path {| root := []; comps := [name] |})
  = match fs w !! (kroot ++ [name]) with
    | Some n => Found (kroot ++ [name]) n
    | None => Missing (kroot ++ [name])
    end.
Proof.
  intros Hroot Hname.
  change (path_join root_path {| root := []; comps := [name] |})
    with {| root := root root_path; comps := comps root_path ++ [name] |}.
  unfold resolve in *. cbn [comps].
  change (is_absolute {| root := root root_path;
                         comps := comps root_path ++ [name] |})
    with (is_absolute root_path).
  rewrite (walk_app_dir _ _ _ _ _ Hroot). cbn [walk].
  rewrite (walk_found_node _ _ _ _ _ Hroot), step_plain by done.
  by destruct kroot.
Qed.

(** The loop of [_cleanup_logs] over some names of log files. *)
Lemma cleanup_loop (self : state) (kroot : list (list N)) (names : list (list N)) :
  Forall (fun name => matches_log name = true) names ->
  forall w,
    resolve w (app_root self) = Found kroot Dir ->
    exists w',
      foldM (fun (_ : unit) (path : Path) (v : World) =>
               if path_is_file v path then unlink_missing_ok path v
               else Ok () v)
        () (map (fun name =>
                   path_join (app_root self) {| root := []; comps := [name] |})
              names) w
      = Ok () w'
      /\ cwd w' = cwd w /\ tts w' = tts w /\ spoken w' = spoken w
      /\ emitted w' = emitted w
      /\ forall k,
           fs w' !! k
           = if bool_decide
                  (Exists (fun name => k = kroot ++ [name]) names
                   /\ fs w !! k <> Some Dir)
             then None else fs w !! k.
Proof.
  induction 1 as [|name names Hname Hnames IH]; intros w Hroot.
  { exists w. split; [done|]. repeat (split; [done|]). intros k.
    rewrite bool_decide_eq_false_2; [done|].
    intros [Hex _]. by apply Exists_nil in Hex. }
  cbn [map]. rewrite foldM_cons.
  pose proof (resolve_child (app_root self) name w kroot Hroot
                (matches_log_plain _ Hname)) as Hchild.
  set (p := path_join (app_root self) {| root := []; comps := [name] |}) in *.
  assert (exists w1,
            (if path_is_file w p then unlink_missing_ok p w else Ok () w)
            = Ok () w1
            /\ cwd w1 = cwd w /\ tts w1 = tts w /\ spoken w1 = spoken w
            /\ emitted w1 = emitted w
            /\ resolve w1 (app_root self) = Found kroot Dir
            /\ forall k,
                 fs w1 !! k
                 = if bool_decide (k = kroot ++ [name] /\ fs w !! k <> Some Dir)
                   then None else fs w !! k) as (w1 & -> & Hc & Ht & Hs & He & Hroot1 & Hfs1).
  { unfold path_is_file, unlink_missing_ok. rewrite Hchild.
    destruct (fs w !! (kroot ++ [name])) as [[|s|n]|] eqn:Hk.
    - exists w. split; [done|]. repeat (split; [done|]). intros k.
      rewrite bool_decide_eq_false_2; [done|]. intros [-> Hn]. done.
    - eexists. split; [reflexivity|]. repeat (split; [done|]). split.
      + unfold resolve in *. cbn [set_fs fs cwd].
        eapply (walk_other_key (fs w) _ (kroot ++ [name])); [| |exact Hroot|].
        * replace (node_at (fs w) (kroot ++ [name]))
            with (fs w !! (kroot ++ [name])) by (by destruct kroot).
          by rewrite Hk.
        * intros k' Hk'. by rewrite lookup_delete_ne.
        * intros E. apply (f_equal length) in E. rewrite length_app in E.
          cbn in E. lia.
      + intros k. cbn [set_fs fs]. destruct (decide (k = kroot ++ [name])) as [-> | Hne].
        * rewrite lookup_delete_eq, bool_decide_eq_true_2; [done|].
          split; [done | by rewrite Hk].
        * rewrite lookup_delete_ne by done.
          rewrite bool_decide_eq_false_2; [done|]. by intros [? _].
    - eexists. split; [reflexivity|]. repeat (split; [done|]). split.
      + unfold resolve in *. cbn [set_fs fs cwd].
        eapply (walk_other_key (fs w) _ (kroot ++ [name])); [| |exact Hroot|].
        * replace (node_at (fs w) (kroot ++ [name]))
            with (fs w !! (kroot ++ [name])) by (by destruct kroot).
          by rewrite Hk.
        * intros k' Hk'. by rewrite lookup_delete_ne.
        * intros E. apply (f_equal length) in E. rewrite length_app in E.
          cbn in E. lia.
      + intros k. cbn [set_fs fs]. destruct (decide (k = kroot ++ [name])) as [-> | Hne].
        * rewrite lookup_delete_eq, bool_decide_eq_true_2; [done|].
          split; [done | by rewrite Hk].
        * rewrite lookup_delete_ne by done.
          rewrite bool_decide_eq_false_2; [done|]. by intros [? _].
    - exists w. split; [done|]. repeat (split; [done|]). intros k.
      destruct (decide (k = kroot ++ [name])) as [-> | Hne].
      + rewrite Hk. by destruct (bool_decide _).
      + rewrite bool_decide_eq_false_2; [done|]. by intros [? _]. }
  destruct (IH w1 Hroot1) as (w' & -> & Hc' & Ht' & Hs' & He' & Hfs').
  exists w'. split; [done|].
  split; [congruence|]. split; [congruence|]. split; [congruence|].
  split; [congruence|]. intros k. rewrite Hfs', !Hfs1.
  destruct (decide (k = kroot ++ [name])) as [-> | Hne].
  - destruct (decide (fs w !! (kroot ++ [name]) = Some Dir)) as [Hd | Hnd].
    + rewrite (bool_decide_eq_false_2 (_ /\ fs w !! _ <> _)) by (intros [_ ?]; done).
      rewrite bool_decide_eq_false_2; [|by intros [_ ?]].
      rewrite bool_decide_eq_false_2; [done|]. by intros [_ ?].
    + rewrite (bool_decide_eq_true_2 (_ = _ /\ _)) by done.
      destruct (bool_decide _);
        (rewrite bool_decide_eq_true_2; [done|]);
        (split; [by apply Exists_cons_hd | done]).
  - rewrite (bool_decide_eq_false_2 (k = _ /\ _)) by (intros [? _]; done).
    apply (f_equal (fun b : bool => if b then None else fs w !! k)).
    apply bool_decide_ext. split.
    + intros [Hex Hnd]. split; [by apply Exists_cons_tl | done].
    + intros [Hex Hnd]. split; [|done].
      apply Exists_cons in Hex as [-> | Hex]; [done | exact Hex].
Qed.

(** X24.  When the application directory exists, [_cleanup_logs] returns;
    afterwards every file directly in it whose name starts with [log-] is
    gone, every entry that has changed is such an entry and is gone, and no
    service has been called. *)
Theorem cleanup_removes_the_log_files_only (self : state) (w : World)
    (kroot : list (list N)) :
  resolve w (app_root self) = Found kroot Dir ->
  exists w',
    _cleanup_logs self w = Ok () w'
    /\ (forall name n,
          matches_log name = true ->
          fs w !! (kroot ++ [name]) = Some n -> n <> Dir ->
          fs w' !! (kroot ++ [name]) = None)
    /\ (forall k,
          fs w' !! k <> fs w !! k ->
          exists name,
            k = kroot ++ [name] /\ matches_log name = true
            /\ fs w' !! k = None)
    /\ spoken w' = spoken w
    /\ emitted w' = emitted w ++ [lit "Cleaning up..."].
Proof.
  intros Hroot. unfold _cleanup_logs, glob_logs. rewrite Hroot. munfold.
  destruct (cleanup_loop self kroot
              (List.filter matches_log (listdir (fs w) kroot))) with (w := w)
    as (w1 & -> & _ & _ & Hs & He & Hfs); [|done|].
  { apply Forall_forall. intros name Hin%list_elem_of_In%List.filter_In.
    by destruct Hin. }
  eexists. split; [reflexivity|]. cbn [emit fs spoken emitted].
  split; [|split; [|split; [done | by rewrite He]]].
  - intros name n Hm Hk Hn. rewrite Hfs, bool_decide_eq_true_2; [done|].
    split; [|by rewrite Hk; intros [= ->]].
    apply Exists_exists. exists name. split; [|done].
    apply list_elem_of_In, List.filter_In. split; [|done].
    apply list_elem_of_In, listdir_elem. by exists n.
  - intros k Hk. rewrite Hfs in Hk |- *.
    destruct (bool_decide _) eqn:E; [|done].
    apply bool_decide_eq_true in E as [(name & Hin & ->)%Exists_exists _].
    exists name. split; [done|].
    apply list_elem_of_In, List.filter_In in Hin. by destruct Hin.
Qed.
End CleanupFacts.

(** ** The properties above at sample inputs *)

Lemma env_completes_service : @service_completes env_completes.
Proof. intros [] ssml file. exists tt, 2048. split; [reflexivity | lia]. Qed.

Lemma row_hi_clean : Forall clean_row [row_hi].
Proof. repeat constructor; vm_compute; discriminate. Qed.

Lemma row_hi_one_text : one_text_per_path [row_hi].
Proof.
  intros r1 r2 Hr1%list_elem_of_singleton Hr2%list_elem_of_singleton _.
  by subst.
Qed.

(** Escaping at a text with a markup character. *)
Lemma escape_xml_text_injective_witness :
  escape_xml_text (lit "a<b") = escape_xml_text (lit "a<b")
  /\ lit "a<b" = lit "a<b".
Proof.
  split; [reflexivity|].
  apply (escape_xml_text_injective (lit "a<b") (lit "a<b")). reflexivity.
Defined.

Lemma build_ssml_separates_texts_witness : lit "Hi" = lit "Hi".
Proof.
  apply (build_ssml_separates_texts ascii_lower (lit "en") (lit "US")
           (lit "en-US-JennyNeural") (lit "Chat") (lit "Hi") (lit "Hi")
           1.0%float 0 0).
  reflexivity.
Defined.

(** A row whose audio is there and an unsafe row: no call at all. *)
Lemma present_outputs_need_no_call_witness :
  exists w',
    @synthesize_rows env_completes sample_worker sample_base
      [row_hi; row_dotdot] (world_completes files_with_audio) = Ok [] w'
    /\ fs w' = files_with_audio /\ spoken w' = [].
Proof.
  destruct (@present_outputs_need_no_call env_completes sample_worker
              sample_base [row_hi; row_dotdot]
              (world_completes files_with_audio))
    as (w' & Hrun & Hfs & Hsp & _).
  - apply Forall_cons. split.
    + right. split; [vm_compute; reflexivity | vm_compute; discriminate].
    + apply Forall_cons. split; [|apply Forall_nil_2].
      left. vm_compute. reflexivity.
  - exists w'. split; [exact Hrun|]. split; [exact Hfs | exact Hsp].
Defined.

(** A row whose audio is missing, with a service that completes. *)
Lemma synthesis_ends_in_one_of_three_ways_witness :
  let output_file := output_file_of sample_base row_hi in
  let o := @synthesize_row env_completes sample_worker sample_base [] row_hi
             (world_completes sample_dirs) in
  exists n,
    spoken (world_of o)
    = replicate n (@ssml_of env_completes sample_worker row_hi,
                   path_str output_file)
    /\ ((o = Ok [] (world_of o) /\ (1 <= n <= 3)%nat
         /\ path_exists (world_of o) output_file = true
         /\ 1024 <= st_size (world_of o) output_file)
        \/ (o = Ok [path_str output_file] (world_of o)
            /\ @refusal env_completes output_file = None /\ n = 3%nat
            /\ path_exists (world_of o) output_file = false)
        \/ (exists e,
              o = Raise e (world_of o)
              /\ @refusal env_completes output_file = Some e
              /\ (has_nul output_file = true ->
                  e = ValueError (lit "embedded null byte"))
              /\ n = 3%nat
              /\ path_exists (world_of o) output_file = false)).
Proof.
  apply (@synthesis_ends_in_one_of_three_ways env_completes sample_worker
           sample_base [] row_hi (world_completes sample_dirs)
           (world_completes sample_dirs)).
  - vm_compute. reflexivity.
  - vm_compute. reflexivity.
  - vm_compute. reflexivity.
Defined.

(** The audio of a row whose text changed is what the first loop removes. *)
Lemma change_detection_removes_old_audio_only_witness :
  exists row n,
    row ∈ [row_hello]
    /\ changed_row (build_last_map [row_hi]) row = true
    /\ @resolve env_completes (world_completes files_with_audio)
         (old_file_of sample_base row) = Found audio_key n
    /\ n <> Dir.
Proof.
  apply (@change_detection_removes_old_audio_only env_completes sample_base
           (build_last_map [row_hi]) [row_hello]
           (world_completes files_with_audio) audio_key).
  vm_compute. discriminate.
Defined.

(** A service that completes, over a safe and an unsafe row. *)
Lemma reliable_service_leaves_no_failure_witness :
  Forall (fun row =>
            unsafe_path (safe_relative_path_of row) = true
            \/ path_exists
                 (world_of (@synthesize_rows env_completes sample_worker
                              sample_base [row_hi; row_dotdot]
                              (world_completes sample_dirs)))
                 (output_file_of sample_base row) = true)
    [row_hi; row_dotdot].
Proof.
  assert (@synthesize_rows env_completes sample_worker sample_base
            [row_hi; row_dotdot] (world_completes sample_dirs)
          = Ok [] (world_of (@synthesize_rows env_completes sample_worker
                               sample_base [row_hi; row_dotdot]
                               (world_completes sample_dirs)))) as Hrun
    by (vm_compute; reflexivity).
  exact (proj1 (proj2 (@reliable_service_leaves_no_failure env_completes
                         sample_worker sample_base [row_hi; row_dotdot] []
                         (world_completes sample_dirs) _
                         env_completes_service Hrun))).
Defined.

(** A commit of one row. *)
Lemma commit_saves_snapshot_and_settings_witness :
  let w' := world_of (@commit env_completes sample_worker [] [row_hi]
                        (world_completes sample_dirs)) in
  @_read_csv_rows env_completes (last_csv_path_of sample_worker) w'
  = Ok [row_hi] w'.
Proof.
  cbn zeta.
  assert (@commit env_completes sample_worker [] [row_hi]
            (world_completes sample_dirs)
          = Ok () (world_of (@commit env_completes sample_worker [] [row_hi]
                               (world_completes sample_dirs)))) as Hrun
    by (vm_compute; reflexivity).
  exact (proj1 (@commit_saves_snapshot_and_settings env_completes sample_worker
                  [row_hi] (world_completes sample_dirs) _ row_hi_clean Hrun)).
Defined.

(** A run that ends well: the snapshot holds the rows of the file. *)
Lemma done_means_everything_is_committed_witness :
  let w' := (@run env_completes sample_worker
               (world_completes files_text_changed)).2 in
  exists current_rows,
    @_read_csv_rows env_completes (last_csv_path_of sample_worker) w'
    = Ok current_rows w'.
Proof.
  cbn zeta.
  destruct (@done_means_everything_is_committed env_completes sample_worker
              (world_completes files_text_changed)
              (@run env_completes sample_worker
                 (world_completes files_text_changed)).2)
    as (current_rows & _ & _ & _ & _ & _ & Hsnap & _).
  - vm_compute. reflexivity.
  - exists current_rows. exact Hsnap.
Defined.

(** A first run: the snapshot is seeded with the row of the file. *)
Lemma snapshot_of_same_rows_shows_no_change_witness :
  let w1 := world_of (@_write_rows env_completes
                        (last_csv_path_of sample_worker) [row_hi]
                        (world_completes sample_dirs)) in
  (last_rows ← @_read_csv_rows env_completes (last_csv_path_of sample_worker);
   diff_rows sample_base (build_last_map last_rows) [row_hi]) w1
  = Ok ([], []) w1.
Proof.
  cbn zeta.
  apply (@snapshot_of_same_rows_shows_no_change env_completes sample_base
           (last_csv_path_of sample_worker) [row_hi]
           (world_completes sample_dirs)).
  - exact row_hi_clean.
  - exact row_hi_one_text.
  - vm_compute. reflexivity.
Defined.

(** The rows file of the sample worker. *)
Lemma resolved_csv_is_a_file_witness :
  exists k n,
    @resolve env_completes
      (emit (lit "Using CSV: /in/rows.csv") (world_completes files_text_changed))
      (parse_path (lit "/in/rows.csv")) = Found k n
    /\ n <> Dir.
Proof.
  apply (@resolved_csv_is_a_file env_completes sample_worker
           (parse_path (lit "/in/rows.csv"))
           (world_completes files_text_changed)
           (emit (lit "Using CSV: /in/rows.csv")
              (world_completes files_text_changed))).
  vm_compute. reflexivity.
Defined.

(** No rows file: the run fails, the output root is there. *)
Lemma invalid_csv_fails_after_the_output_root_is_made_witness :
  @run env_completes sample_worker
    (world_completes (<[ [lit "app"] := Dir ]> ∅))
  = (failed (FileNotFoundError
               (lit "CSV file not found or invalid: /in/rows.csv")),
     world_of (@mkdir_parents env_completes (base_output_of sample_worker)
                 (world_completes (<[ [lit "app"] := Dir ]> ∅)))).
Proof.
  apply (@invalid_csv_fails_after_the_output_root_is_made env_completes
           sample_worker (world_completes (<[ [lit "app"] := Dir ]> ∅))).
  - vm_compute. reflexivity.
  - vm_compute. reflexivity.
Defined.

(** A padded path and a blank one, written and read. *)
Lemma written_rows_read_back_stripped_witness :
  read_rows_text
    (write_rows_text [mkCsvRow (lit " a") (lit "x, y"); mkCsvRow (lit " ") (lit "z")])
  = Some [mkCsvRow (lit "a") (lit "x, y")].
Proof.
  apply (written_rows_read_back_stripped
           [mkCsvRow (lit " a") (lit "x, y"); mkCsvRow (lit " ") (lit "z")]).
  repeat constructor; vm_compute; discriminate.
Defined.

(** A header in capitals: no row is read. *)
Lemma rows_need_the_path_column_witness :
  read_rows_text csv_capital_header = Some [].
Proof.
  apply (proj1 (rows_need_the_path_column csv_capital_header
                  [lit "Path"; lit "text to play"] [[lit "a"; lit "x"]]
                  ltac:(vm_compute; reflexivity))).
  apply (bool_decide_unpack _). vm_compute. exact I.
Defined.

(** English selected in the sample window. *)
Lemma selected_code_names_the_selected_language_witness :
  @language_name_from_code env_completes
    (MainWindow._selected_language_code sample_window)
  = lit "English".
Proof.
  apply (@selected_code_names_the_selected_language env_completes sample_window).
  - vm_compute. reflexivity.
  - apply (bool_decide_unpack _). vm_compute. exact I.
Defined.

(** Jenny selected in the sample window. *)
Lemma short_name_ends_with_the_voice_tail_witness :
  List.last (split_on c_minus (MainWindow._current_short_name sample_window)) []
  = lit "JennyNeural".
Proof.
  apply (short_name_ends_with_the_voice_tail sample_window).
  - apply (bool_decide_unpack _). vm_compute. exact I.
  - vm_compute. discriminate.
Defined.

(** The first rows file of the application directory. *)
Lemma default_csv_file_passes_the_worker_check_witness :
  @_resolve_csv_path env_completes worker_of_default
    (world_completes files_of_app)
  = Ok (parse_path (lit "/app/in/a.CSV"))
      (emit (lit "Using CSV: /app/in/a.CSV") (world_completes files_of_app)).
Proof.
  apply (@default_csv_file_passes_the_worker_check env_completes sample_window
           worker_of_default (world_completes files_of_app)
           (parse_path (lit "/app/in/a.CSV"))).
  - vm_compute. reflexivity.
  - reflexivity.
Defined.

(** The logs of the application directory. *)
Lemma cleanup_removes_the_log_files_only_witness :
  exists w',
    @MainWindow._cleanup_logs env_completes sample_window
      (world_completes files_of_app) = Ok () w'
    /\ fs w' !! [lit "app"; lit "log-1.txt"] = None.
Proof.
  destruct (@cleanup_removes_the_log_files_only env_completes sample_window
              (world_completes files_of_app) [lit "app"])
    as (w' & Hrun & Hgone & _).
  - vm_compute. reflexivity.
  - exists w'. split; [exact Hrun|].
    apply (Hgone (lit "log-1.txt") (Text (lit "one"))).
    + vm_compute. reflexivity.
    + vm_compute. reflexivity.
    + discriminate.
Defined.
